(** * Common Encryption subsample decryption

    A shallow embedding of [FFmpegEncodedFrame::Decrypt] and [IncrementIv]
    from [src/media/ffmpeg_encoded_frame.cc], followed by the properties of
    the subsample walk: shape of the IV buffer, counter arithmetic for the
    CTR schemes, chaining for 'cbc1', and the error taxonomy.

    Conventions.
    - [uint8_t] buffers are [list byte]; a pointer into a buffer is an
      offset ([Z]) into the list.
    - [uint32_t] and [unsigned int] struct fields are [N]; arithmetic is done
      in [Z] with the wrap-around of the C type written out ([u32],
      [size_t]).
    - The CDM ([eme::Implementation]) is an interface: a type of CDM states
      with a [Decrypt] transition.  Every call is also appended to a history
      ([cdm_calls]) so that what was presented to the CDM can be stated.
    - [DCHECK] is a macro whose definition depends on the build; the build is
      a parameter ([DCHECK_IS_ON]).  Executions that leave the defined
      behaviour of C++ (failed check, out-of-range access, division by zero)
      end in [Abort].

    The last part embeds the MediaSource object of
    [src/js/mse/media_source.cc] (blob URL, registry, life cycle) and
    [Document::DocumentElement] of [src/js/dom/document.cc]. *)

From Stdlib Require Import Strings.Ascii Strings.String.
From Stdlib Require Import ZArith List Bool Lia Sorted Permutation.
From Stdlib Require Import Strings.Byte.
From Stdlib Require Import Floats.SpecFloat.
Import ListNotations.
Local Open Scope Z_scope.

(** ** Machine integers and bytes *)

(** Value of a [uint32_t] expression. *)
Definition u32 (z : Z) : Z := z mod 2 ^ 32.

(** Value of a [size_t] expression (64-bit target). *)
Definition size_t (z : Z) : Z := z mod 2 ^ 64.

Definition byte_val (b : byte) : Z := Z.of_N (Byte.to_N b).

Definition byte_of (z : Z) : byte :=
  match Byte.of_N (Z.to_N (z mod 256)) with
  | Some b => b
  | None => x00
  end.

(** Big-endian reading of a byte string. *)
Definition be_value (bs : list byte) : Z :=
  fold_left (fun acc b => acc * 256 + byte_val b) bs 0.

(** The [n] low-order bytes of [z], most significant first. *)
Fixpoint be_bytes (n : nat) (z : Z) : list byte :=
  match n with
  | O => []
  | S k => be_bytes k (z / 256) ++ [byte_of z]
  end.

(** [ntohl] applied to a 32-bit word as it lies in memory; [htonl] gives the
    bytes in memory of its result. *)
Definition ntohl (w : list byte) : Z := be_value w.
Definition htonl (v : Z) : list byte := be_bytes 4 v.

(** ** Buffers *)

(** Bytes [pos, pos + len) of a buffer. *)
Definition load (buf : list byte) (pos len : Z) : list byte :=
  firstn (Z.to_nat len) (skipn (Z.to_nat pos) buf).

(** Overwrite [buf] at [pos]; writing outside the buffer is undefined. *)
Definition store (buf : list byte) (pos : Z) (bs : list byte)
  : option (list byte) :=
  if (0 <=? pos) && (pos + Z.of_nat (length bs) <=? Z.of_nat (length buf))
  then Some (firstn (Z.to_nat pos) buf ++ bs
             ++ skipn (Z.to_nat pos + length bs) buf)
  else None.

(** ** Constants of the translation unit *)

Definition kAesBlockSize : Z := 16.
Definition kCencScheme : N := 0x63656e63.
Definition kCensScheme : N := 0x63656e73.
Definition kCbc1Scheme : N := 0x63626331.
Definition kCbcsScheme : N := 0x63626373.

(** ** Result codes *)

(** Modelled from the spec: the declaration of [shaka::media::Status] is not
    part of the translation unit; these are the kinds the routine reports. *)
Module Status.
Inductive Status :=
| Success
| NotSupported
| KeyNotFound
| InvalidContainerData
| OutOfMemory
| UnknownError.
End Status.

(** Ways an execution leaves defined behaviour. *)
Inductive Fault :=
| DcheckFailed      (* a DCHECK that is compiled in fails *)
| OutOfRange        (* std::vector::at throws *)
| OutOfBounds       (* access outside a buffer *)
| DivisionByZero.

Inductive Outcome :=
| Return (s : Status.Status)
| Abort (f : Fault).

(** ** The CDM interface *)

Module eme.

Inductive EncryptionScheme := AesCtr | AesCbc.

(** Modelled from the spec: [shaka/eme/configuration.h] is not part of the
    translation unit; the pattern is the pair (crypt, skip). *)
Record EncryptionPattern := {
  pattern_crypt : N;
  pattern_skip : N
}.

(** Modelled from the spec: [eme::DecryptStatus] has the three values the
    routine names and anything else. *)
Module DecryptStatus.
Inductive DecryptStatus := Success | NotSupported | KeyNotFound | OtherError.
End DecryptStatus.

(** Arguments of one [Implementation::Decrypt] call; sizes are the lengths
    of the buffers. *)
Record DecryptCall := {
  call_scheme : EncryptionScheme;
  call_pattern : EncryptionPattern;
  call_block_offset : Z;
  call_key_id : list byte;
  call_iv : list byte;
  call_data : list byte
}.

(** A CDM: the call returns a status and the bytes it wrote to [dest]. *)
Class Implementation (C : Type) := {
  Decrypt : C -> DecryptCall -> C * DecryptStatus.DecryptStatus * list byte
}.

End eme.

(** ** FFmpeg data *)

Inductive AVPacketSideDataType :=
| AV_PKT_DATA_ENCRYPTION_INFO
| AV_PKT_DATA_OTHER (tag : N).

Record AVPacketSideData := {
  sd_data : list byte;
  sd_type : AVPacketSideDataType
}.

(** [size] and [side_data_elems] are the lengths of the lists. *)
Record AVPacket := {
  pkt_data : list byte;
  pkt_side_data : list AVPacketSideData;
  pkt_pts : Z;
  pkt_dts : Z;
  pkt_duration : Z;
  pkt_flags : Z
}.

Record AVSubsampleEncryptionInfo := {
  bytes_of_clear_data : N;
  bytes_of_protected_data : N
}.

(** [key_id_size], [iv_size] and [subsample_count] are the lengths. *)
Record AVEncryptionInfo := {
  scheme : N;
  crypt_byte_block : N;
  skip_byte_block : N;
  key_id : list byte;
  iv : list byte;
  subsamples : list AVSubsampleEncryptionInfo
}.

(** The decoder of the side-data blob belongs to libavutil. *)
Class LibAvUtil := {
  av_encryption_info_get_side_data : list byte -> option AVEncryptionInfo
}.

(** First side-data element of the requested type, if any. *)
Fixpoint av_packet_get_side_data (sd : list AVPacketSideData)
    (type : AVPacketSideDataType) : option (list byte) :=
  match sd with
  | [] => None
  | e :: rest =>
      match sd_type e, type with
      | AV_PKT_DATA_ENCRYPTION_INFO, AV_PKT_DATA_ENCRYPTION_INFO =>
          Some (sd_data e)
      | AV_PKT_DATA_OTHER a, AV_PKT_DATA_OTHER b =>
          if N.eqb a b then Some (sd_data e)
          else av_packet_get_side_data rest type
      | _, _ => av_packet_get_side_data rest type
      end
  end.

(** ** The frame *)

Definition double := spec_float.

Record FFmpegEncodedFrame := {
  pts : double;
  dts : double;
  duration : double;
  is_key_frame : bool;
  packet_ : AVPacket;
  stream_id_ : N;
  timestamp_offset_ : double
}.

Definition is_encrypted (f : FFmpegEncodedFrame) : bool :=
  match av_packet_get_side_data (pkt_side_data (packet_ f))
          AV_PKT_DATA_ENCRYPTION_INFO with
  | Some _ => true
  | None => false
  end.

(** ** Build configuration *)

Class Build := { DCHECK_IS_ON : bool }.

(** [DCHECK(cond)] stops the program exactly when checks are compiled in and
    the condition is false. *)
Definition dcheck_fails {B : Build} (cond : bool) : bool :=
  DCHECK_IS_ON && negb cond.

(** ** IncrementIv *)

(** [counter[i]] for [counter = reinterpret_cast<uint32_t*>(&iv->at(8))]. *)
Definition counter (iv : list byte) (i : Z) : list byte := load iv (8 + 4 * i) 4.

Definition set_counter (iv : list byte) (i : Z) (w : list byte) : list byte :=
  firstn (Z.to_nat (8 + 4 * i)) iv ++ w ++ skipn (Z.to_nat (8 + 4 * i) + 4) iv.

Definition IncrementIv {B : Build} (count : Z) (iv : list byte)
  : Fault + list byte :=
  if dcheck_fails (length iv =? 16)%nat then inl DcheckFailed
  else if (length iv <=? 8)%nat then inl OutOfRange
  else if (length iv <? 16)%nat then inl OutOfBounds
  else
    let max := 2 ^ 32 - 1 in
    let iv1 :=
      if u32 (max - count) <? ntohl (counter iv 1)
      then set_counter iv 0 (htonl (u32 (ntohl (counter iv 0) + 1)))
      else iv in
    inr (set_counter iv1 1 (htonl (u32 (ntohl (counter iv1 1) + count)))).

(** ** The state [Decrypt] runs in *)

(** [this] is the frame the method is called on, [dest_packet] the packet
    passed by the caller, [cdm] the CDM; [cdm_calls] is the history of CDM
    calls, oldest first. *)
Record Machine (C : Type) := {
  this : FFmpegEncodedFrame;
  dest_packet : AVPacket;
  cdm : C;
  cdm_calls : list eme.DecryptCall
}.
Arguments this {C} _.
Arguments dest_packet {C} _.
Arguments cdm {C} _.
Arguments cdm_calls {C} _.

(** The locals of the subsample loop; [src] and [dest] are offsets into
    [packet_.data] and [dest_packet->data]. *)
Record Locals := {
  src : Z;
  dest : Z;
  total_size : Z;
  block_offset : Z;
  cur_iv : list byte
}.

(** How one iteration of the loop ends: with the locals for the next
    iteration, or by leaving the function. *)
Inductive Flow :=
| Next (l : Locals)
| Exit (o : Outcome).

Definition set_dest_data (p : AVPacket) (d : list byte) : AVPacket :=
  {| pkt_data := d;
     pkt_side_data := pkt_side_data p;
     pkt_pts := pkt_pts p;
     pkt_dts := pkt_dts p;
     pkt_duration := pkt_duration p;
     pkt_flags := pkt_flags p |}.

(** [memcpy(dest, ..., n)] into the destination packet. *)
Definition memcpy_dest {C} (m : Machine C) (pos : Z) (bs : list byte)
  : option (Machine C) :=
  match store (pkt_data (dest_packet m)) pos bs with
  | Some d =>
      Some {| this := this m;
              dest_packet := set_dest_data (dest_packet m) d;
              cdm := cdm m;
              cdm_calls := cdm_calls m |}
  | None => None
  end.

(** [cdm->Decrypt(..., dest)]: the CDM runs, the call is recorded, and what
    the CDM wrote (at most [data_size] bytes) lands at [pos]. *)
Definition cdm_Decrypt {C} {I : eme.Implementation C} (m : Machine C)
    (call : eme.DecryptCall) (pos : Z)
  : option (eme.DecryptStatus.DecryptStatus * Machine C) :=
  let '(c', status, out) := eme.Decrypt (cdm m) call in
  match store (pkt_data (dest_packet m)) pos
          (firstn (length (eme.call_data call)) out) with
  | Some d =>
      Some (status,
            {| this := this m;
               dest_packet := set_dest_data (dest_packet m) d;
               cdm := c';
               cdm_calls := cdm_calls m ++ [call] |})
  | None => None
  end.

(** ** Decrypt *)

(** The [switch] on the wire scheme. *)
Definition select_scheme (enc_info : AVEncryptionInfo)
  : Status.Status + eme.EncryptionScheme :=
  if N.eqb (scheme enc_info) kCencScheme then
    if negb (N.eqb (crypt_byte_block enc_info) 0)
       || negb (N.eqb (skip_byte_block enc_info) 0)
    then inl Status.InvalidContainerData
    else inr eme.AesCtr
  else if N.eqb (scheme enc_info) kCensScheme then inr eme.AesCtr
  else if N.eqb (scheme enc_info) kCbc1Scheme then
    if negb (N.eqb (crypt_byte_block enc_info) 0)
       || negb (N.eqb (skip_byte_block enc_info) 0)
    then inl Status.InvalidContainerData
    else inr eme.AesCbc
  else if N.eqb (scheme enc_info) kCbcsScheme then inr eme.AesCbc
  else inl Status.NotSupported.

(** The [switch] on the CDM status; [None] is [break]. *)
Definition decrypt_status_error (s : eme.DecryptStatus.DecryptStatus)
  : option Status.Status :=
  match s with
  | eme.DecryptStatus.Success => None
  | eme.DecryptStatus.NotSupported => Some Status.NotSupported
  | eme.DecryptStatus.KeyNotFound => Some Status.KeyNotFound
  | _ => Some Status.UnknownError
  end.

(** The arguments [Decrypt] passes to the CDM. *)
Definition make_call (enc_info : AVEncryptionInfo)
    (scheme : eme.EncryptionScheme) (block_offset : Z)
    (iv data : list byte) : eme.DecryptCall :=
  {| eme.call_scheme := scheme;
     eme.call_pattern :=
       {| eme.pattern_crypt := crypt_byte_block enc_info;
          eme.pattern_skip := skip_byte_block enc_info |};
     eme.call_block_offset := block_offset;
     eme.call_key_id := key_id enc_info;
     eme.call_iv := iv;
     eme.call_data := data |}.

(** The locals at loop entry. *)
Definition init_locals (enc_info : AVEncryptionInfo) (packet : AVPacket)
  : Locals :=
  {| src := 0;
     dest := 0;
     total_size := Z.of_nat (length (pkt_data packet));
     block_offset := 0;
     cur_iv := iv enc_info |}.

(** [src += n; dest += n; total_size -= n]. *)
Definition advance (l : Locals) (n : Z) : Locals :=
  {| src := src l + n;
     dest := dest l + n;
     total_size := total_size l - n;
     block_offset := block_offset l;
     cur_iv := cur_iv l |}.

(** The value of [increment] for the CTR schemes. *)
Definition ctr_increment (enc_info : AVEncryptionInfo)
    (block_offset protected_bytes : Z) : Fault + Z :=
  if N.eqb (scheme enc_info) kCencScheme then
    inr (u32 (size_t (block_offset + protected_bytes) / kAesBlockSize))
  else
    let num_blocks := protected_bytes / kAesBlockSize in
    let pattern_size :=
      u32 (Z.of_N (crypt_byte_block enc_info)
           + Z.of_N (skip_byte_block enc_info)) in
    if pattern_size =? 0 then inl DivisionByZero
    else
      let increment :=
        u32 (size_t (num_blocks / pattern_size
                     * Z.of_N (crypt_byte_block enc_info))) in
      if Z.of_N (crypt_byte_block enc_info) <=? num_blocks mod pattern_size
      then inr (u32 (increment + Z.of_N (crypt_byte_block enc_info)))
      else inr increment.

(** The rest of an iteration after a successful CDM call: the IV update of
    the scheme and the advance over the protected bytes. *)
Definition update_iv {B : Build} (enc_info : AVEncryptionInfo)
    (packet : AVPacket) (protected_bytes : Z) (l : Locals) : Flow :=
  if N.eqb (scheme enc_info) kCencScheme
     || N.eqb (scheme enc_info) kCensScheme then
    match ctr_increment enc_info (block_offset l) protected_bytes with
    | inl f => Exit (Abort f)
    | inr increment =>
        match IncrementIv increment (cur_iv l) with
        | inl f => Exit (Abort f)
        | inr iv' =>
            Next {| src := src l + protected_bytes;
                    dest := dest l + protected_bytes;
                    total_size := total_size l - protected_bytes;
                    block_offset :=
                      size_t (block_offset l + protected_bytes)
                      mod kAesBlockSize;
                    cur_iv := iv' |}
        end
    end
  else if N.eqb (scheme enc_info) kCbc1Scheme then
    if (protected_bytes <? kAesBlockSize)
       || negb (protected_bytes mod kAesBlockSize =? 0)
    then Exit (Return Status.InvalidContainerData)
    else
      let block_end := src l + protected_bytes in
      Next {| src := src l + protected_bytes;
              dest := dest l + protected_bytes;
              total_size := total_size l - protected_bytes;
              block_offset := block_offset l;
              cur_iv :=
                load (pkt_data packet) (block_end - kAesBlockSize)
                  kAesBlockSize |}
  else Next (advance l protected_bytes).

(** One iteration of the loop over the subsamples. *)
Definition subsample_step {C} {B : Build} {I : eme.Implementation C}
    (enc_info : AVEncryptionInfo) (scheme : eme.EncryptionScheme)
    (sub : AVSubsampleEncryptionInfo) (l : Locals) (m : Machine C)
  : Flow * Machine C :=
  let packet := packet_ (this m) in
  let clear_bytes := Z.of_N (bytes_of_clear_data sub) in
  let protected_bytes := Z.of_N (bytes_of_protected_data sub) in
  if (total_size l <? clear_bytes)
     || (total_size l - clear_bytes <? protected_bytes)
  then (Exit (Return Status.InvalidContainerData), m)
  else
    match memcpy_dest m (dest l) (load (pkt_data packet) (src l) clear_bytes)
    with
    | None => (Exit (Abort OutOfBounds), m)
    | Some m1 =>
        let l1 := advance l clear_bytes in
        if protected_bytes =? 0 then (Next l1, m1)
        else
          match cdm_Decrypt m1
                  (make_call enc_info scheme (block_offset l1) (cur_iv l1)
                     (load (pkt_data packet) (src l1) protected_bytes))
                  (dest l1) with
          | None => (Exit (Abort OutOfBounds), m1)
          | Some (decrypt_status, m2) =>
              match decrypt_status_error decrypt_status with
              | Some err => (Exit (Return err), m2)
              | None => (update_iv enc_info packet protected_bytes l1, m2)
              end
          end
    end.

(** The loop. *)
Fixpoint walk {C} {B : Build} {I : eme.Implementation C}
    (enc_info : AVEncryptionInfo) (scheme : eme.EncryptionScheme)
    (subs : list AVSubsampleEncryptionInfo) (l : Locals) (m : Machine C)
  : Flow * Machine C :=
  match subs with
  | [] => (Next l, m)
  | sub :: rest =>
      match subsample_step enc_info scheme sub l m with
      | (Next l', m') => walk enc_info scheme rest l' m'
      | (Exit o, m') => (Exit o, m')
      end
  end.

(** [Decrypt] from the point where the encryption info is decoded. *)
Definition decrypt_info {C} {B : Build} {I : eme.Implementation C}
    (enc_info : AVEncryptionInfo) (m : Machine C) : Outcome * Machine C :=
  match select_scheme enc_info with
  | inl err => (Return err, m)
  | inr scheme =>
      let packet := packet_ (this m) in
      match subsamples enc_info with
      | [] =>
          match cdm_Decrypt m
                  (make_call enc_info scheme 0 (iv enc_info) (pkt_data packet))
                  0 with
          | None => (Abort OutOfBounds, m)
          | Some (decrypt_status, m') =>
              match decrypt_status_error decrypt_status with
              | Some err => (Return err, m')
              | None => (Return Status.Success, m')
              end
          end
      | _ :: _ =>
          match walk enc_info scheme (subsamples enc_info)
                  (init_locals enc_info packet) m with
          | (Exit o, m') => (o, m')
          | (Next l, m') =>
              if negb (total_size l =? 0)
              then (Return Status.InvalidContainerData, m')
              else (Return Status.Success, m')
          end
      end
  end.

(** The encryption info [Decrypt] works with, when there is one. *)
Definition decoded_info {L : LibAvUtil} (f : FFmpegEncodedFrame)
  : option AVEncryptionInfo :=
  match av_packet_get_side_data (pkt_side_data (packet_ f))
          AV_PKT_DATA_ENCRYPTION_INFO with
  | Some side_data => av_encryption_info_get_side_data side_data
  | None => None
  end.

Definition Decrypt {C} {B : Build} {L : LibAvUtil} {I : eme.Implementation C}
    (m : Machine C) : Outcome * Machine C :=
  let packet := packet_ (this m) in
  if dcheck_fails
       (length (pkt_data packet) <=? length (pkt_data (dest_packet m)))%nat
  then (Abort DcheckFailed, m)
  else if dcheck_fails (is_encrypted (this m)) then (Abort DcheckFailed, m)
  else
    match av_packet_get_side_data (pkt_side_data packet)
            AV_PKT_DATA_ENCRYPTION_INFO with
    | None => (Return Status.UnknownError, m)
    | Some side_data =>
        match av_encryption_info_get_side_data side_data with
        | None => (Return Status.OutOfMemory, m)
        | Some enc_info => decrypt_info enc_info m
        end
    end.

(** ** Concrete builds, CDMs and frames

    Used to run the model on the scenarios of the specification. *)

Definition debug_build : Build := {| DCHECK_IS_ON := true |}.
Definition release_build : Build := {| DCHECK_IS_ON := false |}.

(** A CDM that copies its input and reports success. *)
Definition identity_cdm : eme.Implementation unit :=
  {| eme.Decrypt := fun c call =>
       (c, eme.DecryptStatus.Success, eme.call_data call) |}.

(** A CDM that answers with the statuses of a script, one per call, and
    with success once the script is exhausted; it copies its input. *)
Definition scripted_cdm
  : eme.Implementation (list eme.DecryptStatus.DecryptStatus) :=
  {| eme.Decrypt := fun script call =>
       match script with
       | [] => ([], eme.DecryptStatus.Success, eme.call_data call)
       | s :: rest => (rest, s, eme.call_data call)
       end |}.

(** A decoder that yields a given encryption info for every blob. *)
Definition decoder_of (enc_info : AVEncryptionInfo) : LibAvUtil :=
  {| av_encryption_info_get_side_data := fun _ => Some enc_info |}.

Definition zero : double := S754_zero false.

(** A frame with the given payload and one encryption-info side-data blob. *)
Definition frame_of (payload : list byte) : FFmpegEncodedFrame :=
  {| pts := zero; dts := zero; duration := zero; is_key_frame := true;
     packet_ := {| pkt_data := payload;
                   pkt_side_data :=
                     [ {| sd_data := [x01];
                          sd_type := AV_PKT_DATA_ENCRYPTION_INFO |} ];
                   pkt_pts := 0; pkt_dts := 0; pkt_duration := 0;
                   pkt_flags := 1 |};
     stream_id_ := 0%N;
     timestamp_offset_ := zero |}.

(** The machine before the call: a zeroed destination packet as large as the
    payload, and no CDM call yet. *)
Definition machine_of {C} (c : C) (payload : list byte) : Machine C :=
  {| this := frame_of payload;
     dest_packet := {| pkt_data := repeat x00 (length payload);
                       pkt_side_data := [];
                       pkt_pts := 0; pkt_dts := 0; pkt_duration := 0;
                       pkt_flags := 0 |};
     cdm := c;
     cdm_calls := [] |}.

Definition subsample (clear protected : N) : AVSubsampleEncryptionInfo :=
  {| bytes_of_clear_data := clear; bytes_of_protected_data := protected |}.

Definition info_of (scheme crypt skip : N) (iv : list byte)
    (subs : list AVSubsampleEncryptionInfo) : AVEncryptionInfo :=
  {| scheme := scheme; crypt_byte_block := crypt; skip_byte_block := skip;
     key_id := repeat x01 16; iv := iv; subsamples := subs |}.

(** Payload bytes 0, 1, 2, ... *)
Definition ramp (n : nat) : list byte := map (fun i => byte_of (Z.of_nat i)) (seq 0 n).

(** [Decrypt] on a frame with the given encryption info and payload. *)
Definition run {C} (B : Build) (I : eme.Implementation C) (c : C)
    (enc_info : AVEncryptionInfo) (payload : list byte)
  : Outcome * Machine C :=
  @Decrypt C B (decoder_of enc_info) I (machine_of c payload).

(** ** Definitions used to state the properties *)

(** The IV as a big-endian integer; its low 64 bits are the counter field
    ([iv[8..16]]). *)
Definition iv_value (iv : list byte) : Z := be_value iv.
Definition iv_counter (iv : list byte) : Z := be_value (skipn 8 iv).

(** Zero padding on the right to [n] bytes. *)
Definition zero_pad (n : nat) (bs : list byte) : list byte :=
  bs ++ repeat x00 (n - length bs).

(** The last AES block of a byte string. *)
Definition last_block (bs : list byte) : list byte :=
  skipn (length bs - 16) bs.

(** The protected regions of the payload, one per subsample with protected
    bytes, as the subsample table lays them out from offset [off]. *)
Fixpoint protected_regions (payload : list byte) (off : Z)
    (subs : list AVSubsampleEncryptionInfo) : list (list byte) :=
  match subs with
  | [] => []
  | sub :: rest =>
      let clear := Z.of_N (bytes_of_clear_data sub) in
      let protected := Z.of_N (bytes_of_protected_data sub) in
      let tail := protected_regions payload (off + clear + protected) rest in
      if protected =? 0 then tail
      else load payload (off + clear) protected :: tail
  end.

(** Total size of a list of subsamples. *)
Definition subsamples_size (subs : list AVSubsampleEncryptionInfo) : Z :=
  fold_right (fun sub acc =>
                Z.of_N (bytes_of_clear_data sub)
                + Z.of_N (bytes_of_protected_data sub) + acc) 0 subs.

(** The CDM calls made between two machine states. *)
Definition calls_since {C} (m m' : Machine C) : list eme.DecryptCall :=
  skipn (length (cdm_calls m)) (cdm_calls m').

(** The status a CDM in state [c] gives for a call. *)
Definition cdm_status {C} {I : eme.Implementation C} (c : C)
    (call : eme.DecryptCall) : eme.DecryptStatus.DecryptStatus :=
  snd (fst (eme.Decrypt c call)).

(** The precondition on the destination: [packet_.size <= dest_packet->size]. *)
Definition dest_fits {C} (m : Machine C) : Prop :=
  (length (pkt_data (packet_ (this m)))
   <= length (pkt_data (dest_packet m)))%nat.

(** What holds of the locals and the machine at the head of every iteration
    of a walk that started on machine [m0]. *)
Definition walk_inv {C} (m0 : Machine C) (l : Locals) (m : Machine C) : Prop :=
  this m = this m0
  /\ length (pkt_data (dest_packet m)) = length (pkt_data (dest_packet m0))
  /\ dest l = src l
  /\ 0 <= src l
  /\ 0 <= total_size l
  /\ src l + total_size l = Z.of_nat (length (pkt_data (packet_ (this m0))))
  /\ 0 <= block_offset l < 16.

(** The CDM call an iteration makes when it gets that far. *)
Definition step_call {C} (enc_info : AVEncryptionInfo)
    (scheme : eme.EncryptionScheme) (sub : AVSubsampleEncryptionInfo)
    (l : Locals) (m : Machine C) : eme.DecryptCall :=
  make_call enc_info scheme (block_offset l) (cur_iv l)
    (load (pkt_data (packet_ (this m)))
       (src l + Z.of_N (bytes_of_clear_data sub))
       (Z.of_N (bytes_of_protected_data sub))).

(** The subsample fits in what remains of the payload. *)
Definition fits (sub : AVSubsampleEncryptionInfo) (l : Locals) : Prop :=
  Z.of_N (bytes_of_clear_data sub) + Z.of_N (bytes_of_protected_data sub)
  <= total_size l.

(** The ways one iteration can go. *)
Inductive StepView {C} {B : Build} {I : eme.Implementation C}
    (enc_info : AVEncryptionInfo) (scheme : eme.EncryptionScheme)
    (sub : AVSubsampleEncryptionInfo) (l : Locals) (m : Machine C)
  : Flow * Machine C -> Prop :=
| SV_overflow :
    ~ fits sub l ->
    StepView enc_info scheme sub l m
      (Exit (Return Status.InvalidContainerData), m)
| SV_out_of_bounds m' :
    fits sub l ->
    this m' = this m -> cdm_calls m' = cdm_calls m ->
    ~ (0 <= dest l
       /\ dest l + Z.of_N (bytes_of_clear_data sub)
          + Z.of_N (bytes_of_protected_data sub)
          <= Z.of_nat (length (pkt_data (dest_packet m)))) ->
    StepView enc_info scheme sub l m (Exit (Abort OutOfBounds), m')
| SV_clear_only m' :
    fits sub l ->
    bytes_of_protected_data sub = 0%N ->
    this m' = this m -> cdm_calls m' = cdm_calls m -> cdm m' = cdm m ->
    length (pkt_data (dest_packet m')) = length (pkt_data (dest_packet m)) ->
    StepView enc_info scheme sub l m
      (Next (advance l (Z.of_N (bytes_of_clear_data sub))), m')
| SV_cdm_error m' err :
    fits sub l ->
    0 < Z.of_N (bytes_of_protected_data sub) ->
    this m' = this m ->
    cdm_calls m' = cdm_calls m ++ [step_call enc_info scheme sub l m] ->
    decrypt_status_error
      (cdm_status (cdm m) (step_call enc_info scheme sub l m)) = Some err ->
    StepView enc_info scheme sub l m (Exit (Return err), m')
| SV_cdm_success m' :
    fits sub l ->
    0 < Z.of_N (bytes_of_protected_data sub) ->
    this m' = this m ->
    cdm_calls m' = cdm_calls m ++ [step_call enc_info scheme sub l m] ->
    cdm_status (cdm m) (step_call enc_info scheme sub l m)
    = eme.DecryptStatus.Success ->
    length (pkt_data (dest_packet m')) = length (pkt_data (dest_packet m)) ->
    StepView enc_info scheme sub l m
      (update_iv enc_info (packet_ (this m))
         (Z.of_N (bytes_of_protected_data sub))
         (advance l (Z.of_N (bytes_of_clear_data sub))), m').

(** The increment of the 'cens' scheme: whole patterns times the crypt
    stripe, plus one stripe if the partial pattern holds a whole one. *)
Definition cens_increment (crypt pattern_size protected_bytes : Z) : Z :=
  let num_blocks := protected_bytes / 16 in
  num_blocks / pattern_size * crypt
  + (if crypt <=? num_blocks mod pattern_size then crypt else 0).

(** [pattern_size] as the routine computes it. *)
Definition pattern_size (enc_info : AVEncryptionInfo) : Z :=
  u32 (Z.of_N (crypt_byte_block enc_info) + Z.of_N (skip_byte_block enc_info)).

(** The position in the key stream a CDM call starts at: 16 bytes per
    counter value, plus the offset into the block. *)
Definition call_position (c : eme.DecryptCall) : Z :=
  16 * iv_value (eme.call_iv c) + eme.call_block_offset c.

(** The four cases the specification lists for InvalidContainerData, read
    off the encryption info and the payload size alone. *)
Definition listed_invalid_cases (enc_info : AVEncryptionInfo) (size : Z)
  : Prop :=
  ((scheme enc_info = kCencScheme \/ scheme enc_info = kCbc1Scheme)
   /\ (crypt_byte_block enc_info <> 0%N \/ skip_byte_block enc_info <> 0%N))
  \/ (exists pre sub post,
        subsamples enc_info = pre ++ sub :: post
        /\ let remaining := size - subsamples_size pre in
           remaining < Z.of_N (bytes_of_clear_data sub)
           \/ remaining - Z.of_N (bytes_of_clear_data sub)
              < Z.of_N (bytes_of_protected_data sub))
  \/ (scheme enc_info = kCbc1Scheme
      /\ exists sub,
           In sub (subsamples enc_info)
           /\ 0 < Z.of_N (bytes_of_protected_data sub)
           /\ (Z.of_N (bytes_of_protected_data sub) < 16
               \/ Z.of_N (bytes_of_protected_data sub) mod 16 <> 0))
  \/ (subsamples enc_info <> []
      /\ size - subsamples_size (subsamples enc_info) <> 0).

(** A subsample is reached: every iteration before it ran to its end.  Its
    size check passed, its CDM call (made when it has protected bytes)
    succeeded, and its IV update completed: under 'cbc1' the block-size check
    passed, under 'cenc' and 'cens' [IncrementIv] finished and, for 'cens',
    the pattern size was not 0. *)
Definition reaches {C} {B : Build} {I : eme.Implementation C}
    (enc_info : AVEncryptionInfo) (sch : eme.EncryptionScheme)
    (m : Machine C) (pre : list AVSubsampleEncryptionInfo)
    (l : Locals) (m1 : Machine C) : Prop :=
  walk enc_info sch pre (init_locals enc_info (packet_ (this m))) m
  = (Next l, m1).

(** What a run presented to the CDM: block offset, IV as an integer, and
    data size of each call. *)
Definition scenario_calls {C : Type} (r : Outcome * Machine C)
  : list (Z * Z * nat) :=
  map (fun c => (eme.call_block_offset c, iv_value (eme.call_iv c),
                 length (eme.call_data c)))
    (cdm_calls (snd r)).

(** A CDM that always writes its input to the destination. *)
Definition copies_input {C} (I : eme.Implementation C) : Prop :=
  forall (c : C) (call : eme.DecryptCall),
    snd (eme.Decrypt c call) = eme.call_data call.

(** Two buffers agree from [n] on. *)
Definition same_from (n : nat) (a b : list byte) : Prop :=
  length a = length b /\ skipn n a = skipn n b.

(** A machine with a given destination buffer. *)
Definition machine_with_dest {C} (c : C) (payload dest : list byte)
  : Machine C :=
  {| this := frame_of payload;
     dest_packet := {| pkt_data := dest;
                       pkt_side_data := [];
                       pkt_pts := 0; pkt_dts := 0; pkt_duration := 0;
                       pkt_flags := 0 |};
     cdm := c;
     cdm_calls := [] |}.

(** The cipher mode [Decrypt] selects for a wire scheme it supports. *)
Definition scheme_mode (enc_info : AVEncryptionInfo) : eme.EncryptionScheme :=
  if N.eqb (scheme enc_info) kCencScheme
     || N.eqb (scheme enc_info) kCensScheme
  then eme.AesCtr else eme.AesCbc.

(** [EstimateSize]; [sizeof_this] stands for [sizeof *this], which the
    compiler fixes.  The loop runs from the last side-data element down to
    the first. *)
Definition EstimateSize (sizeof_this : Z) (f : FFmpegEncodedFrame) : Z :=
  let size :=
    size_t (sizeof_this + Z.of_nat (length (pkt_data (packet_ f)))) in
  fold_left (fun size e => size_t (size + Z.of_nat (length (sd_data e))))
    (rev (pkt_side_data (packet_ f))) size.

(** Total size of the side data of a packet. *)
Definition side_data_size (sd : list AVPacketSideData) : Z :=
  fold_right (fun e acc => Z.of_nat (length (sd_data e)) + acc) 0 sd.

(** ** MediaSource ([src/js/mse/media_source.cc])

    The MediaSource object with the collaborators it calls.  The video
    controller and the source buffers are interfaces; calls that leave the
    object (scheduled events, calls on the video element, source buffers
    told to close) are appended to a list of effects, oldest first. *)

Module mse.

(** [printf]'s [%0Wx]: lower-case hexadecimal, at least [W] digits, padded
    with zeros. *)
Definition hex_digit (d : Z) : ascii :=
  if d <? 10 then ascii_of_nat (Z.to_nat (48 + d))
  else ascii_of_nat (Z.to_nat (87 + d)).

Fixpoint hex_fixed (n : nat) (v : Z) : string :=
  match n with
  | O => EmptyString
  | S k => String (hex_digit (v / 16 ^ Z.of_nat k mod 16)) (hex_fixed k v)
  end.

Definition hex_length (v : Z) : nat :=
  if v =? 0 then 1%nat else Z.to_nat (Z.log2 v / 4 + 1).

Definition printf_0x (width : nat) (v : Z) : string :=
  hex_fixed (Nat.max width (hex_length v)) v.

(** A 16-bit or 32-bit word read from memory in host byte order. *)
Definition host_word (big_endian : bool) (bs : list byte) : Z :=
  if big_endian then be_value bs else be_value (rev bs).

(** [RandomUrl]; [rand i] is what the [i]-th call of [rand()] returns. *)
Definition RandomUrl (big_endian : bool) (rand : nat -> Z) : string :=
  let bytes := map (fun i => byte_of (rand i)) (seq 0 16) in
  let _2_BYTES_AT (b : Z) := host_word big_endian (load bytes b 2) in
  let _4_BYTES_AT (b : Z) := host_word big_endian (load bytes b 4) in
  ("blob:" ++ printf_0x 8 (_4_BYTES_AT 0)
   ++ "-" ++ printf_0x 4 (_2_BYTES_AT 4)
   ++ "-" ++ printf_0x 4 (Z.lor (Z.land (_2_BYTES_AT 6) 0xfff) 0x4000)
   ++ "-" ++ printf_0x 4 (Z.lor (Z.land (_2_BYTES_AT 8) 0x3fff) 0x8000)
   ++ "-" ++ printf_0x 8 (_4_BYTES_AT 10)
   ++ printf_0x 4 (_2_BYTES_AT 14))%string.

Inductive MediaSourceReadyState := CLOSED | OPEN | ENDED.

Inductive EventType :=
| SourceOpen | SourceEnded | SourceClose | WaitingForKey | Encrypted.

Inductive ExceptionCode := NotSupportedError | InvalidStateError.

Inductive JsError :=
| DOMException (code : ExceptionCode) (message : string)
| TypeError (message : string).

(** The values of [media::Status] this file names, and the others. *)
Inductive ControllerStatus :=
| StatusSuccess | StatusNotSupported | StatusNotAllowed
| StatusOther (code : N).

Inductive SourceType := Unknown | Known (tag : N).

Definition SourceType_eqb (a b : SourceType) : bool :=
  match a, b with
  | Unknown, Unknown => true
  | Known x, Known y => N.eqb x y
  | _, _ => false
  end.

(** The controller the MediaSource owns; [K] is its state. *)
Class VideoController (K : Type) := {
  AddSource : K -> string -> K * ControllerStatus * SourceType;
  controller_EndOfStream : K -> K;
  Reset : K -> K;
  pipeline_GetDuration : K -> double;
  pipeline_SetDuration : K -> double -> K
}.

(** Source buffers: what the MediaSource reads and constructs. *)
Class SourceBufferClass (SB : Type) := {
  updating : SB -> bool;
  new_SourceBuffer : SourceType -> SB
}.

(** [source_buffers_] is a [std::unordered_map]: a loop over it meets every
    entry once, in an order that is the container's own.  The order is a
    parameter; [iteration_order m] is the sequence a loop over [m] runs
    through.  It shows in [CloseMediaSource] only: the loops of
    [EndOfStream] and [SetDuration] ask whether some buffer is updating,
    which is the same in every order. *)
Class UnorderedMap (SB : Type) := {
  iteration_order : list (SourceType * SB) -> list (SourceType * SB);
  iteration_order_entries :
    forall m : list (SourceType * SB), Permutation (iteration_order m) m
}.

(** What leaves the object. *)
Inductive Effect (SB V : Type) :=
| ScheduleEvent (e : EventType)
| VideoScheduleEvent (v : V) (e : EventType)
    (init_data : option (N * list byte))
| VideoOnReadyStateChanged (v : V) (ready_state : N)
| VideoOnPipelineStatusChanged (v : V) (status : N)
| VideoOnMediaError (v : V) (source : SourceType) (error : ControllerStatus)
| SourceBufferCloseMediaSource (b : SB).
Arguments ScheduleEvent {SB V} e.
Arguments VideoScheduleEvent {SB V} v e init_data.
Arguments VideoOnReadyStateChanged {SB V} v ready_state.
Arguments VideoOnPipelineStatusChanged {SB V} v status.
Arguments VideoOnMediaError {SB V} v source error.
Arguments SourceBufferCloseMediaSource {SB V} b.

Record MediaSource (K SB V : Type) := {
  ready_state : MediaSourceReadyState;
  url : string;
  controller_ : K;
  source_buffers_ : list (SourceType * SB);
  video_element_ : option V;
  effects : list (Effect SB V)
}.
Arguments ready_state {K SB V} _.
Arguments url {K SB V} _.
Arguments controller_ {K SB V} _.
Arguments source_buffers_ {K SB V} _.
Arguments video_element_ {K SB V} _.
Arguments effects {K SB V} _.

(** Results: a value, a JavaScript exception, or a failed check. *)
Inductive Crash := CHECK_failed | DCHECK_failed.

Inductive Result (A : Type) :=
| Value (a : A)
| Throws (e : JsError)
| Crashes (c : Crash).
Arguments Value {A} a.
Arguments Throws {A} e.
Arguments Crashes {A} c.

Definition quote : string := String (ascii_of_nat 34) EmptyString.

Definition is_open (s : MediaSourceReadyState) : bool :=
  match s with OPEN => true | _ => false end.

Definition is_closed (s : MediaSourceReadyState) : bool :=
  match s with CLOSED => true | _ => false end.

Definition isnan (d : double) : bool :=
  match d with S754_nan => true | _ => false end.

(** [std::unordered_map] as a list of pairs with distinct keys. *)
Fixpoint map_count {A V : Type} (eqb : A -> A -> bool) (k : A)
    (m : list (A * V)) : nat :=
  match m with
  | [] => 0
  | (k', _) :: rest => if eqb k k' then 1 else map_count eqb k rest
  end.

Fixpoint map_find {A V : Type} (eqb : A -> A -> bool) (k : A)
    (m : list (A * V)) : option V :=
  match m with
  | [] => None
  | (k', v) :: rest => if eqb k k' then Some v else map_find eqb k rest
  end.

(** [m[k] = v]. *)
Fixpoint map_assign {A V : Type} (eqb : A -> A -> bool) (k : A) (v : V)
    (m : list (A * V)) : list (A * V) :=
  match m with
  | [] => [(k, v)]
  | (k', v') :: rest =>
      if eqb k k' then (k, v) :: rest
      else (k', v') :: map_assign eqb k v rest
  end.

Fixpoint map_erase {A V : Type} (eqb : A -> A -> bool) (k : A)
    (m : list (A * V)) : list (A * V) :=
  match m with
  | [] => []
  | (k', v') :: rest =>
      if eqb k k' then rest else (k', v') :: map_erase eqb k rest
  end.

Section Members.
Context {K SB V : Type} {VC : VideoController K} {SBC : SourceBufferClass SB}.

Definition with_effect (s : MediaSource K SB V) (e : Effect SB V)
  : MediaSource K SB V :=
  {| ready_state := ready_state s; url := url s;
     controller_ := controller_ s; source_buffers_ := source_buffers_ s;
     video_element_ := video_element_ s; effects := effects s ++ [e] |}.

Definition AddSourceBuffer {B : Build} (type : string)
    (s : MediaSource K SB V) : Result SB * MediaSource K SB V :=
  let '(k, status, source_type) := AddSource (controller_ s) type in
  let s1 :=
    {| ready_state := ready_state s; url := url s; controller_ := k;
       source_buffers_ := source_buffers_ s;
       video_element_ := video_element_ s; effects := effects s |} in
  match status with
  | StatusNotSupported =>
      (Throws (DOMException NotSupportedError
                 ("The given type ('" ++ type ++ "') is unsupported.")%string),
       s1)
  | StatusNotAllowed =>
      (Throws (DOMException NotSupportedError
                 "Cannot add any additional SourceBuffer objects."%string),
       s1)
  | StatusOther _ => (Crashes CHECK_failed, s1)
  | StatusSuccess =>
      if dcheck_fails
           (Nat.eqb 0 (map_count SourceType_eqb source_type
                         (source_buffers_ s)))
      then (Crashes DCHECK_failed, s1)
      else if dcheck_fails (negb (SourceType_eqb source_type Unknown))
      then (Crashes DCHECK_failed, s1)
      else
        let b := new_SourceBuffer source_type in
        (Value b,
         {| ready_state := ready_state s; url := url s; controller_ := k;
            source_buffers_ :=
              map_assign SourceType_eqb source_type b (source_buffers_ s);
            video_element_ := video_element_ s; effects := effects s |})
  end.

Definition EndOfStream (error : option string) (s : MediaSource K SB V)
  : Result unit * MediaSource K SB V :=
  if negb (is_open (ready_state s)) then
    (Throws (DOMException InvalidStateError
               ("Cannot call endOfStream() unless MediaSource is "
                ++ quote ++ "open" ++ quote ++ ".")%string), s)
  else if existsb (fun pair => updating (snd pair)) (source_buffers_ s) then
    (Throws (DOMException InvalidStateError
               "Cannot call endOfStream() when a SourceBuffer is updating."%string),
     s)
  else
    match error with
    | Some _ =>
        (Throws (DOMException NotSupportedError
                   "Calling endOfStream() with an argument is not supported."%string),
         s)
    | None =>
        (Value tt,
         {| ready_state := ENDED; url := url s;
            controller_ := controller_EndOfStream (controller_ s);
            source_buffers_ := source_buffers_ s;
            video_element_ := video_element_ s;
            effects := effects s ++ [ScheduleEvent SourceEnded] |})
    end.

Definition GetDuration (s : MediaSource K SB V) : double :=
  pipeline_GetDuration (controller_ s).

Definition SetDuration (duration : double) (s : MediaSource K SB V)
  : Result unit * MediaSource K SB V :=
  if isnan duration then
    (Throws (TypeError "Cannot set duration to NaN."%string), s)
  else if negb (is_open (ready_state s)) then
    (Throws (DOMException InvalidStateError
               ("Cannot change duration unless MediaSource is "
                ++ quote ++ "open" ++ quote ++ ".")%string), s)
  else if existsb (fun pair => updating (snd pair)) (source_buffers_ s) then
    (Throws (DOMException InvalidStateError
               "Cannot change duration when a SourceBuffer is updating."%string),
     s)
  else
    (Value tt,
     {| ready_state := ready_state s; url := url s;
        controller_ := pipeline_SetDuration (controller_ s) duration;
        source_buffers_ := source_buffers_ s;
        video_element_ := video_element_ s; effects := effects s |}).

Definition OpenMediaSource {B : Build} (video : option V)
    (s : MediaSource K SB V) : Result unit * MediaSource K SB V :=
  if dcheck_fails (is_closed (ready_state s)) then (Crashes DCHECK_failed, s)
  else
    (Value tt,
     {| ready_state := OPEN; url := url s; controller_ := controller_ s;
        source_buffers_ := source_buffers_ s;
        video_element_ := video;
        effects := effects s ++ [ScheduleEvent SourceOpen] |}).

Definition CloseMediaSource {B : Build} {U : UnorderedMap SB}
    (s : MediaSource K SB V) : Result unit * MediaSource K SB V :=
  if dcheck_fails (negb (is_closed (ready_state s)))
  then (Crashes DCHECK_failed, s)
  else
    (Value tt,
     {| ready_state := CLOSED; url := url s;
        controller_ := Reset (controller_ s);
        source_buffers_ := [];
        video_element_ := None;
        effects :=
          effects s
          ++ map (fun pair => SourceBufferCloseMediaSource (snd pair))
               (iteration_order (source_buffers_ s))
          ++ [ScheduleEvent SourceClose] |}).

Definition OnReadyStateChanged (ready_state : N) (s : MediaSource K SB V)
  : MediaSource K SB V :=
  match video_element_ s with
  | Some v => with_effect s (VideoOnReadyStateChanged v ready_state)
  | None => s
  end.

Definition OnPipelineStatusChanged (status : N) (s : MediaSource K SB V)
  : MediaSource K SB V :=
  match video_element_ s with
  | Some v => with_effect s (VideoOnPipelineStatusChanged v status)
  | None => s
  end.

Definition OnMediaError (source : SourceType) (error : ControllerStatus)
    (s : MediaSource K SB V) : MediaSource K SB V :=
  match video_element_ s with
  | Some v => with_effect s (VideoOnMediaError v source error)
  | None => s
  end.

Definition OnWaitingForKey (s : MediaSource K SB V) : MediaSource K SB V :=
  match video_element_ s with
  | Some v => with_effect s (VideoScheduleEvent v WaitingForKey None)
  | None => s
  end.

Definition OnEncrypted (init_data_type : N) (init_data : list byte)
    (s : MediaSource K SB V) : MediaSource K SB V :=
  match video_element_ s with
  | Some v =>
      with_effect s
        (VideoScheduleEvent v Encrypted (Some (init_data_type, init_data)))
  | None => s
  end.

(** The object the constructor makes before it enters it in the registry:
    closed, no buffer, no video element. *)
Definition new_MediaSource (url : string) (k : K) : MediaSource K SB V :=
  {| ready_state := CLOSED; url := url; controller_ := k;
     source_buffers_ := []; video_element_ := None; effects := [] |}.

End Members.

(** The static registry [media_sources_]: URL to MediaSource, by address. *)
Definition Registry := list (string * option N).

(** The registry part of the constructor: the new object, at address
    [this], is entered under its URL. *)
Definition register {B : Build} (this : N) (url : string) (r : Registry)
  : Result unit * Registry :=
  if dcheck_fails (Nat.eqb 0 (map_count String.eqb url r))
  then (Crashes DCHECK_failed, r)
  else (Value tt, map_assign String.eqb url (Some this) r).

(** The destructor. *)
Definition unregister {B : Build} (url : string) (r : Registry)
  : Result unit * Registry :=
  if dcheck_fails (Nat.eqb 1 (map_count String.eqb url r))
  then (Crashes DCHECK_failed, r)
  else (Value tt, map_erase String.eqb url r).

(** [media_sources_[url]]: the entry, made with a null value if absent. *)
Definition map_index (url : string) (r : Registry) : option N * Registry :=
  match map_find String.eqb url r with
  | Some v => (v, r)
  | None => (None, map_assign String.eqb url None r)
  end.

Definition FindMediaSource (url : string) (r : Registry)
  : option N * Registry :=
  if Nat.eqb (map_count String.eqb url r) 0 then (None, r)
  else map_index url r.

(** *** Sequences of calls

    The ways into a MediaSource: the members JavaScript calls, the two the
    video element calls, and the callbacks bound to the controller. *)
Inductive Call (V : Type) :=
| JsAddSourceBuffer (type : string)
| JsEndOfStream (error : option string)
| JsSetDuration (duration : double)
| VideoOpenMediaSource (video : option V)
| VideoCloseMediaSource
| ControllerReadyStateChanged (ready_state : N)
| ControllerPipelineStatusChanged (status : N)
| ControllerMediaError (source : SourceType) (error : ControllerStatus)
| ControllerWaitingForKey
| ControllerEncrypted (init_data_type : N) (init_data : list byte).
Arguments JsAddSourceBuffer {V} type.
Arguments JsEndOfStream {V} error.
Arguments JsSetDuration {V} duration.
Arguments VideoOpenMediaSource {V} video.
Arguments VideoCloseMediaSource {V}.
Arguments ControllerReadyStateChanged {V} ready_state.
Arguments ControllerPipelineStatusChanged {V} status.
Arguments ControllerMediaError {V} source error.
Arguments ControllerWaitingForKey {V}.
Arguments ControllerEncrypted {V} init_data_type init_data.

Section Calls.
Context {K SB V : Type} {VC : VideoController K} {SBC : SourceBufferClass SB}
        {U : UnorderedMap SB} {B : Build}.

(** The object after a call; a failed check ends the program, an exception
    goes back to the caller and the object lives on. *)
Definition survives {A : Type} (r : Result A * MediaSource K SB V)
  : option (MediaSource K SB V) :=
  match fst r with
  | Crashes _ => None
  | _ => Some (snd r)
  end.

Definition perform (c : Call V) (s : MediaSource K SB V)
  : option (MediaSource K SB V) :=
  match c with
  | JsAddSourceBuffer type => survives (AddSourceBuffer type s)
  | JsEndOfStream error => survives (EndOfStream error s)
  | JsSetDuration duration => survives (SetDuration duration s)
  | VideoOpenMediaSource video => survives (OpenMediaSource video s)
  | VideoCloseMediaSource => survives (CloseMediaSource s)
  | ControllerReadyStateChanged n => Some (OnReadyStateChanged n s)
  | ControllerPipelineStatusChanged n => Some (OnPipelineStatusChanged n s)
  | ControllerMediaError source error => Some (OnMediaError source error s)
  | ControllerWaitingForKey => Some (OnWaitingForKey s)
  | ControllerEncrypted t d => Some (OnEncrypted t d s)
  end.

Fixpoint run_calls (cs : list (Call V)) (s : MediaSource K SB V)
  : option (MediaSource K SB V) :=
  match cs with
  | [] => Some s
  | c :: rest =>
      match perform c s with
      | Some s' => run_calls rest s'
      | None => None
      end
  end.

End Calls.

(** The events scheduled on the MediaSource itself, oldest first. *)
Fixpoint own_events {SB V : Type} (es : list (Effect SB V))
  : list EventType :=
  match es with
  | [] => []
  | ScheduleEvent e :: rest => e :: own_events rest
  | _ :: rest => own_events rest
  end.

(** The ready state an event announces. *)
Definition announce (st : MediaSourceReadyState) (e : EventType)
  : MediaSourceReadyState :=
  match e with
  | SourceOpen => OPEN
  | SourceEnded => ENDED
  | SourceClose => CLOSED
  | _ => st
  end.

Definition announced (es : list EventType) : MediaSourceReadyState :=
  fold_left announce es CLOSED.

(** Whether event [e] may come when the last announced state is [st]:
    sourceopen from closed, sourceended from open, sourceclose from open or
    ended; where nothing checks the attachment ([checked] false), sourceopen
    and sourceclose from any state. *)
Definition follows (checked : bool) (st : MediaSourceReadyState)
    (e : EventType) : bool :=
  match e, st with
  | SourceOpen, CLOSED => true
  | SourceOpen, _ => negb checked
  | SourceEnded, OPEN => true
  | SourceEnded, _ => false
  | SourceClose, CLOSED => negb checked
  | SourceClose, _ => true
  | _, _ => false
  end.

Fixpoint in_order (checked : bool) (st : MediaSourceReadyState)
    (es : list EventType) : bool :=
  match es with
  | [] => true
  | e :: rest => follows checked st e && in_order checked (announce st e) rest
  end.

(** What one call can do to the ready state, the video element and the
    events of the object. *)
Inductive Transition {K SB V : Type} (checked : bool)
    (s s' : MediaSource K SB V) : Prop :=
| quiet :
    ready_state s' = ready_state s ->
    video_element_ s' = video_element_ s ->
    own_events (effects s') = own_events (effects s) ->
    Transition checked s s'
| opens :
    (checked = true -> ready_state s = CLOSED) ->
    ready_state s' = OPEN ->
    own_events (effects s') = (own_events (effects s) ++ [SourceOpen])%list ->
    Transition checked s s'
| ends :
    ready_state s = OPEN ->
    ready_state s' = ENDED ->
    video_element_ s' = video_element_ s ->
    own_events (effects s') = (own_events (effects s) ++ [SourceEnded])%list ->
    Transition checked s s'
| closes :
    (checked = true -> ready_state s <> CLOSED) ->
    ready_state s' = CLOSED ->
    video_element_ s' = None ->
    own_events (effects s') = (own_events (effects s) ++ [SourceClose])%list ->
    Transition checked s s'.

(** The invariants of the life cycle: the ready state is the one the last
    event announced, the events came in order, and a closed MediaSource
    has no video element. *)
Definition life_cycle {K SB V : Type} (checked : bool)
    (s : MediaSource K SB V) : Prop :=
  ready_state s = announced (own_events (effects s))
  /\ in_order checked CLOSED (own_events (effects s)) = true
  /\ (ready_state s = CLOSED -> video_element_ s = None).

End mse.

(** ** Document ([src/js/dom/document.cc]) *)

Module dom.

Section Document.
Context {Node : Type} (is_element : Node -> bool).

(** [DocumentElement], over the document's [child_nodes()]. *)
Fixpoint DocumentElement (child_nodes : list Node) : option Node :=
  match child_nodes with
  | [] => None
  | child :: rest =>
      if is_element child then Some child else DocumentElement rest
  end.

End Document.

End dom.

(** A controller that accepts two types and logs what it is asked. *)
#[local] Instance logging_controller : mse.VideoController (list string) := {
  mse.AddSource k type :=
    if String.eqb type "video/mp4"%string then
      ((k ++ ["AddSource"%string])%list, mse.StatusSuccess, mse.Known 1)
    else if String.eqb type "audio/mp4"%string then
      ((k ++ ["AddSource"%string])%list, mse.StatusSuccess, mse.Known 0)
    else ((k ++ ["AddSource"%string])%list, mse.StatusNotSupported, mse.Unknown);
  mse.controller_EndOfStream k := (k ++ ["EndOfStream"%string])%list;
  mse.Reset k := (k ++ ["Reset"%string])%list;
  mse.pipeline_GetDuration k := S754_zero false;
  mse.pipeline_SetDuration k d := (k ++ ["SetDuration"%string])%list
}.

(** Source buffers as their type and their [updating] flag. *)
#[local] Instance flag_buffers : mse.SourceBufferClass (mse.SourceType * bool) := {
  mse.updating b := snd b;
  mse.new_SourceBuffer t := (t, false)
}.

(** A container that hands out its entries in the order of the list. *)
#[local] Instance listed_order
  : mse.UnorderedMap (mse.SourceType * bool) := {
  mse.iteration_order m := m;
  mse.iteration_order_entries m := Permutation_refl m
}.

Definition fresh_source : mse.MediaSource (list string) (mse.SourceType * bool) N :=
  mse.new_MediaSource "blob:0"%string [].

Definition sample_calls : list (mse.Call N) :=
  [mse.VideoOpenMediaSource (Some 7%N); mse.JsAddSourceBuffer "video/mp4"%string;
   mse.ControllerWaitingForKey; mse.JsEndOfStream None;
   mse.VideoCloseMediaSource].

(** * Properties *)

(** ** Bytes and big-endian values *)

Lemma byte_val_range (b : byte) : 0 <= byte_val b < 256.
Proof.
  unfold byte_val. pose proof (Byte.to_N_bounded b). lia.
Qed.

Lemma byte_val_of (z : Z) : byte_val (byte_of z) = z mod 256.
Proof.
  unfold byte_val, byte_of.
  assert (Hr : 0 <= z mod 256 < 256) by (apply Z.mod_pos_bound; lia).
  destruct (Byte.of_N (Z.to_N (z mod 256))) as [b|] eqn:E.
  - apply Byte.to_of_N in E. rewrite E. lia.
  - apply Byte.of_N_None_iff in E. lia.
Qed.

Lemma be_value_snoc (bs : list byte) (b : byte) :
  be_value (bs ++ [b]) = be_value bs * 256 + byte_val b.
Proof.
  unfold be_value. rewrite fold_left_app. reflexivity.
Qed.

Lemma be_value_app (a b : list byte) :
  be_value (a ++ b) = be_value a * 256 ^ Z.of_nat (length b) + be_value b.
Proof.
  induction b as [|x b IH] using rev_ind.
  - rewrite app_nil_r. cbn. lia.
  - rewrite app_assoc, !be_value_snoc, IH, length_app. cbn [length].
    replace (Z.of_nat (length b + 1)) with (Z.of_nat (length b) + 1) by lia.
    rewrite Z.pow_add_r by lia. lia.
Qed.

Lemma be_value_range (bs : list byte) :
  0 <= be_value bs < 256 ^ Z.of_nat (length bs).
Proof.
  induction bs as [|x bs IH] using rev_ind.
  - cbn. lia.
  - rewrite be_value_snoc, length_app. cbn [length].
    replace (Z.of_nat (length bs + 1)) with (Z.of_nat (length bs) + 1) by lia.
    rewrite Z.pow_add_r by lia.
    pose proof (byte_val_range x). lia.
Qed.

Lemma be_bytes_length (n : nat) (z : Z) : length (be_bytes n z) = n.
Proof.
  revert z. induction n as [|n IH]; intros z; cbn.
  - reflexivity.
  - rewrite length_app, IH. cbn. lia.
Qed.

Lemma be_value_bytes (n : nat) (z : Z) :
  be_value (be_bytes n z) = z mod 256 ^ Z.of_nat n.
Proof.
  revert z. induction n as [|n IH]; intros z.
  - cbn. rewrite Z.mod_1_r. reflexivity.
  - cbn [be_bytes]. rewrite be_value_snoc, IH, byte_val_of.
    replace (Z.of_nat (S n)) with (1 + Z.of_nat n) by lia.
    rewrite Z.pow_add_r by lia. change (256 ^ 1) with 256.
    assert (Hp : 0 < 256 ^ Z.of_nat n) by (apply Z.pow_pos_nonneg; lia).
    rewrite (Z.rem_mul_r z 256 (256 ^ Z.of_nat n)) by lia. lia.
Qed.

Lemma ntohl_htonl (v : Z) : ntohl (htonl v) = u32 v.
Proof.
  unfold ntohl, htonl, u32. rewrite be_value_bytes. reflexivity.
Qed.

Lemma u32_range (z : Z) : 0 <= u32 z < 2 ^ 32.
Proof. unfold u32. apply Z.mod_pos_bound. lia. Qed.

Lemma u32_small (z : Z) : 0 <= z < 2 ^ 32 -> u32 z = z.
Proof. unfold u32. intros. apply Z.mod_small. lia. Qed.

Lemma size_t_small (z : Z) : 0 <= z < 2 ^ 64 -> size_t z = z.
Proof. unfold size_t. intros. apply Z.mod_small. lia. Qed.

(** ** IncrementIv: a 64-bit big-endian add on [iv[8..16]] *)

Lemma list_16 {A} (l : list A) :
  length l = 16%nat ->
  exists a h lo, l = a ++ h ++ lo /\ length a = 8%nat /\ length h = 4%nat
                 /\ length lo = 4%nat.
Proof.
  intros H.
  exists (firstn 8 l), (firstn 4 (skipn 8 l)), (skipn 12 l).
  repeat split.
  - rewrite <- (firstn_skipn 8 l) at 1. f_equal.
    rewrite <- (firstn_skipn 4 (skipn 8 l)) at 1. f_equal.
    rewrite skipn_skipn. reflexivity.
  - rewrite length_firstn. lia.
  - rewrite length_firstn, length_skipn. lia.
  - rewrite length_skipn. lia.
Qed.

Lemma firstn_exact {A} (n : nat) (a b : list A) :
  length a = n -> firstn n (a ++ b) = a.
Proof.
  intros <-. rewrite firstn_app, Nat.sub_diag, firstn_all. cbn. apply app_nil_r.
Qed.

Lemma skipn_exact {A} (n : nat) (a b : list A) :
  length a = n -> skipn n (a ++ b) = b.
Proof.
  intros <-. rewrite skipn_app, Nat.sub_diag, skipn_all. reflexivity.
Qed.

Lemma counter_0 (a h lo : list byte) :
  length a = 8%nat -> length h = 4%nat -> length lo = 4%nat ->
  counter (a ++ h ++ lo) 0 = h.
Proof.
  intros Ha Hh Hl. unfold counter, load. change (Z.to_nat (8 + 4 * 0)) with 8%nat.
  change (Z.to_nat 4) with 4%nat.
  rewrite (skipn_exact 8) by assumption. apply firstn_exact. assumption.
Qed.

Lemma counter_1 (a h lo : list byte) :
  length a = 8%nat -> length h = 4%nat -> length lo = 4%nat ->
  counter (a ++ h ++ lo) 1 = lo.
Proof.
  intros Ha Hh Hl. unfold counter, load.
  change (Z.to_nat (8 + 4 * 1)) with 12%nat. change (Z.to_nat 4) with 4%nat.
  rewrite app_assoc, (skipn_exact 12) by (rewrite length_app; lia).
  apply firstn_all2. lia.
Qed.

Lemma set_counter_0 (a h lo w : list byte) :
  length a = 8%nat -> length h = 4%nat -> length lo = 4%nat ->
  set_counter (a ++ h ++ lo) 0 w = a ++ w ++ lo.
Proof.
  intros Ha Hh Hl. unfold set_counter. change (Z.to_nat (8 + 4 * 0)) with 8%nat.
  rewrite (firstn_exact 8) by assumption. f_equal. f_equal.
  change (8 + 4)%nat with 12%nat.
  rewrite app_assoc. apply skipn_exact. rewrite length_app. lia.
Qed.

Lemma set_counter_1 (a h lo w : list byte) :
  length a = 8%nat -> length h = 4%nat -> length lo = 4%nat ->
  set_counter (a ++ h ++ lo) 1 w = a ++ h ++ w.
Proof.
  intros Ha Hh Hl. unfold set_counter. change (Z.to_nat (8 + 4 * 1)) with 12%nat.
  rewrite (app_assoc a h lo), (firstn_exact 12) by (rewrite length_app; lia).
  rewrite <- app_assoc. f_equal. f_equal.
  rewrite skipn_all2 by (rewrite !length_app; lia). apply app_nil_r.
Qed.

Lemma IncrementIv_16 {B : Build} (count : Z) (iv : list byte) :
  length iv = 16%nat -> 0 <= count < 2 ^ 32 ->
  exists iv',
    IncrementIv count iv = inr iv' /\ length iv' = 16%nat
    /\ firstn 8 iv' = firstn 8 iv
    /\ iv_counter iv' = (iv_counter iv + count) mod 2 ^ 64.
Proof.
  intros Hlen Hc.
  destruct (list_16 iv Hlen) as (a & h & lo & -> & Ha & Hh & Hl).
  unfold IncrementIv, dcheck_fails. rewrite Hlen. cbn [Nat.eqb negb Nat.leb Nat.ltb].
  rewrite andb_false_r.
  rewrite counter_0, counter_1 by assumption.
  rewrite (u32_small (2 ^ 32 - 1 - count)) by lia.
  pose proof (be_value_range h) as Rh. pose proof (be_value_range lo) as Rl.
  rewrite Hh in Rh. rewrite Hl in Rl. change (256 ^ Z.of_nat 4) with (2 ^ 32) in *.
  assert (Hold : iv_counter (a ++ h ++ lo) = ntohl h * 2 ^ 32 + ntohl lo).
  { unfold iv_counter, ntohl. rewrite skipn_app, Ha, Nat.sub_diag, skipn_all2 by lia.
    cbn [app skipn]. rewrite be_value_app, Hl. reflexivity. }
  assert (Hnew : forall h' w, length h' = 4%nat -> length w = 4%nat ->
            iv_counter (a ++ h' ++ w) = ntohl h' * 2 ^ 32 + ntohl w).
  { intros h' w Hh' Hw. unfold iv_counter, ntohl.
    rewrite skipn_app, Ha, Nat.sub_diag, skipn_all2 by lia.
    cbn [app skipn]. rewrite be_value_app, Hw. reflexivity. }
  assert (Hf : forall h' w, firstn 8 (a ++ h' ++ w) = firstn 8 (a ++ h ++ lo)).
  { intros. rewrite !firstn_app, Ha, Nat.sub_diag. reflexivity. }
  unfold ntohl in *.
  destruct (2 ^ 32 - 1 - count <? be_value lo) eqn:E.
  - apply Z.ltb_lt in E.
    rewrite set_counter_0 by assumption.
    rewrite counter_1, set_counter_1 by (try assumption; apply be_bytes_length).
    eexists. split; [reflexivity|]. split; [|split].
    + rewrite !length_app. unfold htonl. rewrite !be_bytes_length. lia.
    + apply Hf.
    + rewrite Hnew by apply be_bytes_length. rewrite Hold.
      fold (ntohl (htonl (u32 (be_value h + 1)))). fold (ntohl (htonl (u32 (be_value lo + count)))).
      rewrite !ntohl_htonl. unfold u32.
      set (H := be_value h) in *. set (L := be_value lo) in *.
      clearbody H L. clear - Rh Rl E Hc.
      rewrite !Z.mod_mod by lia.
      Z.div_mod_to_equations. lia.
  - apply Z.ltb_ge in E.
    rewrite counter_1, set_counter_1 by assumption.
    eexists. split; [reflexivity|]. split; [|split].
    + rewrite !length_app. unfold htonl. rewrite !be_bytes_length. lia.
    + apply Hf.
    + rewrite Hnew by (try assumption; apply be_bytes_length). rewrite Hold.
      fold (ntohl (htonl (u32 (be_value lo + count)))).
      rewrite !ntohl_htonl. unfold u32.
      set (H := be_value h) in *. set (L := be_value lo) in *.
      clearbody H L. clear - Rh Rl E Hc.
      rewrite Z.mod_mod by lia.
      Z.div_mod_to_equations. lia.
Qed.

(** ** Buffers and the machine *)

Lemma load_length (buf : list byte) (pos len : Z) :
  0 <= pos -> 0 <= len -> pos + len <= Z.of_nat (length buf) ->
  Z.of_nat (length (load buf pos len)) = len.
Proof.
  intros. unfold load. rewrite length_firstn, length_skipn. lia.
Qed.

Lemma load_length_le (buf : list byte) (pos len : Z) :
  0 <= len -> Z.of_nat (length (load buf pos len)) <= len.
Proof.
  intros. unfold load. rewrite length_firstn. lia.
Qed.

Lemma store_length (buf : list byte) (pos : Z) (bs d : list byte) :
  store buf pos bs = Some d -> length d = length buf.
Proof.
  unfold store.
  destruct ((0 <=? pos) && (pos + Z.of_nat (length bs) <=? Z.of_nat (length buf))) eqn:E;
    [|discriminate].
  intros [= <-]. apply andb_prop in E as [E1 E2].
  apply Z.leb_le in E1, E2.
  rewrite !length_app, length_firstn, length_skipn. lia.
Qed.

Lemma store_in_bounds (buf : list byte) (pos : Z) (bs : list byte) :
  0 <= pos -> pos + Z.of_nat (length bs) <= Z.of_nat (length buf) ->
  exists d, store buf pos bs = Some d.
Proof.
  intros H1 H2. unfold store.
  apply Z.leb_le in H1, H2. rewrite H1, H2. cbn. eauto.
Qed.

Lemma store_out_of_bounds (buf : list byte) (pos : Z) (bs : list byte) :
  store buf pos bs = None ->
  ~ (0 <= pos /\ pos + Z.of_nat (length bs) <= Z.of_nat (length buf)).
Proof.
  intros E [H1 H2]. destruct (store_in_bounds buf pos bs H1 H2) as [d Hd].
  congruence.
Qed.

Section Machine.
Context {C : Type} {B : Build} {I : eme.Implementation C}.

Lemma memcpy_dest_Some (m m1 : Machine C) (pos : Z) (bs : list byte) :
  memcpy_dest m pos bs = Some m1 ->
  this m1 = this m /\ cdm m1 = cdm m /\ cdm_calls m1 = cdm_calls m
  /\ length (pkt_data (dest_packet m1)) = length (pkt_data (dest_packet m)).
Proof.
  unfold memcpy_dest.
  destruct (store (pkt_data (dest_packet m)) pos bs) as [d|] eqn:E; [|discriminate].
  intros [= <-]. cbn. repeat split. eapply store_length; eassumption.
Qed.

Lemma cdm_Decrypt_Some (m m2 : Machine C) (call : eme.DecryptCall) (pos : Z)
    (st : eme.DecryptStatus.DecryptStatus) :
  cdm_Decrypt m call pos = Some (st, m2) ->
  this m2 = this m /\ cdm_calls m2 = cdm_calls m ++ [call]
  /\ st = cdm_status (cdm m) call
  /\ length (pkt_data (dest_packet m2)) = length (pkt_data (dest_packet m)).
Proof.
  unfold cdm_Decrypt, cdm_status.
  destruct (eme.Decrypt (cdm m) call) as [[c' s] out].
  destruct (store _ pos _) as [d|] eqn:E; [|discriminate].
  intros [= <- <-]. cbn. repeat split. eapply store_length; eassumption.
Qed.

Lemma cdm_Decrypt_None (m : Machine C) (call : eme.DecryptCall) (pos : Z) :
  cdm_Decrypt m call pos = None ->
  ~ (0 <= pos
     /\ pos + Z.of_nat (length (eme.call_data call))
        <= Z.of_nat (length (pkt_data (dest_packet m)))).
Proof.
  unfold cdm_Decrypt.
  destruct (eme.Decrypt (cdm m) call) as [[c' s] out].
  destruct (store _ pos _) as [d|] eqn:E; [discriminate|].
  intros _ [H1 H2]. apply store_out_of_bounds in E. apply E. split; [assumption|].
  rewrite length_firstn. lia.
Qed.

Lemma decrypt_status_error_None (st : eme.DecryptStatus.DecryptStatus) :
  decrypt_status_error st = None <-> st = eme.DecryptStatus.Success.
Proof. destruct st; cbn; split; congruence. Qed.

Variables (enc_info : AVEncryptionInfo) (sch : eme.EncryptionScheme).

(** Every iteration goes one of the five ways of [StepView]. *)
Lemma subsample_step_view (sub : AVSubsampleEncryptionInfo) (l : Locals)
    (m : Machine C) :
  StepView enc_info sch sub l m (subsample_step enc_info sch sub l m).
Proof.
  unfold subsample_step.
  set (clear := Z.of_N (bytes_of_clear_data sub)).
  set (p := Z.of_N (bytes_of_protected_data sub)).
  destruct ((total_size l <? clear) || (total_size l - clear <? p)) eqn:Eb.
  { apply SV_overflow. unfold fits. fold clear p.
    apply orb_true_iff in Eb as [Eb|Eb]; apply Z.ltb_lt in Eb; lia. }
  apply orb_false_iff in Eb as [Eb1 Eb2]. apply Z.ltb_ge in Eb1, Eb2.
  assert (Hfits : fits sub l) by (unfold fits; fold clear p; lia).
  destruct (memcpy_dest m (dest l) _) as [m1|] eqn:Ec.
  2:{ apply SV_out_of_bounds; try easy.
      unfold memcpy_dest in Ec.
      destruct (store _ _ _) eqn:Es; [discriminate|].
      apply store_out_of_bounds in Es. intros [H1 H2]. apply Es. split; [assumption|].
      pose proof (load_length_le (pkt_data (packet_ (this m))) (src l) clear).
      fold clear p in H2. lia. }
  apply memcpy_dest_Some in Ec as (Ht1 & Hc1 & Hl1 & Hd1).
  destruct (p =? 0) eqn:Ep.
  { apply Z.eqb_eq in Ep. apply SV_clear_only; try assumption. lia. }
  apply Z.eqb_neq in Ep. assert (Hp : 0 < p) by lia.
  replace (make_call enc_info sch (block_offset (advance l clear))
             (cur_iv (advance l clear))
             (load (pkt_data (packet_ (this m))) (src (advance l clear)) p))
    with (step_call enc_info sch sub l m) by reflexivity.
  destruct (cdm_Decrypt m1 _ _) as [[st m2]|] eqn:Ed.
  2:{ apply SV_out_of_bounds; try assumption.
      apply cdm_Decrypt_None in Ed. intros [H1 H2]. apply Ed. cbn [dest advance].
      split; [lia|]. rewrite Hd1.
      pose proof (load_length_le (pkt_data (packet_ (this m)))
                    (src l + clear) p).
      cbn [step_call make_call eme.call_data]. fold clear p in H2 |- *. lia. }
  apply cdm_Decrypt_Some in Ed as (Ht2 & Hl2 & Hst & Hd2).
  rewrite Hc1 in Hst.
  destruct (decrypt_status_error st) as [err|] eqn:Ee.
  - apply SV_cdm_error; try assumption; try congruence.
  - apply decrypt_status_error_None in Ee.
    apply SV_cdm_success; try assumption; try congruence.
Qed.

End Machine.


(** ** The IV update *)

Section UpdateIv.
Context {B : Build}.
Variable enc_info : AVEncryptionInfo.

Lemma ctr_increment_range (bo p inc : Z) :
  ctr_increment enc_info bo p = inr inc -> 0 <= inc < 2 ^ 32.
Proof.
  unfold ctr_increment.
  destruct (N.eqb _ _); [intros [= <-]; apply u32_range|].
  destruct (_ =? 0); [discriminate|].
  destruct (_ <=? _); intros [= <-]; apply u32_range.
Qed.

Lemma ctr_increment_cenc (bo p : Z) :
  scheme enc_info = kCencScheme ->
  0 <= bo < 16 -> 0 <= p < 2 ^ 32 ->
  ctr_increment enc_info bo p = inr ((bo + p) / 16).
Proof.
  intros Hs Hbo Hp. unfold ctr_increment. rewrite Hs, N.eqb_refl.
  unfold kAesBlockSize. rewrite size_t_small by lia.
  rewrite u32_small; [reflexivity|].
  split; [apply Z.div_pos; lia|].
  apply Z.div_lt_upper_bound; lia.
Qed.

Lemma u32_size_t (x y : Z) : u32 (u32 (size_t x) + y) = u32 (x + y).
Proof.
  unfold u32, size_t. rewrite Zplus_mod_idemp_l.
  change (2 ^ 64) with (2 ^ 32 * 2 ^ 32).
  rewrite (Z.rem_mul_r x (2 ^ 32) (2 ^ 32)) by lia.
  rewrite <- Z.add_assoc, (Z.add_comm (2 ^ 32 * _)), Z.add_assoc.
  rewrite Z.mul_comm, Z.mod_add by lia.
  rewrite Zplus_mod_idemp_l. reflexivity.
Qed.

Lemma ctr_increment_cens (bo p : Z) :
  scheme enc_info = kCensScheme ->
  pattern_size enc_info <> 0 ->
  ctr_increment enc_info bo p
  = inr (u32 (cens_increment (Z.of_N (crypt_byte_block enc_info))
                (pattern_size enc_info) p)).
Proof.
  intros Hs Hps. unfold ctr_increment, cens_increment. rewrite Hs.
  change (N.eqb kCensScheme kCencScheme) with false. cbv iota.
  fold (pattern_size enc_info). unfold kAesBlockSize.
  destruct (pattern_size enc_info =? 0) eqn:E; [apply Z.eqb_eq in E; contradiction|].
  destruct (_ <=? _); f_equal.
  - apply u32_size_t.
  - rewrite <- u32_size_t, Z.add_0_r.
    unfold u32. rewrite Z.mod_mod by lia. reflexivity.
Qed.

Lemma ctr_increment_cens_zero (bo p : Z) :
  scheme enc_info = kCensScheme ->
  pattern_size enc_info = 0 ->
  ctr_increment enc_info bo p = inl DivisionByZero.
Proof.
  intros Hs Hps. unfold ctr_increment. rewrite Hs.
  change (N.eqb kCensScheme kCencScheme) with false. cbv iota.
  fold (pattern_size enc_info). rewrite Hps. reflexivity.
Qed.

(** Without overflow of the 32-bit sum, [pattern_size] is the sum and the
    increment needs no reduction. *)
Lemma cens_increment_exact (p : Z) :
  0 <= p < 2 ^ 32 ->
  Z.of_N (crypt_byte_block enc_info) + Z.of_N (skip_byte_block enc_info) < 2 ^ 32 ->
  pattern_size enc_info
  = Z.of_N (crypt_byte_block enc_info) + Z.of_N (skip_byte_block enc_info)
  /\ (pattern_size enc_info <> 0 ->
      u32 (cens_increment (Z.of_N (crypt_byte_block enc_info))
             (pattern_size enc_info) p)
      = cens_increment (Z.of_N (crypt_byte_block enc_info))
          (pattern_size enc_info) p).
Proof.
  intros Hp Hsum. unfold cens_increment, pattern_size in *.
  set (c := Z.of_N (crypt_byte_block enc_info)) in *.
  set (s := Z.of_N (skip_byte_block enc_info)) in *.
  assert (Hc : 0 <= c) by (subst c; lia).
  assert (Hs : 0 <= s) by (subst s; lia).
  rewrite (u32_small (c + s)) in * by lia.
  split; [reflexivity|]. intros Hps.
  set (n := p / 16).
  assert (Hn : 0 <= n < 2 ^ 28).
  { subst n. split; [apply Z.div_pos; lia|]. apply Z.div_lt_upper_bound; lia. }
  assert (Hq : 0 <= n / (c + s)) by (apply Z.div_pos; lia).
  assert (Hr : 0 <= n mod (c + s) < c + s) by (apply Z.mod_pos_bound; lia).
  assert (Hdm : n = (c + s) * (n / (c + s)) + n mod (c + s))
    by (apply Z.div_mod; lia).
  assert (Hqc : 0 <= n / (c + s) * c <= n / (c + s) * (c + s)) by nia.
  assert (Hb : n / (c + s) * (c + s) <= n) by nia.
  destruct (c <=? n mod (c + s)) eqn:E.
  - apply Z.leb_le in E. apply u32_small. nia.
  - apply u32_small. lia.
Qed.

Lemma update_iv_ctr (packet : AVPacket) (p : Z) (l : Locals) :
  scheme enc_info = kCencScheme \/ scheme enc_info = kCensScheme ->
  update_iv enc_info packet p l
  = match ctr_increment enc_info (block_offset l) p with
    | inl f => Exit (Abort f)
    | inr increment =>
        match IncrementIv increment (cur_iv l) with
        | inl f => Exit (Abort f)
        | inr iv' =>
            Next {| src := src l + p; dest := dest l + p;
                    total_size := total_size l - p;
                    block_offset := size_t (block_offset l + p) mod 16;
                    cur_iv := iv' |}
        end
    end.
Proof.
  intros [Hs|Hs]; unfold update_iv; rewrite Hs; reflexivity.
Qed.

Lemma update_iv_cbc1 (packet : AVPacket) (p : Z) (l : Locals) :
  scheme enc_info = kCbc1Scheme ->
  update_iv enc_info packet p l
  = if (p <? 16) || negb (p mod 16 =? 0)
    then Exit (Return Status.InvalidContainerData)
    else Next {| src := src l + p; dest := dest l + p;
                 total_size := total_size l - p;
                 block_offset := block_offset l;
                 cur_iv := load (pkt_data packet) (src l + p - 16) 16 |}.
Proof.
  intros Hs. unfold update_iv. rewrite Hs. reflexivity.
Qed.

Lemma update_iv_other (packet : AVPacket) (p : Z) (l : Locals) :
  scheme enc_info <> kCencScheme -> scheme enc_info <> kCensScheme ->
  scheme enc_info <> kCbc1Scheme ->
  update_iv enc_info packet p l = Next (advance l p).
Proof.
  intros H1 H2 H3. unfold update_iv.
  apply N.eqb_neq in H1, H2, H3. rewrite H1, H2, H3. reflexivity.
Qed.

(** Whatever the scheme, a completed update has moved the cursors over the
    protected bytes and kept the block offset below the block size. *)
Lemma update_iv_Next (packet : AVPacket) (p : Z) (l l' : Locals) :
  update_iv enc_info packet p l = Next l' ->
  src l' = src l + p /\ dest l' = dest l + p
  /\ total_size l' = total_size l - p
  /\ (0 <= block_offset l < 16 -> 0 <= block_offset l' < 16).
Proof.
  unfold update_iv.
  destruct (N.eqb (scheme enc_info) kCencScheme || N.eqb (scheme enc_info) kCensScheme).
  - destruct (ctr_increment _ _ _) as [f|inc]; [discriminate|].
    destruct (IncrementIv _ _) as [f|iv']; [discriminate|].
    intros [= <-]. cbn. repeat split; try lia;
      unfold kAesBlockSize; apply Z.mod_pos_bound; lia.
  - destruct (N.eqb (scheme enc_info) kCbc1Scheme).
    + destruct (_ || _); [discriminate|].
      intros [= <-]. cbn. repeat split; lia.
    + intros [= <-]. cbn. repeat split; lia.
Qed.

(** A completed update leaves a 16-byte IV when it found one and the
    protected bytes lie inside the payload. *)
Lemma update_iv_length (packet : AVPacket) (p : Z) (l l' : Locals) :
  update_iv enc_info packet p l = Next l' ->
  length (cur_iv l) = 16%nat ->
  0 <= src l -> src l + p <= Z.of_nat (length (pkt_data packet)) ->
  length (cur_iv l') = 16%nat.
Proof.
  unfold update_iv. intros H Hlen Hsrc Hend.
  destruct (N.eqb (scheme enc_info) kCencScheme || N.eqb (scheme enc_info) kCensScheme).
  - destruct (ctr_increment _ _ _) as [f|inc] eqn:Ei; [discriminate|].
    apply ctr_increment_range in Ei.
    destruct (IncrementIv_16 inc (cur_iv l) Hlen Ei) as (iv' & E & Hl' & _).
    rewrite E in H. injection H as <-. exact Hl'.
  - destruct (N.eqb (scheme enc_info) kCbc1Scheme).
    + destruct (_ || _) eqn:Eb; [discriminate|].
      apply orb_false_iff in Eb as [Eb _]. apply Z.ltb_ge in Eb.
      unfold kAesBlockSize in *.
      injection H as <-. cbn [cur_iv].
      apply Nat2Z.inj. apply load_length; lia.
    + injection H as <-. exact Hlen.
Qed.

End UpdateIv.


(** ** The walk *)

Section WalkLemmas.
Context {C : Type} {B : Build} {I : eme.Implementation C}.
Variables (enc_info : AVEncryptionInfo) (sch : eme.EncryptionScheme).

Lemma walk_app (pre post : list AVSubsampleEncryptionInfo) (l : Locals)
    (m : Machine C) :
  walk enc_info sch (pre ++ post) l m
  = match walk enc_info sch pre l m with
    | (Next l', m') => walk enc_info sch post l' m'
    | (Exit o, m') => (Exit o, m')
    end.
Proof.
  revert l m. induction pre as [|sub pre IH]; intros l m; cbn.
  - reflexivity.
  - destruct (subsample_step enc_info sch sub l m) as [[l'|o] m']; auto.
Qed.

(** An iteration leaves the frame alone. *)
Lemma subsample_step_this (sub : AVSubsampleEncryptionInfo) (l : Locals)
    (m : Machine C) :
  this (snd (subsample_step enc_info sch sub l m)) = this m.
Proof.
  destruct (subsample_step_view enc_info sch sub l m); cbn; congruence.
Qed.

Lemma walk_this (subs : list AVSubsampleEncryptionInfo) (l : Locals)
    (m : Machine C) :
  this (snd (walk enc_info sch subs l m)) = this m.
Proof.
  revert l m. induction subs as [|sub subs IH]; intros l m; cbn.
  - reflexivity.
  - pose proof (subsample_step_this sub l m) as Hs.
    destruct (subsample_step enc_info sch sub l m) as [[l'|o] m']; cbn in *.
    + rewrite IH. exact Hs.
    + exact Hs.
Qed.

(** An iteration that completes keeps the invariant. *)
Lemma subsample_step_inv (m0 : Machine C) (sub : AVSubsampleEncryptionInfo)
    (l l' : Locals) (m m' : Machine C) :
  walk_inv m0 l m ->
  subsample_step enc_info sch sub l m = (Next l', m') ->
  walk_inv m0 l' m'
  /\ src l' = src l + Z.of_N (bytes_of_clear_data sub)
              + Z.of_N (bytes_of_protected_data sub).
Proof.
  intros (Ht & Hd & Hds & Hs & Htot & Hsum & Hbo) E.
  pose proof (subsample_step_view enc_info sch sub l m) as V.
  rewrite E in V. unfold walk_inv.
  inversion V; subst; unfold fits in *.
  - cbn. repeat split; try congruence; try lia.
  - match goal with
    | H : update_iv _ _ _ _ = Next _ |- _ =>
        apply update_iv_Next in H as (E1 & E2 & E3 & E4)
    end.
    cbn in E1, E2, E3, E4. repeat split; try congruence; try lia.
Qed.

Lemma walk_Next_inv (m0 : Machine C) (subs : list AVSubsampleEncryptionInfo)
    (l l' : Locals) (m m' : Machine C) :
  walk_inv m0 l m ->
  walk enc_info sch subs l m = (Next l', m') ->
  walk_inv m0 l' m' /\ src l' = src l + subsamples_size subs.
Proof.
  revert l m. induction subs as [|sub subs IH]; intros l m Hinv E; cbn in E.
  - injection E as <- <-. split; [assumption|]. cbn. lia.
  - destruct (subsample_step enc_info sch sub l m) as [[l1|o] m1] eqn:Es;
      [|discriminate].
    destruct (subsample_step_inv m0 sub l l1 m m1 Hinv Es) as [Hinv1 Hsrc1].
    destruct (IH l1 m1 Hinv1 E) as [Hinv' Hsrc']. split; [assumption|].
    cbn [subsamples_size fold_right]. fold (subsamples_size subs). lia.
Qed.

Lemma init_inv (m : Machine C) :
  walk_inv m (init_locals enc_info (packet_ (this m))) m.
Proof.
  unfold walk_inv, init_locals. cbn. repeat split; lia.
Qed.

End WalkLemmas.


(** ** Entering [Decrypt] *)

Section DecryptLemmas.
Context {C : Type} {B : Build} {L : LibAvUtil} {I : eme.Implementation C}.

Lemma decoded_info_is_encrypted (f : FFmpegEncodedFrame)
    (enc_info : AVEncryptionInfo) :
  decoded_info f = Some enc_info -> is_encrypted f = true.
Proof.
  unfold decoded_info, is_encrypted.
  destruct (av_packet_get_side_data _ _); [reflexivity|discriminate].
Qed.

(** With its preconditions met, [Decrypt] is [decrypt_info] on the decoded
    encryption info. *)
Lemma Decrypt_decoded (m : Machine C) (enc_info : AVEncryptionInfo) :
  dest_fits m ->
  decoded_info (this m) = Some enc_info ->
  Decrypt m = decrypt_info enc_info m.
Proof.
  intros Hfit Hdec. unfold Decrypt, dcheck_fails.
  apply Nat.leb_le in Hfit. rewrite Hfit.
  rewrite (decoded_info_is_encrypted _ _ Hdec). cbn [negb].
  rewrite !andb_false_r.
  unfold decoded_info in Hdec.
  destruct (av_packet_get_side_data _ _) as [sd|]; [|discriminate].
  rewrite Hdec. reflexivity.
Qed.

Lemma decrypt_info_this (enc_info : AVEncryptionInfo) (m : Machine C) :
  this (snd (decrypt_info enc_info m)) = this m.
Proof.
  unfold decrypt_info.
  destruct (select_scheme enc_info) as [err|sch]; [reflexivity|].
  destruct (subsamples enc_info) as [|sub subs] eqn:Es.
  - destruct (cdm_Decrypt m _ 0) as [[st m']|] eqn:Ed; [|reflexivity].
    apply cdm_Decrypt_Some in Ed as (Ht & _).
    destruct (decrypt_status_error st); exact Ht.
  - pose proof (walk_this enc_info sch (sub :: subs)
                  (init_locals enc_info (packet_ (this m))) m) as Hw.
    destruct (walk enc_info sch (sub :: subs) _ m) as [[l|o] m'].
    + destruct (negb _); exact Hw.
    + exact Hw.
Qed.

End DecryptLemmas.

(** ** The frame is never modified *)

(** C10.  [Decrypt] leaves the frame as it found it: whatever the build, the
    decoder and the CDM, and on every way out (each status and each abort),
    the frame of the final machine - payload, side data, timestamps and all
    other fields - is the frame of the initial machine. *)
Theorem Decrypt_frame_unchanged {C : Type} {B : Build} {L : LibAvUtil}
    {I : eme.Implementation C} (m : Machine C) :
  this (snd (Decrypt m)) = this m.
Proof.
  unfold Decrypt.
  destruct (dcheck_fails _); [reflexivity|].
  destruct (dcheck_fails _); [reflexivity|].
  destruct (av_packet_get_side_data _ _) as [sd|]; [|reflexivity].
  destruct (av_encryption_info_get_side_data sd) as [enc_info|]; [|reflexivity].
  apply decrypt_info_this.
Qed.

(** ** Whole-packet encryption *)

(** C8.  With an empty subsample table (and a frame that passed the scheme
    switch), [Decrypt] makes exactly one CDM call: block offset 0, the IV of
    the encryption info as it is, the whole payload as data.  Its result is
    the CDM status mapped by the switch: Success to Success, NotSupported to
    NotSupported, KeyNotFound to KeyNotFound, anything else to
    UnknownError. *)
Theorem Decrypt_empty_subsamples {C : Type} {B : Build} {L : LibAvUtil}
    {I : eme.Implementation C} (m : Machine C) (enc_info : AVEncryptionInfo)
    (sch : eme.EncryptionScheme) :
  dest_fits m ->
  decoded_info (this m) = Some enc_info ->
  select_scheme enc_info = inr sch ->
  subsamples enc_info = [] ->
  let call :=
    {| eme.call_scheme := sch;
       eme.call_pattern :=
         {| eme.pattern_crypt := crypt_byte_block enc_info;
            eme.pattern_skip := skip_byte_block enc_info |};
       eme.call_block_offset := 0;
       eme.call_key_id := key_id enc_info;
       eme.call_iv := iv enc_info;
       eme.call_data := pkt_data (packet_ (this m)) |} in
  cdm_calls (snd (Decrypt m)) = cdm_calls m ++ [call]
  /\ fst (Decrypt m)
     = Return match cdm_status (cdm m) call with
              | eme.DecryptStatus.Success => Status.Success
              | eme.DecryptStatus.NotSupported => Status.NotSupported
              | eme.DecryptStatus.KeyNotFound => Status.KeyNotFound
              | eme.DecryptStatus.OtherError => Status.UnknownError
              end.
Proof.
  intros Hfit Hdec Hsel Hsubs call.
  rewrite (Decrypt_decoded m enc_info Hfit Hdec).
  unfold decrypt_info. rewrite Hsel, Hsubs.
  change (make_call enc_info sch 0 (iv enc_info) (pkt_data (packet_ (this m))))
    with call.
  destruct (cdm_Decrypt m call 0) as [[st m']|] eqn:Ed.
  - apply cdm_Decrypt_Some in Ed as (_ & Hcalls & Hst & _). rewrite <- Hst.
    destruct st; cbn; auto.
  - apply cdm_Decrypt_None in Ed. exfalso. apply Ed.
    unfold dest_fits in Hfit. cbn. lia.
Qed.


Lemma Decrypt_empty_subsamples_witness :
  let enc_info := info_of kCbcsScheme 1 9 (repeat x00 16) [] in
  let m := machine_of [eme.DecryptStatus.OtherError] (ramp 32) in
  let r := @Decrypt _ release_build (decoder_of enc_info) scripted_cdm m in
  map (fun c => (eme.call_block_offset c, eme.call_iv c, eme.call_data c))
    (cdm_calls (snd r)) = [(0, repeat x00 16, ramp 32)]
  /\ fst r = Return Status.UnknownError.
Proof.
  intros enc_info m r.
  destruct (@Decrypt_empty_subsamples _ release_build (decoder_of enc_info)
              scripted_cdm m enc_info eme.AesCbc) as [Hc Hr].
  - unfold dest_fits. vm_compute. lia.
  - reflexivity.
  - reflexivity.
  - reflexivity.
  - split.
    + unfold r. rewrite Hc. reflexivity.
    + unfold r. rewrite Hr. reflexivity.
Defined.

(** ** The calls of a walk *)

Lemma calls_since_app {C : Type} (m m' : Machine C)
    (trace : list eme.DecryptCall) :
  cdm_calls m' = cdm_calls m ++ trace -> calls_since m m' = trace.
Proof.
  intros E. unfold calls_since. rewrite E. apply skipn_exact. reflexivity.
Qed.

Lemma calls_since_refl {C : Type} (m m' : Machine C) :
  cdm_calls m' = cdm_calls m -> calls_since m m' = [].
Proof.
  intros E. apply calls_since_app. rewrite app_nil_r. exact E.
Qed.

(** Case analysis on the first iteration of a walk: [V] is the view of the
    iteration, [Er] the equation for its result. *)
Ltac first_step V Er :=
  match goal with
  | |- context [subsample_step ?e ?s ?sub ?l ?m] =>
      pose proof (subsample_step_view e s sub l m) as V;
      remember (subsample_step e s sub l m) as r eqn:Er;
      symmetry in Er;
      destruct V
  end.

Section WalkCalls.
Context {C : Type} {B : Build} {I : eme.Implementation C}.
Variables (enc_info : AVEncryptionInfo) (sch : eme.EncryptionScheme).

(** A walk keeps a 16-byte IV: in the locals it hands on ... *)
Lemma walk_iv_length (m0 : Machine C) (subs : list AVSubsampleEncryptionInfo)
    (l l' : Locals) (m m' : Machine C) :
  walk_inv m0 l m ->
  length (cur_iv l) = 16%nat ->
  walk enc_info sch subs l m = (Next l', m') ->
  length (cur_iv l') = 16%nat.
Proof.
  revert l m. induction subs as [|sub subs IH]; intros l m Hinv Hlen E.
  - injection E as <- <-. exact Hlen.
  - cbn [walk] in E.
    destruct (subsample_step enc_info sch sub l m) as [[l1|o] m1] eqn:Es;
      [|discriminate].
    destruct (subsample_step_inv enc_info sch m0 sub l l1 m m1 Hinv Es)
      as [Hinv1 _].
    apply (IH l1 m1 Hinv1); [|exact E].
    pose proof (subsample_step_view enc_info sch sub l m) as V.
    rewrite Es in V. inversion V; subst.
    + exact Hlen.
    + destruct Hinv as (Ht & _ & _ & Hs & Htot & Hsum & _).
      match goal with
      | H : update_iv _ _ _ _ = Next _ |- _ =>
          apply update_iv_length in H; [exact H|exact Hlen|cbn; lia|]
      end.
      unfold fits in *. cbn. rewrite Ht. lia.
Qed.

(** ... and in every call it makes. *)
Lemma walk_calls_iv_length (m0 : Machine C)
    (subs : list AVSubsampleEncryptionInfo) (l : Locals) (m : Machine C) :
  walk_inv m0 l m ->
  length (cur_iv l) = 16%nat ->
  exists trace,
    cdm_calls (snd (walk enc_info sch subs l m)) = cdm_calls m ++ trace
    /\ Forall (fun c => length (eme.call_iv c) = 16%nat) trace.
Proof.
  revert l m. induction subs as [|sub subs IH]; intros l m Hinv Hlen.
  - exists []. cbn. rewrite app_nil_r. auto.
  - cbn [walk]. first_step V Er.
    + exists []. cbn. rewrite app_nil_r. auto.
    + exists []. cbn. rewrite app_nil_r. auto.
    + destruct (subsample_step_inv enc_info sch m0 sub l _ m m' Hinv Er)
        as [Hinv1 _].
      destruct (IH _ m' Hinv1 Hlen) as (trace & Ht & Hf).
      exists trace. split; [congruence|exact Hf].
    + exists [step_call enc_info sch sub l m]. cbn. split; [assumption|].
      constructor; [exact Hlen|constructor].
    + destruct (update_iv _ _ _ _) as [l1|o] eqn:Eu.
      * destruct (subsample_step_inv enc_info sch m0 sub l l1 m m' Hinv Er)
          as [Hinv1 _].
        assert (Hlen1 : length (cur_iv l1) = 16%nat).
        { eapply (walk_iv_length m0 [sub] l l1 m m' Hinv Hlen).
          cbn [walk]. rewrite Er. reflexivity. }
        destruct (IH l1 m' Hinv1 Hlen1) as (trace & Ht & Hf).
        exists (step_call enc_info sch sub l m :: trace). split.
        -- rewrite Ht. match goal with H : cdm_calls m' = _ |- _ => rewrite H end.
           rewrite <- app_assoc. reflexivity.
        -- constructor; [exact Hlen|exact Hf].
      * exists [step_call enc_info sch sub l m]. cbn. split; [assumption|].
        constructor; [exact Hlen|constructor].
Qed.

End WalkCalls.


(** ** The IV buffer *)

(** C1 (as amended).  The walk starts from an exact copy of the IV of the
    encryption info - [iv_size] bytes, nothing added.  When that IV has 16
    bytes, the IV buffer has 16 bytes at the head of every iteration of the
    walk and in every CDM call [Decrypt] makes. *)
Theorem iv_buffer_length {C : Type} {B : Build} {L : LibAvUtil}
    {I : eme.Implementation C} (m : Machine C) (enc_info : AVEncryptionInfo) :
  decoded_info (this m) = Some enc_info ->
  cur_iv (init_locals enc_info (packet_ (this m))) = iv enc_info
  /\ (length (iv enc_info) = 16%nat ->
      (forall sch pre post l m',
          subsamples enc_info = pre ++ post ->
          walk enc_info sch pre (init_locals enc_info (packet_ (this m))) m
          = (Next l, m') ->
          length (cur_iv l) = 16%nat)
      /\ Forall (fun c => length (eme.call_iv c) = 16%nat)
           (calls_since m (snd (Decrypt m)))).
Proof.
  intros Hdec. split; [reflexivity|]. intros Hlen. split.
  - intros sch pre post l m' _ Hw.
    exact (walk_iv_length enc_info sch m pre _ l m m' (init_inv enc_info m)
             Hlen Hw).
  - unfold Decrypt.
    destruct (dcheck_fails _); [rewrite calls_since_refl by reflexivity; constructor|].
    destruct (dcheck_fails _); [rewrite calls_since_refl by reflexivity; constructor|].
    unfold decoded_info in Hdec.
    destruct (av_packet_get_side_data _ _) as [sd|]; [|discriminate].
    rewrite Hdec. unfold decrypt_info.
    destruct (select_scheme enc_info) as [err|sch];
      [rewrite calls_since_refl by reflexivity; constructor|].
    destruct (subsamples enc_info) as [|sub subs] eqn:Es.
    + destruct (cdm_Decrypt m _ 0) as [[st m']|] eqn:Ed;
        [|rewrite calls_since_refl by reflexivity; constructor].
      apply cdm_Decrypt_Some in Ed as (_ & Hc & _).
      assert (Hcs : calls_since m m'
                    = [make_call enc_info sch 0 (iv enc_info)
                         (pkt_data (packet_ (this m)))])
        by (apply calls_since_app; exact Hc).
      destruct (decrypt_status_error st); cbn [snd]; rewrite Hcs;
        (constructor; [exact Hlen|constructor]).
    + destruct (walk_calls_iv_length enc_info sch m (sub :: subs)
                  (init_locals enc_info (packet_ (this m))) m
                  (init_inv enc_info m) Hlen) as (trace & Ht & Hf).
      destruct (walk enc_info sch (sub :: subs) _ m) as [[l|o] m'];
        cbn [snd] in Ht |- *.
      * destruct (negb _); cbn [snd];
          rewrite (calls_since_app _ _ _ Ht); exact Hf.
      * rewrite (calls_since_app _ _ _ Ht); exact Hf.
Qed.

Lemma iv_buffer_length_witness :
  let enc_info :=
    info_of kCencScheme 0 0 (repeat x00 16) [subsample 4 20; subsample 4 20] in
  let m := machine_of tt (ramp 48) in
  length (iv enc_info) = 16%nat
  /\ map (fun c => length (eme.call_iv c))
       (calls_since m
          (snd (@Decrypt unit debug_build (decoder_of enc_info) identity_cdm m)))
     = [16%nat; 16%nat]
  /\ Forall (fun c => length (eme.call_iv c) = 16%nat)
       (calls_since m
          (snd (@Decrypt unit debug_build (decoder_of enc_info) identity_cdm m))).
Proof.
  intros enc_info m.
  split; [reflexivity|]. split; [vm_compute; reflexivity|].
  apply (@iv_buffer_length unit debug_build (decoder_of enc_info) identity_cdm
           m enc_info); reflexivity.
Defined.

(** C1 as the specification words it does not hold: an 8-byte IV is not
    padded.  Under 'cbcs' the walk starts from the 8 bytes and the CDM is
    handed 8 bytes, with [Decrypt] returning Success. *)
Lemma iv_not_padded :
  let enc_info :=
    info_of kCbcsScheme 1 9 (repeat x00 8) [subsample 0 16] in
  let r := run debug_build identity_cdm tt enc_info (ramp 16) in
  fst r = Return Status.Success
  /\ ~ (cur_iv (init_locals enc_info (packet_ (frame_of (ramp 16))))
        = zero_pad 16 (iv enc_info))
  /\ ~ Forall (fun c => length (eme.call_iv c) = 16%nat) (cdm_calls (snd r)).
Proof.
  intros enc_info r. split; [vm_compute; reflexivity|]. split.
  - vm_compute. discriminate.
  - intros H. vm_compute in H. inversion H as [|c t Hc Ht]. discriminate.
Qed.


(** For the record: under a CTR scheme an 8-byte IV does not survive the
    first IV update.  The CDM is called with the 8 bytes, and [IncrementIv]
    then fails its size check (debug) or throws from [at(8)] (release). *)
Example short_iv_under_cenc :
  let enc_info :=
    info_of kCencScheme 0 0 (repeat x00 8) [subsample 0 16; subsample 0 16] in
  fst (run debug_build identity_cdm tt enc_info (ramp 32)) = Abort DcheckFailed
  /\ fst (run release_build identity_cdm tt enc_info (ramp 32))
     = Abort OutOfRange.
Proof. split; vm_compute; reflexivity. Qed.

(** ** One protected subsample *)

Section ProtectedStep.
Context {C : Type} {B : Build} {I : eme.Implementation C}.
Variables (enc_info : AVEncryptionInfo) (sch : eme.EncryptionScheme).


(** On a machine whose destination is large enough, an iteration that has a
    CDM call to make, and whose call succeeds, goes on to the IV update. *)
Lemma subsample_step_success (m0 : Machine C)
    (sub : AVSubsampleEncryptionInfo) (l : Locals) (m : Machine C) :
  dest_fits m0 ->
  walk_inv m0 l m ->
  fits sub l ->
  0 < Z.of_N (bytes_of_protected_data sub) ->
  cdm_status (cdm m) (step_call enc_info sch sub l m)
  = eme.DecryptStatus.Success ->
  exists m',
    subsample_step enc_info sch sub l m
    = (update_iv enc_info (packet_ (this m))
         (Z.of_N (bytes_of_protected_data sub))
         (advance l (Z.of_N (bytes_of_clear_data sub))), m')
    /\ cdm_calls m' = cdm_calls m ++ [step_call enc_info sch sub l m].
Proof.
  intros Hdest (Ht & Hd & Hds & Hs & Htot & Hsum & Hbo) Hfit Hp Hst.
  first_step V Er.
  - contradiction.
  - exfalso. unfold dest_fits, fits in *.
    match goal with H : ~ _ |- _ => apply H end. lia.
  - lia.
  - rewrite Hst in *. discriminate.
  - eauto.
Qed.

(** The same iteration when the CDM call fails. *)
Lemma subsample_step_error (m0 : Machine C)
    (sub : AVSubsampleEncryptionInfo) (l : Locals) (m : Machine C)
    (err : Status.Status) :
  dest_fits m0 ->
  walk_inv m0 l m ->
  fits sub l ->
  0 < Z.of_N (bytes_of_protected_data sub) ->
  decrypt_status_error (cdm_status (cdm m) (step_call enc_info sch sub l m))
  = Some err ->
  exists m',
    subsample_step enc_info sch sub l m = (Exit (Return err), m')
    /\ cdm_calls m' = cdm_calls m ++ [step_call enc_info sch sub l m].
Proof.
  intros Hdest (Ht & Hd & Hds & Hs & Htot & Hsum & Hbo) Hfit Hp Hst.
  first_step V Er.
  - contradiction.
  - exfalso. unfold dest_fits, fits in *.
    match goal with H : ~ _ |- _ => apply H end. lia.
  - lia.
  - match goal with
    | H : decrypt_status_error _ = Some _ |- _ =>
        rewrite Hst in H; injection H as <-
    end.
    eauto.
  - match goal with H : cdm_status _ _ = _ |- _ => rewrite H in Hst end.
    discriminate.
Qed.

End ProtectedStep.

(** ** Leaving the walk *)

Section DecryptWalk.
Context {C : Type} {B : Build} {I : eme.Implementation C}.
Variables (enc_info : AVEncryptionInfo) (sch : eme.EncryptionScheme).

(** With subsamples, [decrypt_info] is the walk followed by the check that
    nothing remains. *)
Lemma decrypt_info_walk (m : Machine C) :
  select_scheme enc_info = inr sch ->
  subsamples enc_info <> [] ->
  decrypt_info enc_info m
  = match walk enc_info sch (subsamples enc_info)
            (init_locals enc_info (packet_ (this m))) m with
    | (Exit o, m') => (o, m')
    | (Next l, m') =>
        if negb (total_size l =? 0)
        then (Return Status.InvalidContainerData, m')
        else (Return Status.Success, m')
    end.
Proof.
  intros Hsel Hne. unfold decrypt_info. rewrite Hsel.
  destruct (subsamples enc_info); [contradiction|reflexivity].
Qed.

(** A walk that leaves the function in the iteration after [pre]. *)
Lemma decrypt_info_exit (m m1 m2 : Machine C)
    (pre post : list AVSubsampleEncryptionInfo)
    (sub : AVSubsampleEncryptionInfo) (l : Locals) (o : Outcome) :
  select_scheme enc_info = inr sch ->
  subsamples enc_info = pre ++ sub :: post ->
  walk enc_info sch pre (init_locals enc_info (packet_ (this m))) m
  = (Next l, m1) ->
  subsample_step enc_info sch sub l m1 = (Exit o, m2) ->
  decrypt_info enc_info m = (o, m2).
Proof.
  intros Hsel Hsubs Hw Es.
  rewrite decrypt_info_walk by (try assumption; rewrite Hsubs; destruct pre; discriminate).
  rewrite Hsubs, walk_app, Hw. cbn [walk]. rewrite Es. reflexivity.
Qed.

End DecryptWalk.

(** ** The CTR schemes *)

Section CtrStep.
Context {C : Type} {B : Build} {L : LibAvUtil} {I : eme.Implementation C}.
Variables (enc_info : AVEncryptionInfo) (sch : eme.EncryptionScheme).

(** The calls of a walk come after the calls made before it, and the first
    of them carries the block offset and the IV the walk started with. *)
Lemma walk_first_call (subs : list AVSubsampleEncryptionInfo) (l : Locals)
    (m : Machine C) :
  exists trace,
    cdm_calls (snd (walk enc_info sch subs l m)) = cdm_calls m ++ trace
    /\ forall c, nth_error trace 0 = Some c ->
         eme.call_block_offset c = block_offset l /\ eme.call_iv c = cur_iv l.
Proof.
  revert l m. induction subs as [|sub subs IH]; intros l m.
  - exists []. cbn. rewrite app_nil_r. split; [reflexivity|discriminate].
  - cbn [walk]. first_step V Er.
    + exists []. cbn. rewrite app_nil_r. split; [reflexivity|discriminate].
    + exists []. cbn. rewrite app_nil_r. split; [assumption|discriminate].
    + destruct (IH (advance l (Z.of_N (bytes_of_clear_data sub))) m')
        as (trace & Ht & Hf).
      exists trace. split; [congruence|exact Hf].
    + exists [step_call enc_info sch sub l m]. cbn [snd].
      split; [assumption|]. intros c [= <-]. split; reflexivity.
    + destruct (update_iv _ _ _ _) as [l1|o] eqn:Eu.
      * destruct (IH l1 m') as (trace & Ht & _).
        exists (step_call enc_info sch sub l m :: trace). split.
        { rewrite Ht.
          match goal with H : cdm_calls m' = _ |- _ => rewrite H end.
          rewrite <- app_assoc. reflexivity. }
        intros c [= <-]. split; reflexivity.
      * exists [step_call enc_info sch sub l m]. cbn [snd].
        split; [assumption|]. intros c [= <-]. split; reflexivity.
Qed.

(** [Decrypt] around one iteration of its loop that runs to its end: it goes
    on with the rest of the table from the locals the iteration left, the
    call of the iteration is in its history right after the calls made
    before, and the call after that one, if there is one, is made with the
    block offset and the IV the iteration left. *)
Lemma Decrypt_after_step (m m1 m2 : Machine C)
    (pre post : list AVSubsampleEncryptionInfo)
    (sub : AVSubsampleEncryptionInfo) (l l' : Locals)
    (call : eme.DecryptCall) :
  dest_fits m ->
  decoded_info (this m) = Some enc_info ->
  select_scheme enc_info = inr sch ->
  subsamples enc_info = pre ++ sub :: post ->
  walk enc_info sch pre (init_locals enc_info (packet_ (this m))) m
  = (Next l, m1) ->
  subsample_step enc_info sch sub l m1 = (Next l', m2) ->
  cdm_calls m2 = cdm_calls m1 ++ [call] ->
  let history := calls_since m (snd (Decrypt m)) in
  let k := length (calls_since m m1) in
  Decrypt m
  = match walk enc_info sch post l' m2 with
    | (Exit o, m') => (o, m')
    | (Next lf, m') =>
        if negb (total_size lf =? 0)
        then (Return Status.InvalidContainerData, m')
        else (Return Status.Success, m')
    end
  /\ nth_error history k = Some call
  /\ (forall c, nth_error history (S k) = Some c ->
        eme.call_block_offset c = block_offset l'
        /\ eme.call_iv c = cur_iv l').
Proof.
  intros Hdest Hdec Hsel Hsubs Hw Es Hc history k.
  assert (HD : Decrypt m
               = match walk enc_info sch post l' m2 with
                 | (Exit o, m') => (o, m')
                 | (Next lf, m') =>
                     if negb (total_size lf =? 0)
                     then (Return Status.InvalidContainerData, m')
                     else (Return Status.Success, m')
                 end).
  { rewrite (Decrypt_decoded m enc_info Hdest Hdec).
    rewrite (decrypt_info_walk enc_info sch m Hsel)
      by (rewrite Hsubs; destruct pre; discriminate).
    rewrite Hsubs, walk_app, Hw. cbn [walk]. rewrite Es. reflexivity. }
  split; [exact HD|].
  destruct (walk_first_call pre (init_locals enc_info (packet_ (this m))) m)
    as (t1 & H1 & _).
  rewrite Hw in H1. cbn [snd] in H1.
  destruct (walk_first_call post l' m2) as (t2 & H2 & Hf2).
  assert (Hh : history = t1 ++ call :: t2).
  { subst history. apply calls_since_app. rewrite HD.
    assert (E : cdm_calls (snd (walk enc_info sch post l' m2))
                = cdm_calls m ++ t1 ++ call :: t2).
    { rewrite H2, Hc, H1, <- !app_assoc. reflexivity. }
    destruct (walk enc_info sch post l' m2) as [[lf|o] m'];
      [destruct (negb _)|]; exact E. }
  assert (Hk : k = length t1).
  { subst k. rewrite (calls_since_app m m1 t1 H1). reflexivity. }
  rewrite Hh, Hk. split.
  - rewrite nth_error_app2 by lia. rewrite Nat.sub_diag. reflexivity.
  - intros c Hn. rewrite nth_error_app2 in Hn by lia.
    replace (S (length t1) - length t1)%nat with 1%nat in Hn by lia.
    apply Hf2. exact Hn.
Qed.

End CtrStep.




(** C3 (as amended).  Take a 'cens' frame whose encryption info decodes and
    has a 16-byte IV, whose pattern size - [crypt_byte_block +
    skip_byte_block] as a 32-bit unsigned value - is not 0, and a
    destination that is large enough.  Whenever the loop of [Decrypt]
    reaches a subsample that fits in what remains of the payload, has
    protected bytes, and whose CDM call succeeds, the iteration runs to its
    end: the 64-bit counter of the IV has grown by
    [(num_blocks / pattern_size) * crypt_byte_block], plus
    [crypt_byte_block] exactly when
    [num_blocks mod pattern_size >= crypt_byte_block], where
    [num_blocks = protected_bytes / 16]; the first 8 bytes of the IV are as
    they were and the block offset is
    [(block_offset + protected_bytes) mod 16].  The increment is a 32-bit
    unsigned value as in the source; when
    [crypt_byte_block + skip_byte_block] fits in 32 bits the pattern size
    is the integer sum and the increment the integer formula.  [Decrypt]
    goes on with the rest of the table from these values: the call is in its
    history, and the CDM call it makes next, if any, carries the new block
    offset and the new IV. *)
Theorem cens_iv_update {C : Type} {B : Build} {L : LibAvUtil}
    {I : eme.Implementation C}
    (m : Machine C) (enc_info : AVEncryptionInfo) (sch : eme.EncryptionScheme)
    (pre post : list AVSubsampleEncryptionInfo)
    (sub : AVSubsampleEncryptionInfo) (l : Locals) (m1 : Machine C) :
  dest_fits m ->
  decoded_info (this m) = Some enc_info ->
  scheme enc_info = kCensScheme ->
  select_scheme enc_info = inr sch ->
  pattern_size enc_info <> 0 ->
  length (iv enc_info) = 16%nat ->
  subsamples enc_info = pre ++ sub :: post ->
  walk enc_info sch pre (init_locals enc_info (packet_ (this m))) m
  = (Next l, m1) ->
  fits sub l ->
  0 < Z.of_N (bytes_of_protected_data sub) < 2 ^ 32 ->
  cdm_status (cdm m1) (step_call enc_info sch sub l m1)
  = eme.DecryptStatus.Success ->
  let protected_bytes := Z.of_N (bytes_of_protected_data sub) in
  let crypt := Z.of_N (crypt_byte_block enc_info) in
  let skip := Z.of_N (skip_byte_block enc_info) in
  let increment :=
    u32 (cens_increment crypt (pattern_size enc_info) protected_bytes) in
  let call := step_call enc_info sch sub l m1 in
  let history := calls_since m (snd (Decrypt m)) in
  let k := length (calls_since m m1) in
  exists l' m2,
    subsample_step enc_info sch sub l m1 = (Next l', m2)
    /\ iv_counter (cur_iv l') = (iv_counter (cur_iv l) + increment) mod 2 ^ 64
    /\ firstn 8 (cur_iv l') = firstn 8 (cur_iv l)
    /\ block_offset l' = (block_offset l + protected_bytes) mod 16
    /\ (crypt + skip < 2 ^ 32 ->
        pattern_size enc_info = crypt + skip
        /\ increment = cens_increment crypt (crypt + skip) protected_bytes)
    /\ eme.call_block_offset call = block_offset l
    /\ Decrypt m
       = match walk enc_info sch post l' m2 with
         | (Exit o, m') => (o, m')
         | (Next lf, m') =>
             if negb (total_size lf =? 0)
             then (Return Status.InvalidContainerData, m')
             else (Return Status.Success, m')
         end
    /\ nth_error history k = Some call
    /\ (forall c, nth_error history (S k) = Some c ->
          eme.call_block_offset c = (block_offset l + protected_bytes) mod 16
          /\ iv_counter (eme.call_iv c)
             = (iv_counter (cur_iv l) + increment) mod 2 ^ 64
          /\ firstn 8 (eme.call_iv c) = firstn 8 (cur_iv l)).
Proof.
  intros Hdest Hdec Hs Hsel Hps Hlen Hsubs Hw Hfit Hp Hst p crypt skip
    increment call history k.
  destruct (walk_Next_inv enc_info sch m pre _ l m m1 (init_inv enc_info m) Hw)
    as [Hinv _].
  pose proof (walk_iv_length enc_info sch m pre _ l m m1 (init_inv enc_info m)
                Hlen Hw) as Hlen'.
  destruct (subsample_step_success enc_info sch m sub l m1 Hdest Hinv Hfit
              (proj1 Hp) Hst) as (m2 & Es & Hc).
  destruct Hinv as (_ & _ & _ & _ & _ & _ & Hbo).
  rewrite update_iv_ctr in Es by (right; exact Hs).
  cbn [block_offset cur_iv advance] in Es. fold p in Es.
  rewrite (ctr_increment_cens enc_info (block_offset l) p Hs Hps) in Es.
  fold crypt in Es. fold increment in Es.
  destruct (IncrementIv_16 increment (cur_iv l) Hlen'
              (u32_range (cens_increment crypt (pattern_size enc_info) p)))
    as (iv' & Ei & _ & Hf & Hctr).
  rewrite Ei in Es.
  assert (Hoff : size_t (block_offset l + p) mod 16 = (block_offset l + p) mod 16)
    by (rewrite size_t_small by lia; reflexivity).
  destruct (Decrypt_after_step enc_info sch m m1 m2 pre post sub l _ call
              Hdest Hdec Hsel Hsubs Hw Es Hc) as (HD & Hk & Hnext).
  eexists _, m2. split; [exact Es|]. cbn [cur_iv block_offset] in *.
  split; [exact Hctr|]. split; [exact Hf|]. split; [exact Hoff|].
  split.
  { intros Hsum.
    destruct (cens_increment_exact enc_info p) as [E1 E2];
      [subst p; lia | exact Hsum |].
    fold crypt skip in E1, E2. split; [exact E1|].
    subst increment. rewrite <- E1. apply E2. exact Hps. }
  split; [reflexivity|]. split; [exact HD|]. split; [exact Hk|].
  intros c Hn. destruct (Hnext c Hn) as [E1 E2].
  rewrite E1, E2. auto.
Qed.

Lemma cens_iv_update_witness :
  let enc_info :=
    info_of kCensScheme 1 9 (repeat x00 16)
      [subsample 0 176; subsample 0 176; subsample 0 176] in
  let m := machine_of tt (ramp 528) in
  let history :=
    calls_since m
      (snd (@Decrypt unit debug_build (decoder_of enc_info) identity_cdm m)) in
  exists c1 c2,
    nth_error history 1 = Some c1
    /\ nth_error history 2 = Some c2
    /\ pattern_size enc_info = 10
    /\ cens_increment 1 10 176 = 2
    /\ iv_counter (eme.call_iv c1) = 2
    /\ iv_counter (eme.call_iv c2) = 4
    /\ eme.call_block_offset c2 = 0.
Proof.
  intros enc_info m history.
  pose (r := @walk unit debug_build identity_cdm enc_info eme.AesCtr
               [subsample 0 176] (init_locals enc_info (packet_ (this m))) m).
  pose (l := match fst r with
             | Next l => l
             | Exit _ => init_locals enc_info (packet_ (this m))
             end).
  destruct (@cens_iv_update unit debug_build (decoder_of enc_info) identity_cdm
              m enc_info eme.AesCtr [subsample 0 176] [subsample 0 176]
              (subsample 0 176) l (snd r))
    as (l' & m2 & _ & _ & _ & _ & _ & _ & _ & Hk & Hnext).
  - unfold dest_fits. vm_compute. lia.
  - reflexivity.
  - reflexivity.
  - reflexivity.
  - vm_compute. discriminate.
  - reflexivity.
  - reflexivity.
  - vm_compute. reflexivity.
  - unfold fits. vm_compute. discriminate.
  - vm_compute. split; reflexivity.
  - vm_compute. reflexivity.
  - pose (c2 := make_call enc_info eme.AesCtr 0
                  (repeat x00 15 ++ [x04]) (load (ramp 528) 352 176)).
    assert (H2 : nth_error history 2 = Some c2) by (vm_compute; reflexivity).
    destruct (Hnext c2 H2) as (Eo & Ec & _).
    eexists _, c2. split; [exact Hk|]. split; [exact H2|].
    split; [vm_compute; reflexivity|]. split; [vm_compute; reflexivity|].
    split; [vm_compute; reflexivity|].
    split; [rewrite Ec; vm_compute; reflexivity|].
    rewrite Eo. vm_compute. reflexivity.
Defined.

(** C3 as the specification words it, for every packet, does not hold.  With
    the 8-byte IV the specification allows and the pattern 1:9, the first
    subsample has protected bytes and its CDM call succeeds, but the IV is
    not incremented: the iteration does not run to its end in any build,
    [Decrypt] stops in [IncrementIv] and the second subsample gets no
    call. *)
Lemma cens_short_iv_not_incremented :
  let enc_info :=
    info_of kCensScheme 1 9 (repeat x00 8)
      [subsample 0 176; subsample 0 176] in
  let m := machine_of tt (ramp 352) in
  let l := init_locals enc_info (packet_ (this m)) in
  let call := step_call enc_info eme.AesCtr (subsample 0 176) l m in
  select_scheme enc_info = inr eme.AesCtr
  /\ pattern_size enc_info = 10
  /\ fits (subsample 0 176) l
  /\ @cdm_status unit identity_cdm (cdm m) call = eme.DecryptStatus.Success
  /\ (forall (B : Build) l' m2,
        @subsample_step unit B identity_cdm enc_info eme.AesCtr
          (subsample 0 176) l m <> (Next l', m2))
  /\ fst (run debug_build identity_cdm tt enc_info (ramp 352))
     = Abort DcheckFailed
  /\ fst (run release_build identity_cdm tt enc_info (ramp 352))
     = Abort OutOfRange
  /\ cdm_calls (snd (run debug_build identity_cdm tt enc_info (ramp 352)))
     = [call]
  /\ cdm_calls (snd (run release_build identity_cdm tt enc_info (ramp 352)))
     = [call].
Proof.
  intros enc_info m l call.
  split; [reflexivity|]. split; [vm_compute; reflexivity|].
  split; [unfold fits; vm_compute; discriminate|].
  split; [reflexivity|].
  split; [intros [[|]] l' m2; vm_compute; discriminate|].
  repeat split; vm_compute; reflexivity.
Qed.

(** ** 'cbc1': the block-size check comes after the CDM call *)

(** C9.  Under 'cbc1', let the walk reach a subsample that fits and whose
    protected byte count is positive but below 16 or not a multiple of 16.
    [Decrypt] still makes the CDM call for that subsample - it is the last
    call of the history - and then returns: InvalidContainerData if the CDM
    reported Success, and otherwise the error of the CDM status
    (NotSupported, KeyNotFound, or UnknownError for anything else). *)
Theorem cbc1_partial_block_checked_after_cdm {C : Type} {B : Build}
    {L : LibAvUtil} {I : eme.Implementation C}
    (m : Machine C) (enc_info : AVEncryptionInfo) (sch : eme.EncryptionScheme)
    (pre post : list AVSubsampleEncryptionInfo)
    (sub : AVSubsampleEncryptionInfo) (l : Locals) (m1 : Machine C) :
  dest_fits m ->
  decoded_info (this m) = Some enc_info ->
  scheme enc_info = kCbc1Scheme ->
  select_scheme enc_info = inr sch ->
  subsamples enc_info = pre ++ sub :: post ->
  walk enc_info sch pre (init_locals enc_info (packet_ (this m))) m
  = (Next l, m1) ->
  fits sub l ->
  0 < Z.of_N (bytes_of_protected_data sub) ->
  Z.of_N (bytes_of_protected_data sub) < 16
  \/ Z.of_N (bytes_of_protected_data sub) mod 16 <> 0 ->
  let call := step_call enc_info sch sub l m1 in
  cdm_calls (snd (Decrypt m)) = cdm_calls m1 ++ [call]
  /\ eme.call_data call
     = load (pkt_data (packet_ (this m)))
         (src l + Z.of_N (bytes_of_clear_data sub))
         (Z.of_N (bytes_of_protected_data sub))
  /\ fst (Decrypt m)
     = Return match cdm_status (cdm m1) call with
              | eme.DecryptStatus.Success => Status.InvalidContainerData
              | eme.DecryptStatus.NotSupported => Status.NotSupported
              | eme.DecryptStatus.KeyNotFound => Status.KeyNotFound
              | eme.DecryptStatus.OtherError => Status.UnknownError
              end.
Proof.
  intros Hdest Hdec Hs Hsel Hsubs Hw Hfit Hp Hbad call.
  rewrite (Decrypt_decoded m enc_info Hdest Hdec).
  destruct (walk_Next_inv enc_info sch m pre _ l m m1 (init_inv enc_info m) Hw)
    as [Hinv _].
  assert (Hthis : this m1 = this m) by (destruct Hinv; assumption).
  assert (Hexit : exists m2,
            subsample_step enc_info sch sub l m1
            = (Exit (Return match cdm_status (cdm m1) call with
                            | eme.DecryptStatus.Success =>
                                Status.InvalidContainerData
                            | eme.DecryptStatus.NotSupported =>
                                Status.NotSupported
                            | eme.DecryptStatus.KeyNotFound =>
                                Status.KeyNotFound
                            | eme.DecryptStatus.OtherError =>
                                Status.UnknownError
                            end), m2)
            /\ cdm_calls m2 = cdm_calls m1 ++ [call]).
  { destruct (cdm_status (cdm m1) call) eqn:Est.
    - destruct (subsample_step_success enc_info sch m sub l m1 Hdest Hinv Hfit
                  Hp Est) as (m2 & Es & Hc).
      exists m2. split; [|exact Hc]. rewrite Es.
      rewrite update_iv_cbc1 by exact Hs.
      replace ((_ <? 16) || negb (_ mod 16 =? 0)) with true; [reflexivity|].
      symmetry. apply orb_true_iff.
      destruct Hbad as [Hb|Hb]; [left; apply Z.ltb_lt; exact Hb|].
      right. apply negb_true_iff, Z.eqb_neq. exact Hb.
    - apply (subsample_step_error enc_info sch m sub l m1 _ Hdest Hinv Hfit Hp).
      fold call. rewrite Est. reflexivity.
    - apply (subsample_step_error enc_info sch m sub l m1 _ Hdest Hinv Hfit Hp).
      fold call. rewrite Est. reflexivity.
    - apply (subsample_step_error enc_info sch m sub l m1 _ Hdest Hinv Hfit Hp).
      fold call. rewrite Est. reflexivity. }
  destruct Hexit as (m2 & Es & Hc).
  rewrite (decrypt_info_exit enc_info sch m m1 m2 pre post sub l _ Hsel Hsubs
             Hw Es).
  cbn [fst snd]. split; [exact Hc|]. split; [|reflexivity].
  unfold call, step_call. cbn. rewrite Hthis. reflexivity.
Qed.

Lemma cbc1_partial_block_checked_after_cdm_witness :
  let enc_info := info_of kCbc1Scheme 0 0 (repeat x00 16) [subsample 0 17] in
  let m := machine_of [eme.DecryptStatus.KeyNotFound] (ramp 17) in
  let r := @Decrypt _ debug_build (decoder_of enc_info) scripted_cdm m in
  length (cdm_calls (snd r)) = 1%nat /\ fst r = Return Status.KeyNotFound.
Proof.
  intros enc_info m r.
  destruct (@cbc1_partial_block_checked_after_cdm _ debug_build
              (decoder_of enc_info) scripted_cdm m enc_info eme.AesCbc
              [] [] (subsample 0 17)
              (init_locals enc_info (packet_ (this m))) m)
    as (Hc & _ & Hr).
  - unfold dest_fits. vm_compute. lia.
  - reflexivity.
  - reflexivity.
  - reflexivity.
  - reflexivity.
  - reflexivity.
  - unfold fits. vm_compute. discriminate.
  - vm_compute. reflexivity.
  - right. vm_compute. discriminate.
  - split.
    + unfold r. rewrite Hc. reflexivity.
    + unfold r. rewrite Hr. reflexivity.
Defined.

(** ** 'cens' with an all-zero pattern *)

(** Under 'cens', whenever [pattern_size] is 0 - in particular when
    [crypt_byte_block] and [skip_byte_block] are both 0 - the first subsample
    with protected bytes whose CDM call succeeds makes [Decrypt] divide by
    zero. *)
Lemma cens_zero_pattern_size_aborts {C : Type} {B : Build}
    {L : LibAvUtil} {I : eme.Implementation C}
    (m : Machine C) (enc_info : AVEncryptionInfo) (sch : eme.EncryptionScheme)
    (pre post : list AVSubsampleEncryptionInfo)
    (sub : AVSubsampleEncryptionInfo) (l : Locals) (m1 : Machine C) :
  dest_fits m ->
  decoded_info (this m) = Some enc_info ->
  scheme enc_info = kCensScheme ->
  pattern_size enc_info = 0 ->
  select_scheme enc_info = inr sch ->
  subsamples enc_info = pre ++ sub :: post ->
  walk enc_info sch pre (init_locals enc_info (packet_ (this m))) m
  = (Next l, m1) ->
  fits sub l ->
  0 < Z.of_N (bytes_of_protected_data sub) ->
  cdm_status (cdm m1) (step_call enc_info sch sub l m1)
  = eme.DecryptStatus.Success ->
  fst (Decrypt m) = Abort DivisionByZero.
Proof.
  intros Hdest Hdec Hs Hps Hsel Hsubs Hw Hfit Hp Hst.
  rewrite (Decrypt_decoded m enc_info Hdest Hdec).
  destruct (walk_Next_inv enc_info sch m pre _ l m m1 (init_inv enc_info m) Hw)
    as [Hinv _].
  destruct (subsample_step_success enc_info sch m sub l m1 Hdest Hinv Hfit
              Hp Hst) as (m2 & Es & Hc).
  rewrite update_iv_ctr in Es by (right; exact Hs).
  rewrite ctr_increment_cens_zero in Es by assumption.
  rewrite (decrypt_info_exit enc_info sch m m1 m2 pre post sub l _ Hsel Hsubs
             Hw Es).
  reflexivity.
Qed.

(** C7.  The code does not do what the specification says.  Take a 'cens'
    frame with [crypt_byte_block = skip_byte_block = 0], a 16-byte IV and
    one subsample of 16 protected bytes: the CDM call succeeds and the IV
    update then divides by [pattern_size = 0], in either build.  The same
    frame tagged 'cenc' is decrypted with Success. *)
Theorem cens_zero_pattern_divides_by_zero :
  let cens := info_of kCensScheme 0 0 (repeat x00 16) [subsample 0 16] in
  let cenc := info_of kCencScheme 0 0 (repeat x00 16) [subsample 0 16] in
  pattern_size cens = 0
  /\ fst (run debug_build identity_cdm tt cens (ramp 16)) = Abort DivisionByZero
  /\ fst (run release_build identity_cdm tt cens (ramp 16))
     = Abort DivisionByZero
  /\ fst (run debug_build identity_cdm tt cenc (ramp 16))
     = Return Status.Success.
Proof.
  cbv zeta. repeat split; vm_compute; reflexivity.
Qed.


(** ** 'cbc1': chaining *)

Lemma load_last_block (buf : list byte) (pos len : Z) :
  0 <= pos -> 16 <= len -> pos + len <= Z.of_nat (length buf) ->
  last_block (load buf pos len) = load buf (pos + len - 16) 16.
Proof.
  intros Hpos Hlen Hend. unfold last_block.
  assert (Hl : length (load buf pos len) = Z.to_nat len).
  { apply Nat2Z.inj. rewrite load_length by lia. lia. }
  rewrite Hl. unfold load.
  rewrite skipn_firstn_comm, skipn_skipn. f_equal; [lia|]. f_equal. lia.
Qed.

Section Cbc1.
Context {C : Type} {B : Build} {I : eme.Implementation C}.
Variables (enc_info : AVEncryptionInfo) (sch : eme.EncryptionScheme).
Hypothesis Hcbc1 : scheme enc_info = kCbc1Scheme.

(** The calls of a 'cbc1' walk: their data are the protected regions in
    order, and their IVs are the current IV followed by the last blocks of
    the regions. *)
Lemma walk_cbc1_calls (m0 : Machine C)
    (subs : list AVSubsampleEncryptionInfo) (l : Locals) (m : Machine C) :
  walk_inv m0 l m ->
  let payload := pkt_data (packet_ (this m0)) in
  let regions := protected_regions payload (src l) subs in
  exists trace,
    cdm_calls (snd (walk enc_info sch subs l m)) = cdm_calls m ++ trace
    /\ map eme.call_data trace = firstn (length trace) regions
    /\ map eme.call_iv trace
       = firstn (length trace) (cur_iv l :: map last_block regions).
Proof.
  revert l m. induction subs as [|sub subs IH]; intros l m Hinv payload regions.
  - exists []. cbn. rewrite app_nil_r. auto.
  - assert (Hthis : this m = this m0) by (destruct Hinv; assumption).
    cbn [walk]. first_step V Er.
    + exists []. cbn. rewrite app_nil_r. auto.
    + exists []. cbn. rewrite app_nil_r. auto.
    + destruct (subsample_step_inv enc_info sch m0 sub l _ m m' Hinv Er)
        as [Hinv1 _].
      destruct (IH _ m' Hinv1) as (trace & Ht & Hd & Hi).
      exists trace. split; [congruence|].
      subst regions. cbn [protected_regions].
      match goal with H : bytes_of_protected_data sub = 0%N |- _ => rewrite H end.
      cbn [Z.of_N Z.eqb]. cbn [src advance cur_iv] in Hd, Hi.
      rewrite Z.add_0_r. auto.
    + exists [step_call enc_info sch sub l m]. cbn [snd]. split; [assumption|].
      subst regions. cbn [protected_regions].
      destruct (Z.of_N (bytes_of_protected_data sub) =? 0) eqn:E;
        [apply Z.eqb_eq in E; lia|].
      cbn. rewrite Hthis. auto.
    + assert (Hreg : regions
                     = eme.call_data (step_call enc_info sch sub l m)
                       :: protected_regions payload
                            (src l + Z.of_N (bytes_of_clear_data sub)
                             + Z.of_N (bytes_of_protected_data sub)) subs).
      { subst regions. cbn [protected_regions].
        destruct (Z.of_N (bytes_of_protected_data sub) =? 0) eqn:E;
          [apply Z.eqb_eq in E; lia|].
        cbn. rewrite Hthis. reflexivity. }
      destruct (update_iv _ _ _ _) as [l1|o] eqn:Eu.
      * destruct (subsample_step_inv enc_info sch m0 sub l l1 m m' Hinv Er)
          as [Hinv1 Hsrc1].
        destruct (IH l1 m' Hinv1) as (trace & Ht & Hd & Hi).
        exists (step_call enc_info sch sub l m :: trace). split.
        { rewrite Ht.
          match goal with H : cdm_calls m' = _ |- _ => rewrite H end.
          rewrite <- app_assoc. reflexivity. }
        rewrite Hreg. cbn [map length firstn]. rewrite Hsrc1 in Hd, Hi.
        split; [f_equal; exact Hd|]. f_equal. rewrite Hi. f_equal. f_equal.
        rewrite update_iv_cbc1 in Eu by exact Hcbc1.
        destruct (_ || _) eqn:Eb; [discriminate|]. injection Eu as <-.
        apply orb_false_iff in Eb as [Eb _]. apply Z.ltb_ge in Eb.
        cbn [cur_iv src advance step_call make_call eme.call_data].
        destruct Hinv as (_ & _ & _ & Hs & Htot & Hsum & _).
        unfold fits in *. rewrite Hthis.
        symmetry. apply load_last_block; lia.
      * exists [step_call enc_info sch sub l m]. cbn [snd]. split; [assumption|].
        rewrite Hreg. cbn. auto.
Qed.

End Cbc1.

(** C4.  Under 'cbc1', the IV of every CDM call of [Decrypt] after the first
    is the last 16 bytes of the data of the call before it, and that data is
    the protected region of the payload (the input, as stored in the frame)
    of the corresponding subsample with protected bytes. *)
Theorem cbc1_chaining {C : Type} {B : Build} {L : LibAvUtil}
    {I : eme.Implementation C} (m : Machine C) (enc_info : AVEncryptionInfo)
    (k : nat) (c2 : eme.DecryptCall) :
  decoded_info (this m) = Some enc_info ->
  scheme enc_info = kCbc1Scheme ->
  nth_error (calls_since m (snd (Decrypt m))) (S k) = Some c2 ->
  exists c1 region,
    nth_error (calls_since m (snd (Decrypt m))) k = Some c1
    /\ nth_error (protected_regions (pkt_data (packet_ (this m))) 0
                    (subsamples enc_info)) k = Some region
    /\ eme.call_data c1 = region
    /\ eme.call_iv c2 = last_block region.
Proof.
  intros Hdec Hs. unfold Decrypt.
  destruct (dcheck_fails _);
    [rewrite calls_since_refl by reflexivity; discriminate|].
  destruct (dcheck_fails _);
    [rewrite calls_since_refl by reflexivity; discriminate|].
  unfold decoded_info in Hdec.
  destruct (av_packet_get_side_data _ _) as [sd|]; [|discriminate].
  rewrite Hdec. unfold decrypt_info.
  destruct (select_scheme enc_info) as [err|sch];
    [rewrite calls_since_refl by reflexivity; discriminate|].
  destruct (subsamples enc_info) as [|sub subs] eqn:Es.
  - destruct (cdm_Decrypt m _ 0) as [[st m']|] eqn:Ed;
      [|rewrite calls_since_refl by reflexivity; discriminate].
    apply cdm_Decrypt_Some in Ed as (_ & Hc & _).
    apply calls_since_app in Hc.
    destruct (decrypt_status_error st); cbn [snd]; rewrite Hc;
      destruct k; discriminate.
  - destruct (walk_cbc1_calls enc_info sch Hs m (sub :: subs)
                (init_locals enc_info (packet_ (this m))) m
                (init_inv enc_info m)) as (trace & Ht & Hd & Hi).
    cbn [src init_locals cur_iv] in Hd, Hi.
    set (regions := protected_regions (pkt_data (packet_ (this m))) 0
                      (sub :: subs)) in *.
    assert (Hcs : calls_since m
                    (snd (match walk enc_info sch (sub :: subs)
                                  (init_locals enc_info (packet_ (this m))) m
                          with
                          | (Next l, m') =>
                              if negb (total_size l =? 0)
                              then (Return Status.InvalidContainerData, m')
                              else (Return Status.Success, m')
                          | (Exit o, m') => (o, m')
                          end)) = trace).
    { apply calls_since_app.
      destruct (walk enc_info sch (sub :: subs) _ m) as [[l|o] m'];
        [destruct (negb _)|]; exact Ht. }
    rewrite Hcs. intros Hk.
    assert (Hlt : (S k < length trace)%nat)
      by (apply nth_error_Some; congruence).
    destruct (nth_error trace k) as [c1|] eqn:Ek;
      [|apply nth_error_None in Ek; lia].
    assert (Hr : nth_error regions k = Some (eme.call_data c1)).
    { pose proof (map_nth_error eme.call_data k trace Ek) as Hm.
      rewrite Hd, nth_error_firstn in Hm.
      destruct (k <? length trace)%nat eqn:E; [exact Hm|].
      apply Nat.ltb_ge in E. lia. }
    exists c1, (eme.call_data c1). repeat split; try assumption.
    pose proof (map_nth_error eme.call_iv (S k) trace Hk) as Hm.
    rewrite Hi, nth_error_firstn in Hm.
    destruct (S k <? length trace)%nat eqn:E;
      [|apply Nat.ltb_ge in E; lia].
    cbn [nth_error] in Hm.
    rewrite (map_nth_error last_block k regions Hr) in Hm. congruence.
Qed.

Lemma cbc1_chaining_witness :
  let enc_info :=
    info_of kCbc1Scheme 0 0 (repeat x00 16) [subsample 0 16; subsample 0 16] in
  let m := machine_of tt (ramp 32) in
  let trace :=
    calls_since m
      (snd (@Decrypt unit debug_build (decoder_of enc_info) identity_cdm m)) in
  exists c2,
    nth_error trace 1 = Some c2 /\ eme.call_iv c2 = firstn 16 (ramp 32).
Proof.
  intros enc_info m trace.
  pose (c2 := make_call enc_info eme.AesCbc 0 (firstn 16 (ramp 32))
                (skipn 16 (ramp 32))).
  assert (Hk : nth_error trace 1 = Some c2) by (vm_compute; reflexivity).
  destruct (@cbc1_chaining unit debug_build (decoder_of enc_info) identity_cdm
              m enc_info 0%nat c2)
    as (c1 & region & _ & Hr & _ & Hiv).
  - reflexivity.
  - reflexivity.
  - exact Hk.
  - exists c2. split; [exact Hk|]. rewrite Hiv.
    vm_compute in Hr. injection Hr as <-. vm_compute. reflexivity.
Defined.


(** ** The CTR schemes: order of the IVs *)

Lemma iv_value_split (iv : list byte) :
  length iv = 16%nat ->
  iv_value iv = be_value (firstn 8 iv) * 2 ^ 64 + iv_counter iv.
Proof.
  intros Hlen. unfold iv_value, iv_counter.
  rewrite <- (firstn_skipn 8 iv) at 1. rewrite be_value_app.
  rewrite length_skipn, Hlen. reflexivity.
Qed.

Lemma iv_counter_range (iv : list byte) :
  length iv = 16%nat -> 0 <= iv_counter iv < 2 ^ 64.
Proof.
  intros Hlen. unfold iv_counter.
  pose proof (be_value_range (skipn 8 iv)) as H.
  rewrite length_skipn, Hlen in H. exact H.
Qed.

Section CtrOrder.
Context {C : Type} {B : Build} {I : eme.Implementation C}.
Variables (enc_info : AVEncryptionInfo) (sch : eme.EncryptionScheme).
Hypothesis Hctr :
  scheme enc_info = kCencScheme \/ scheme enc_info = kCensScheme.

(** What a completed CTR update does to the IV, as long as the counter does
    not wrap. *)
Lemma update_iv_ctr_value (packet : AVPacket) (p : Z) (l l' : Locals) :
  update_iv enc_info packet p l = Next l' ->
  length (cur_iv l) = 16%nat ->
  exists inc,
    ctr_increment enc_info (block_offset l) p = inr inc
    /\ 0 <= inc < 2 ^ 32
    /\ length (cur_iv l') = 16%nat
    /\ block_offset l' = size_t (block_offset l + p) mod 16
    /\ (iv_counter (cur_iv l) + inc < 2 ^ 64 ->
        iv_counter (cur_iv l') = iv_counter (cur_iv l) + inc
        /\ iv_value (cur_iv l') = iv_value (cur_iv l) + inc).
Proof.
  intros Eu Hlen. rewrite update_iv_ctr in Eu by exact Hctr.
  destruct (ctr_increment _ _ _) as [f|inc] eqn:Ei; [discriminate|].
  pose proof (ctr_increment_range _ _ _ _ Ei) as Hr.
  destruct (IncrementIv_16 inc (cur_iv l) Hlen Hr) as (iv' & E & Hl' & Hf & Hc).
  rewrite E in Eu. injection Eu as <-. cbn [cur_iv block_offset].
  exists inc. repeat split; try assumption; try lia.
  - rewrite Hc. apply Z.mod_small.
    pose proof (iv_counter_range _ Hlen). lia.
  - rewrite (iv_value_split iv' Hl'), (iv_value_split _ Hlen), Hf, Hc.
    rewrite Z.mod_small; [lia|].
    pose proof (iv_counter_range _ Hlen). lia.
Qed.

(** The IVs of the calls of a CTR walk never decrease, as long as the
    counter has room for one 32-bit increment per subsample. *)
Lemma walk_ctr_sorted (m0 : Machine C)
    (subs : list AVSubsampleEncryptionInfo) (l : Locals) (m : Machine C) :
  walk_inv m0 l m ->
  length (cur_iv l) = 16%nat ->
  iv_counter (cur_iv l) + 2 ^ 32 * Z.of_nat (length subs) <= 2 ^ 64 ->
  exists trace,
    cdm_calls (snd (walk enc_info sch subs l m)) = cdm_calls m ++ trace
    /\ Forall (fun c => iv_value (cur_iv l) <= iv_value (eme.call_iv c)) trace
    /\ StronglySorted
         (fun a b => iv_value (eme.call_iv a) <= iv_value (eme.call_iv b))
         trace.
Proof.
  revert l m. induction subs as [|sub subs IH]; intros l m Hinv Hlen Hroom.
  - exists []. cbn [snd walk]. rewrite app_nil_r.
      split; [auto|]. split; constructor.
  - cbn [length] in Hroom. cbn [walk]. first_step V Er.
    + exists []. cbn [snd walk]. rewrite app_nil_r.
      split; [auto|]. split; constructor.
    + exists []. cbn [snd walk]. rewrite app_nil_r.
      split; [auto|]. split; constructor.
    + destruct (subsample_step_inv enc_info sch m0 sub l _ m m' Hinv Er)
        as [Hinv1 _].
      destruct (IH _ m' Hinv1 Hlen) as (trace & Ht & Hf & Hs);
        [cbn [cur_iv advance]; lia|].
      exists trace. split; [congruence|]. auto.
    + exists [step_call enc_info sch sub l m]. cbn [snd].
      split; [assumption|]. split.
      * constructor; [apply Z.le_refl|constructor].
      * repeat constructor.
    + destruct (update_iv _ _ _ _) as [l1|o] eqn:Eu.
      * destruct (subsample_step_inv enc_info sch m0 sub l l1 m m' Hinv Er)
          as [Hinv1 _].
        destruct (update_iv_ctr_value _ _ _ _ Eu Hlen)
          as (inc & _ & Hinc & Hlen1 & _ & Hval).
        cbn [cur_iv advance] in Hval.
        destruct Hval as [Hc1 Hv1]; [lia|].
        destruct (IH l1 m' Hinv1 Hlen1) as (trace & Ht & Hf & Hs); [lia|].
        exists (step_call enc_info sch sub l m :: trace). split.
        { rewrite Ht.
          match goal with H : cdm_calls m' = _ |- _ => rewrite H end.
          rewrite <- app_assoc. reflexivity. }
        assert (Hf' : Forall (fun c => iv_value (cur_iv l)
                                       <= iv_value (eme.call_iv c)) trace).
        { eapply Forall_impl; [|exact Hf]. cbn beta. intros c Hc. lia. }
        split; constructor; try assumption. apply Z.le_refl.
      * exists [step_call enc_info sch sub l m]. cbn [snd].
        split; [assumption|]. split.
        -- constructor; [apply Z.le_refl|constructor].
        -- repeat constructor.
Qed.

End CtrOrder.

Section CencOrder.
Context {C : Type} {B : Build} {I : eme.Implementation C}.
Variables (enc_info : AVEncryptionInfo) (sch : eme.EncryptionScheme).
Hypothesis Hcenc : scheme enc_info = kCencScheme.

(** Under 'cenc' every call starts further along the key stream than the
    one before it. *)
Lemma walk_cenc_positions (m0 : Machine C)
    (subs : list AVSubsampleEncryptionInfo) (l : Locals) (m : Machine C) :
  walk_inv m0 l m ->
  Z.of_nat (length (pkt_data (packet_ (this m0)))) < 2 ^ 31 ->
  length (cur_iv l) = 16%nat ->
  iv_counter (cur_iv l) + 2 ^ 32 * Z.of_nat (length subs) <= 2 ^ 64 ->
  exists trace,
    cdm_calls (snd (walk enc_info sch subs l m)) = cdm_calls m ++ trace
    /\ Forall (fun c => 16 * iv_value (cur_iv l) + block_offset l
                        <= call_position c) trace
    /\ StronglySorted (fun a b => call_position a < call_position b) trace.
Proof.
  intros Hinv Hsize. revert l m Hinv.
  induction subs as [|sub subs IH]; intros l m Hinv Hlen Hroom.
  - exists []. cbn [snd walk]. rewrite app_nil_r.
    split; [auto|]. split; constructor.
  - cbn [length] in Hroom. cbn [walk]. first_step V Er.
    + exists []. cbn [snd walk]. rewrite app_nil_r.
      split; [auto|]. split; constructor.
    + exists []. cbn [snd walk]. rewrite app_nil_r.
      split; [auto|]. split; constructor.
    + destruct (subsample_step_inv enc_info sch m0 sub l _ m m' Hinv Er)
        as [Hinv1 _].
      destruct (IH _ m' Hinv1 Hlen) as (trace & Ht & Hf & Hs);
        [cbn [cur_iv advance]; lia|].
      exists trace. split; [congruence|]. auto.
    + exists [step_call enc_info sch sub l m]. cbn [snd].
      split; [assumption|]. split.
      * constructor; [apply Z.le_refl|constructor].
      * repeat constructor.
    + destruct (update_iv _ _ _ _) as [l1|o] eqn:Eu.
      * destruct (subsample_step_inv enc_info sch m0 sub l l1 m m' Hinv Er)
          as [Hinv1 _].
        destruct (update_iv_ctr_value enc_info (or_introl Hcenc) _ _ _ _ Eu Hlen)
          as (inc & Hi & Hinc & Hlen1 & Hbo1 & Hval).
        cbn [cur_iv block_offset advance] in Hi, Hbo1, Hval.
        destruct Hval as [Hc1 Hv1]; [lia|].
        destruct Hinv as (_ & _ & _ & Hs & Htot & Hsum & Hbo).
        unfold fits in *.
        set (p := Z.of_N (bytes_of_protected_data sub)) in *.
        rewrite (ctr_increment_cenc enc_info (block_offset l) p Hcenc Hbo) in Hi
          by lia.
        injection Hi as <-.
        rewrite size_t_small in Hbo1 by lia.
        assert (Hpos : 16 * iv_value (cur_iv l1) + block_offset l1
                       = 16 * iv_value (cur_iv l) + block_offset l + p).
        { rewrite Hv1, Hbo1.
          pose proof (Z.div_mod (block_offset l + p) 16). lia. }
        destruct (IH l1 m' Hinv1 Hlen1) as (trace & Ht & Hf & Hs'); [lia|].
        exists (step_call enc_info sch sub l m :: trace). split.
        { rewrite Ht.
          match goal with H : cdm_calls m' = _ |- _ => rewrite H end.
          rewrite <- app_assoc. reflexivity. }
        split.
        -- constructor; [apply Z.le_refl|].
           eapply Forall_impl; [|exact Hf]. cbn beta. intros c Hc. lia.
        -- constructor; [exact Hs'|].
           eapply Forall_impl; [|exact Hf]. cbn beta. intros c Hc.
           unfold call_position at 1.
           cbn [step_call make_call eme.call_iv eme.call_block_offset]. lia.
      * exists [step_call enc_info sch sub l m]. cbn [snd].
        split; [assumption|]. split.
        -- constructor; [apply Z.le_refl|constructor].
        -- repeat constructor.
Qed.

End CencOrder.

(** The calls of [decrypt_info] are the single whole-packet call, or the
    calls of the walk. *)
Lemma decrypt_info_calls {C : Type} {B : Build} {I : eme.Implementation C}
    (enc_info : AVEncryptionInfo) (m : Machine C) :
  (exists c, calls_since m (snd (decrypt_info enc_info m)) = [c])
  \/ calls_since m (snd (decrypt_info enc_info m)) = []
  \/ exists sch,
       subsamples enc_info <> []
       /\ calls_since m (snd (decrypt_info enc_info m))
          = calls_since m
              (snd (walk enc_info sch (subsamples enc_info)
                      (init_locals enc_info (packet_ (this m))) m)).
Proof.
  unfold decrypt_info.
  destruct (select_scheme enc_info) as [err|sch];
    [right; left; apply calls_since_refl; reflexivity|].
  destruct (subsamples enc_info) as [|sub subs] eqn:Es.
  - destruct (cdm_Decrypt m _ 0) as [[st m']|] eqn:Ed;
      [|right; left; apply calls_since_refl; reflexivity].
    apply cdm_Decrypt_Some in Ed as (_ & Hc & _).
    apply calls_since_app in Hc.
    left. eexists. destruct (decrypt_status_error st); exact Hc.
  - right. right. exists sch. split; [discriminate|].
    destruct (walk enc_info sch (sub :: subs) _ m) as [[l|o] m'];
      [destruct (negb _)|]; reflexivity.
Qed.

(** C5 (as amended).  Under 'cenc' or 'cens', for a 16-byte IV whose
    counter has room for one 32-bit increment per subsample (so that it
    cannot wrap), the IVs of the successive CDM calls of [Decrypt], read as
    128-bit big-endian integers, never decrease.  Under 'cenc' the
    positions [16 * iv + block_offset] strictly increase from call to call,
    so no (iv, block offset) pair is presented twice. *)
Theorem ctr_iv_order {C : Type} {B : Build} {L : LibAvUtil}
    {I : eme.Implementation C} (m : Machine C) (enc_info : AVEncryptionInfo) :
  decoded_info (this m) = Some enc_info ->
  scheme enc_info = kCencScheme \/ scheme enc_info = kCensScheme ->
  length (iv enc_info) = 16%nat ->
  iv_counter (iv enc_info)
  + 2 ^ 32 * Z.of_nat (length (subsamples enc_info)) <= 2 ^ 64 ->
  Z.of_nat (length (pkt_data (packet_ (this m)))) < 2 ^ 31 ->
  let trace := calls_since m (snd (Decrypt m)) in
  StronglySorted
    (fun a b => iv_value (eme.call_iv a) <= iv_value (eme.call_iv b)) trace
  /\ (scheme enc_info = kCencScheme ->
      StronglySorted (fun a b => call_position a < call_position b) trace).
Proof.
  intros Hdec Hctr Hlen Hroom Hsize.
  assert (Hnil : forall R : eme.DecryptCall -> eme.DecryptCall -> Prop,
             StronglySorted R []) by constructor.
  assert (Hone : forall (R : eme.DecryptCall -> eme.DecryptCall -> Prop) c,
             StronglySorted R [c]) by (repeat constructor).
  unfold Decrypt.
  destruct (dcheck_fails _);
    [cbv zeta; rewrite calls_since_refl by reflexivity; auto|].
  destruct (dcheck_fails _);
    [cbv zeta; rewrite calls_since_refl by reflexivity; auto|].
  unfold decoded_info in Hdec.
  destruct (av_packet_get_side_data _ _) as [sd|]; [|discriminate].
  rewrite Hdec. cbv zeta.
  destruct (decrypt_info_calls enc_info m) as [[c Hc]|[Hc|(sch & Hne & Hc)]];
    rewrite Hc; auto.
  split.
  - destruct (walk_ctr_sorted enc_info sch Hctr m (subsamples enc_info)
                (init_locals enc_info (packet_ (this m))) m
                (init_inv enc_info m) Hlen Hroom) as (trace & Ht & _ & Hs).
    rewrite (calls_since_app _ _ _ Ht). exact Hs.
  - intros Hcenc.
    destruct (walk_cenc_positions enc_info sch Hcenc m (subsamples enc_info)
                (init_locals enc_info (packet_ (this m))) m
                (init_inv enc_info m) Hsize Hlen Hroom) as (trace & Ht & _ & Hs).
    rewrite (calls_since_app _ _ _ Ht). exact Hs.
Qed.

Lemma ctr_iv_order_witness :
  let enc_info :=
    info_of kCencScheme 0 0 (repeat x00 16) [subsample 4 20; subsample 4 20] in
  let m := machine_of tt (ramp 48) in
  let trace :=
    calls_since m
      (snd (@Decrypt unit debug_build (decoder_of enc_info) identity_cdm m)) in
  map call_position trace = [0; 20]
  /\ StronglySorted (fun a b => call_position a < call_position b) trace.
Proof.
  intros enc_info m trace. split; [vm_compute; reflexivity|].
  apply (@ctr_iv_order unit debug_build (decoder_of enc_info) identity_cdm
           m enc_info).
  - reflexivity.
  - left. reflexivity.
  - reflexivity.
  - vm_compute. discriminate.
  - vm_compute. reflexivity.
  - reflexivity.
Defined.

Lemma StronglySorted_map {A B : Type} (f : A -> B) (R : B -> B -> Prop)
    (l : list A) :
  StronglySorted (fun a b => R (f a) (f b)) l -> StronglySorted R (map f l).
Proof.
  induction 1 as [|a l Hs IH Hf]; cbn; constructor; [assumption|].
  rewrite Forall_map. exact Hf.
Qed.

(** C5 as the specification words it does not hold.  Under 'cens' with
    pattern 2:8, three subsamples of 24 protected bytes are presented with
    the same IV and block offsets 0, 8, 0: the IV is presented three times
    and the pairs go down from the second call to the third. *)
Lemma ctr_iv_presented_twice :
  let enc_info :=
    info_of kCensScheme 2 8 (repeat x00 16)
      [subsample 0 24; subsample 0 24; subsample 0 24] in
  let r := run debug_build identity_cdm tt enc_info (ramp 72) in
  fst r = Return Status.Success
  /\ map (fun c => (iv_value (eme.call_iv c), eme.call_block_offset c))
       (cdm_calls (snd r)) = [(0, 0); (0, 8); (0, 0)]
  /\ ~ StronglySorted (fun a b => call_position a <= call_position b)
         (cdm_calls (snd r))
  /\ ~ NoDup (map eme.call_iv (cdm_calls (snd r))).
Proof.
  intros enc_info r. split; [vm_compute; reflexivity|].
  split; [vm_compute; reflexivity|]. split.
  - intros Hs. apply (StronglySorted_map call_position Z.le) in Hs.
    replace (map call_position (cdm_calls (snd r))) with [0; 8; 0] in Hs
      by (vm_compute; reflexivity).
    inversion Hs as [|a t Hs1 _]. inversion Hs1 as [|b t' _ Hf].
    inversion Hf as [|c t'' Hle _]. lia.
  - intros Hnd. vm_compute in Hnd.
    inversion Hnd as [|x t Hin _]. apply Hin. left. reflexivity.
Qed.

(** The bound on the counter cannot be dropped: an IV whose counter field is
    all ones wraps to zero after one block, leaving the high half as it
    was, and the second IV presented is smaller than the first. *)
Lemma ctr_counter_wraps :
  let enc_info :=
    info_of kCencScheme 0 0 (repeat x00 8 ++ repeat xff 8)
      [subsample 0 16; subsample 0 16] in
  let r := run debug_build identity_cdm tt enc_info (ramp 32) in
  fst r = Return Status.Success
  /\ map (fun c => iv_value (eme.call_iv c)) (cdm_calls (snd r))
     = [2 ^ 64 - 1; 0].
Proof.
  intros enc_info r. split; vm_compute; reflexivity.
Qed.


(** ** InvalidContainerData *)

Lemma select_scheme_invalid (enc_info : AVEncryptionInfo) :
  select_scheme enc_info = inl Status.InvalidContainerData
  <-> (scheme enc_info = kCencScheme \/ scheme enc_info = kCbc1Scheme)
      /\ (crypt_byte_block enc_info <> 0%N \/ skip_byte_block enc_info <> 0%N).
Proof.
  unfold select_scheme.
  destruct (N.eqb_spec (scheme enc_info) kCencScheme) as [E1|E1];
    [|destruct (N.eqb_spec (scheme enc_info) kCensScheme) as [E2|E2];
      [|destruct (N.eqb_spec (scheme enc_info) kCbc1Scheme) as [E3|E3];
        [|destruct (N.eqb_spec (scheme enc_info) kCbcsScheme) as [E4|E4]]]];
    destruct (N.eqb_spec (crypt_byte_block enc_info) 0) as [Ec|Ec];
    destruct (N.eqb_spec (skip_byte_block enc_info) 0) as [Ek|Ek];
    cbn; split; try discriminate; try tauto;
    try (intros [[H|H] _]; rewrite H in *; try discriminate; congruence).
Qed.

Lemma decrypt_status_error_valid (st : eme.DecryptStatus.DecryptStatus) :
  decrypt_status_error st <> Some Status.InvalidContainerData.
Proof. destruct st; discriminate. Qed.

(** The IV update returns a status only for a bad 'cbc1' block. *)
Lemma update_iv_Return {B : Build} (enc_info : AVEncryptionInfo)
    (packet : AVPacket) (p : Z) (l : Locals) (s : Status.Status) :
  update_iv enc_info packet p l = Exit (Return s)
  <-> s = Status.InvalidContainerData
      /\ scheme enc_info = kCbc1Scheme
      /\ (p < 16 \/ p mod 16 <> 0).
Proof.
  unfold update_iv, kAesBlockSize.
  destruct (N.eqb_spec (scheme enc_info) kCencScheme) as [E1|E1].
  { cbn [orb]. split.
    - destruct (ctr_increment _ _ _); [discriminate|].
      destruct (IncrementIv _ _); discriminate.
    - intros (_ & H & _). rewrite H in E1. discriminate. }
  destruct (N.eqb_spec (scheme enc_info) kCensScheme) as [E2|E2].
  { cbn [orb]. split.
    - destruct (ctr_increment _ _ _); [discriminate|].
      destruct (IncrementIv _ _); discriminate.
    - intros (_ & H & _). rewrite H in E2. discriminate. }
  cbn [orb].
  destruct (N.eqb_spec (scheme enc_info) kCbc1Scheme) as [E3|E3].
  - destruct (Z.ltb_spec p 16) as [Hlt|Hge]; cbn [orb].
    + split; [intros [= <-]; auto|intros (-> & _); reflexivity].
    + destruct (Z.eqb_spec (p mod 16) 0) as [Hm|Hm]; cbn [negb].
      * split; [discriminate|]. intros (_ & _ & [H|H]); [lia|contradiction].
      * split; [intros [= <-]; auto|intros (-> & _); reflexivity].
  - split; [discriminate|]. intros (_ & H & _). contradiction.
Qed.

Section Invalid.
Context {C : Type} {B : Build} {I : eme.Implementation C}.
Variables (enc_info : AVEncryptionInfo) (sch : eme.EncryptionScheme).

(** A walk that leaves the function does so in some iteration. *)
Lemma walk_Exit (subs : list AVSubsampleEncryptionInfo) (l : Locals)
    (m m' : Machine C) (o : Outcome) :
  walk enc_info sch subs l m = (Exit o, m') ->
  exists pre sub post l1 m1,
    subs = pre ++ sub :: post
    /\ walk enc_info sch pre l m = (Next l1, m1)
    /\ subsample_step enc_info sch sub l1 m1 = (Exit o, m').
Proof.
  revert l m. induction subs as [|sub subs IH]; intros l m E; [discriminate|].
  cbn [walk] in E.
  destruct (subsample_step enc_info sch sub l m) as [[l1|o1] m1] eqn:Es.
  - destruct (IH l1 m1 E) as (pre & sub' & post & l2 & m2 & -> & Hw & Hs).
    exists (sub :: pre), sub', post, l2, m2. split; [reflexivity|].
    split; [|exact Hs]. cbn [walk]. rewrite Es. exact Hw.
  - injection E as <- <-.
    exists [], sub, subs, l, m. auto.
Qed.

(** When an iteration returns InvalidContainerData. *)
Lemma subsample_step_invalid (m0 : Machine C)
    (sub : AVSubsampleEncryptionInfo) (l : Locals) (m : Machine C) :
  dest_fits m0 ->
  walk_inv m0 l m ->
  (exists m', subsample_step enc_info sch sub l m
              = (Exit (Return Status.InvalidContainerData), m'))
  <-> ~ fits sub l
      \/ (fits sub l
          /\ scheme enc_info = kCbc1Scheme
          /\ 0 < Z.of_N (bytes_of_protected_data sub)
          /\ (Z.of_N (bytes_of_protected_data sub) < 16
              \/ Z.of_N (bytes_of_protected_data sub) mod 16 <> 0)
          /\ cdm_status (cdm m) (step_call enc_info sch sub l m)
             = eme.DecryptStatus.Success).
Proof.
  intros Hdest Hinv. split.
  - intros [m' E].
    pose proof (subsample_step_view enc_info sch sub l m) as V.
    rewrite E in V. inversion V; subst.
    + left. assumption.
    + exfalso. eapply decrypt_status_error_valid. eassumption.
    + right.
      match goal with
      | H : update_iv _ _ _ _ = Exit (Return _) |- _ =>
          apply update_iv_Return in H as (_ & Hs & Hbad)
      end.
      auto.
  - intros [Hnf|(Hf & Hs & Hp & Hbad & Hst)].
    + first_step V Er; try contradiction. eauto.
    + destruct (subsample_step_success enc_info sch m0 sub l m Hdest Hinv Hf
                  Hp Hst) as (m' & Es & _).
      exists m'. rewrite Es. f_equal.
      apply update_iv_Return. auto.
Qed.

End Invalid.

(** What remains of the payload when a subsample is reached. *)
Lemma reaches_remaining {C : Type} {B : Build} {I : eme.Implementation C}
    (enc_info : AVEncryptionInfo) (sch : eme.EncryptionScheme)
    (m : Machine C) (pre : list AVSubsampleEncryptionInfo) (l : Locals)
    (m1 : Machine C) :
  reaches enc_info sch m pre l m1 ->
  walk_inv m l m1
  /\ total_size l
     = Z.of_nat (length (pkt_data (packet_ (this m)))) - subsamples_size pre.
Proof.
  intros Hw.
  destruct (walk_Next_inv enc_info sch m pre _ l m m1 (init_inv enc_info m) Hw)
    as [Hinv Hsrc].
  split; [exact Hinv|].
  destruct Hinv as (_ & _ & _ & _ & _ & Hsum & _).
  cbn [src init_locals] in Hsrc. lia.
Qed.

(** C6 (as amended).  For a frame whose encryption info decodes and a
    destination that is large enough, [Decrypt] returns InvalidContainerData
    exactly when
    - the scheme is 'cenc' or 'cbc1' and [crypt_byte_block] or
      [skip_byte_block] is non-zero; or
    - the walk reaches a subsample whose clear bytes exceed what remains of
      the payload, or whose protected bytes exceed what remains after the
      clear bytes; or
    - under 'cbc1' the walk reaches a subsample whose protected byte count
      is positive but below 16 or not a multiple of 16, and the CDM call for
      that subsample succeeds; or
    - the walk reaches the end of a non-empty subsample table and payload
      bytes remain.
    The walk reaches a subsample, or the end of the table, when every
    iteration before ran to its end ([reaches]): size check passed, CDM call
    successful, IV update completed.  An IV update that does not complete
    ('cens' with pattern size 0, [IncrementIv] on an IV it does not accept)
    ends [Decrypt] without a status, so nothing after it is reached. *)
Theorem invalid_container_data_iff {C : Type} {B : Build} {L : LibAvUtil}
    {I : eme.Implementation C} (m : Machine C) (enc_info : AVEncryptionInfo) :
  dest_fits m ->
  decoded_info (this m) = Some enc_info ->
  let size := Z.of_nat (length (pkt_data (packet_ (this m)))) in
  fst (Decrypt m) = Return Status.InvalidContainerData
  <-> ((scheme enc_info = kCencScheme \/ scheme enc_info = kCbc1Scheme)
       /\ (crypt_byte_block enc_info <> 0%N
           \/ skip_byte_block enc_info <> 0%N))
      \/ exists sch,
           select_scheme enc_info = inr sch
           /\ ((exists pre sub post l m1,
                  subsamples enc_info = pre ++ sub :: post
                  /\ reaches enc_info sch m pre l m1
                  /\ let remaining := size - subsamples_size pre in
                     let clear_bytes := Z.of_N (bytes_of_clear_data sub) in
                     let protected_bytes :=
                       Z.of_N (bytes_of_protected_data sub) in
                     remaining < clear_bytes
                     \/ remaining - clear_bytes < protected_bytes
                     \/ (scheme enc_info = kCbc1Scheme
                         /\ 0 < protected_bytes
                         /\ (protected_bytes < 16
                             \/ protected_bytes mod 16 <> 0)
                         /\ cdm_status (cdm m1)
                              (step_call enc_info sch sub l m1)
                            = eme.DecryptStatus.Success))
               \/ (subsamples enc_info <> []
                   /\ size - subsamples_size (subsamples enc_info) <> 0
                   /\ exists l m',
                        reaches enc_info sch m (subsamples enc_info) l m')).
Proof.
  intros Hdest Hdec size.
  rewrite (Decrypt_decoded m enc_info Hdest Hdec).
  split.
  - intros H.
    destruct (select_scheme enc_info) as [err|sch] eqn:Hsel.
    { left. apply select_scheme_invalid. unfold decrypt_info in H.
      rewrite Hsel in H. cbn in H. congruence. }
    right. exists sch. split; [reflexivity|].
    destruct (subsamples enc_info) as [|sub0 subs0] eqn:Hsubs.
    { exfalso. unfold decrypt_info in H. rewrite Hsel, Hsubs in H.
      destruct (cdm_Decrypt m _ 0) as [[st m']|]; [|discriminate].
      destruct (decrypt_status_error st) eqn:Ee; [|discriminate].
      cbn in H. injection H as ->.
      exact (decrypt_status_error_valid st Ee). }
    rewrite <- Hsubs in *.
    assert (Hne : subsamples enc_info <> []) by (rewrite Hsubs; discriminate).
    rewrite (decrypt_info_walk enc_info sch m Hsel Hne) in H.
    destruct (walk enc_info sch (subsamples enc_info) _ m) as [[l|o] m'] eqn:Hw.
    + right. split; [exact Hne|].
      destruct (reaches_remaining enc_info sch m _ l m' Hw) as [_ Hrem].
      destruct (Z.eqb_spec (total_size l) 0) as [E|E]; [discriminate|].
      split; [fold size in Hrem; lia|]. exists l, m'. exact Hw.
    + left. cbn [fst] in H. subst o.
      destruct (walk_Exit enc_info sch _ _ m m' _ Hw)
        as (pre & sub & post & l1 & m1 & Hsplit & Hpre & Hstep).
      exists pre, sub, post, l1, m1. split; [exact Hsplit|].
      split; [exact Hpre|].
      destruct (reaches_remaining enc_info sch m pre l1 m1 Hpre)
        as [Hinv Hrem].
      fold size in Hrem. cbv zeta. rewrite <- Hrem.
      destruct (proj1 (subsample_step_invalid enc_info sch m sub l1 m1 Hdest
                         Hinv) (ex_intro _ m' Hstep))
        as [Hnf|(_ & Hs & Hp & Hbad & Hst)].
      * unfold fits in Hnf. lia.
      * right. right. auto.
  - intros [Hpat|(sch & Hsel & [Hstop|(Hne & Hrest & l & m' & Hw)])].
    + apply select_scheme_invalid in Hpat. unfold decrypt_info.
      rewrite Hpat. reflexivity.
    + destruct Hstop as (pre & sub & post & l & m1 & Hsplit & Hpre & Hcase).
      destruct (reaches_remaining enc_info sch m pre l m1 Hpre)
        as [Hinv Hrem].
      fold size in Hrem. cbv zeta in Hcase. rewrite <- Hrem in Hcase.
      destruct (fun H => proj2 (subsample_step_invalid enc_info sch m sub l m1
                                  Hdest Hinv) H) as [m2 Hstep].
      { destruct (Z_le_gt_dec
                    (Z.of_N (bytes_of_clear_data sub)
                     + Z.of_N (bytes_of_protected_data sub)) (total_size l))
          as [Hf|Hnf].
        - destruct Hcase as [Hc|[Hc|Hc]]; [lia|lia|].
          right. split; [exact Hf|]. tauto.
        - left. unfold fits. lia. }
      rewrite (decrypt_info_exit enc_info sch m m1 m2 pre post sub l _ Hsel
                 Hsplit Hpre Hstep).
      reflexivity.
    + rewrite (decrypt_info_walk enc_info sch m Hsel Hne).
      destruct (reaches_remaining enc_info sch m _ l m' Hw) as [_ Hrem].
      fold size in Hrem. unfold reaches in Hw. rewrite Hw.
      destruct (Z.eqb_spec (total_size l) 0) as [E|E]; [lia|reflexivity].
Qed.

Lemma invalid_container_data_iff_witness :
  let enc_info := info_of kCbc1Scheme 0 0 (repeat x00 16) [subsample 0 17] in
  let m := machine_of tt (ramp 17) in
  fst (@Decrypt unit debug_build (decoder_of enc_info) identity_cdm m)
  = Return Status.InvalidContainerData.
Proof.
  intros enc_info m.
  apply (@invalid_container_data_iff unit debug_build (decoder_of enc_info)
           identity_cdm m enc_info).
  - unfold dest_fits. vm_compute. lia.
  - reflexivity.
  - right. exists eme.AesCbc. split; [reflexivity|]. left.
    exists [], (subsample 0 17), [],
      (init_locals enc_info (packet_ (this m))), m.
    split; [reflexivity|]. split; [reflexivity|].
    right. right. split; [reflexivity|]. split; [reflexivity|].
    split; [right; vm_compute; discriminate|]. reflexivity.
Defined.

(** C6 as the specification words it does not hold: one of the listed
    cases holds and [Decrypt] does not return InvalidContainerData.  Under
    'cbc1', for a subsample of 17 protected bytes and a CDM that reports
    KeyNotFound, [Decrypt] returns KeyNotFound. *)
Lemma invalid_container_data_not_listed_cases :
  let enc_info := info_of kCbc1Scheme 0 0 (repeat x00 16) [subsample 0 17] in
  let r :=
    run debug_build scripted_cdm [eme.DecryptStatus.KeyNotFound] enc_info
      (ramp 17) in
  fst r = Return Status.KeyNotFound
  /\ ~ (fst r = Return Status.InvalidContainerData
        <-> listed_invalid_cases enc_info 17).
Proof.
  intros enc_info r.
  assert (Hr : fst r = Return Status.KeyNotFound) by (vm_compute; reflexivity).
  split; [exact Hr|].
  intros [_ H]. rewrite Hr in H.
  assert (Habs : Return Status.KeyNotFound
                 = Return Status.InvalidContainerData); [|discriminate].
  apply H. right. right. left. split; [reflexivity|].
  exists (subsample 0 17). split; [left; reflexivity|].
  split; [reflexivity|]. right. vm_compute. discriminate.
Qed.

(** ** The scenarios of the specification *)

(** Single-subsample 'cenc', whole blocks: one call, offset 0, IV 0. *)
Example scenario_cenc_whole_block :
  let r := run debug_build identity_cdm tt
             (info_of kCencScheme 0 0 (repeat x00 16) [subsample 0 32])
             (ramp 32) in
  fst r = Return Status.Success /\ scenario_calls r = [(0, 0, 32%nat)].
Proof. split; vm_compute; reflexivity. Qed.

(** Two-subsample 'cenc' with a straddling block: the second call has
    offset 4 and the IV incremented by 1; the clear bytes are copied. *)
Example scenario_cenc_straddling :
  let r := run debug_build identity_cdm tt
             (info_of kCencScheme 0 0 (repeat x00 16)
                [subsample 4 20; subsample 4 20])
             (ramp 48) in
  fst r = Return Status.Success
  /\ scenario_calls r = [(0, 0, 20%nat); (4, 1, 20%nat)]
  /\ pkt_data (dest_packet (snd r)) = ramp 48.
Proof. repeat split; vm_compute; reflexivity. Qed.

(** 'cens' with pattern 1:9 and 160 protected bytes: increment 1. *)
Example scenario_cens_pattern :
  ctr_increment (info_of kCensScheme 1 9 (repeat x00 16) [subsample 0 160])
    0 160 = inr 1.
Proof. vm_compute. reflexivity. Qed.

(** 'cbc1' rejects a partial block (after a successful CDM call). *)
Example scenario_cbc1_partial_block :
  let r := run debug_build identity_cdm tt
             (info_of kCbc1Scheme 0 0 (repeat x00 16) [subsample 0 17])
             (ramp 17) in
  fst r = Return Status.InvalidContainerData
  /\ scenario_calls r = [(0, 0, 17%nat)].
Proof. split; vm_compute; reflexivity. Qed.

(** 'cbc1' chaining: the IV of the second call is payload bytes [0..16). *)
Example scenario_cbc1_chaining :
  let r := run debug_build identity_cdm tt
             (info_of kCbc1Scheme 0 0 (repeat x00 16)
                [subsample 0 16; subsample 0 16])
             (ramp 32) in
  fst r = Return Status.Success
  /\ map eme.call_iv (cdm_calls (snd r)) = [repeat x00 16; firstn 16 (ramp 32)].
Proof. split; vm_compute; reflexivity. Qed.

(** An unknown wire tag: NotSupported before any CDM call. *)
Example scenario_unsupported_scheme :
  let r := run debug_build identity_cdm tt
             (info_of 0 0 0 (repeat x00 16) [subsample 0 16]) (ramp 16) in
  fst r = Return Status.NotSupported /\ cdm_calls (snd r) = [].
Proof. split; vm_compute; reflexivity. Qed.


(** * Further properties of the translation unit *)

(** ** IncrementIv *)

Lemma byte_val_inj (a b : byte) : byte_val a = byte_val b -> a = b.
Proof.
  unfold byte_val. intros H. apply N2Z.inj in H.
  pose proof (Byte.of_to_N a) as Ha. pose proof (Byte.of_to_N b) as Hb.
  rewrite H in Ha. congruence.
Qed.

Lemma be_value_inj (a b : list byte) :
  length a = length b -> be_value a = be_value b -> a = b.
Proof.
  revert b. induction a as [|x a IH] using rev_ind; intros b Hlen Hval.
  - destruct b; [reflexivity|discriminate].
  - destruct b as [|y b _] using rev_ind.
    + rewrite length_app in Hlen. cbn in Hlen. lia.
    + rewrite !length_app in Hlen. cbn in Hlen.
      rewrite !be_value_snoc in Hval.
      pose proof (byte_val_range x). pose proof (byte_val_range y).
      assert (Hxy : byte_val x = byte_val y) by lia.
      assert (Hab : be_value a = be_value b) by lia.
      apply byte_val_inj in Hxy. subst y. f_equal.
      apply IH; [lia|exact Hab].
Qed.

(** A 16-byte IV is determined by its first 8 bytes and its counter. *)
Lemma iv_ext (iv1 iv2 : list byte) :
  length iv1 = 16%nat -> length iv2 = 16%nat ->
  firstn 8 iv1 = firstn 8 iv2 ->
  iv_counter iv1 = iv_counter iv2 ->
  iv1 = iv2.
Proof.
  intros H1 H2 Hf Hc.
  rewrite <- (firstn_skipn 8 iv1), <- (firstn_skipn 8 iv2). f_equal; [exact Hf|].
  apply be_value_inj; [rewrite !length_skipn; lia|exact Hc].
Qed.

(** X1.  On a 16-byte IV [IncrementIv] succeeds in either build; it adds
    [count] to the big-endian 64-bit integer in [iv[8..16]], wrapping at
    2^64 (the carry out of the low 32-bit word goes into the word above and
    no further), and leaves [iv[0..8]] and the length alone.  Adding 0
    gives the IV back. *)
Theorem IncrementIv_adds_to_counter {B : Build} (count : Z) (iv : list byte) :
  length iv = 16%nat ->
  0 <= count < 2 ^ 32 ->
  exists iv',
    IncrementIv count iv = inr iv'
    /\ length iv' = 16%nat
    /\ firstn 8 iv' = firstn 8 iv
    /\ iv_counter iv' = (iv_counter iv + count) mod 2 ^ 64
    /\ (count = 0 -> iv' = iv).
Proof.
  intros Hlen Hc.
  destruct (IncrementIv_16 count iv Hlen Hc) as (iv' & E & Hl & Hf & Hv).
  exists iv'. repeat split; try assumption.
  intros ->. apply iv_ext; try assumption.
  rewrite Hv, Z.add_0_r. apply Z.mod_small. apply iv_counter_range. exact Hlen.
Qed.

Lemma IncrementIv_adds_to_counter_witness :
  @IncrementIv release_build 1 (repeat x00 11 ++ [x01; xff; xff; xff; xff])
  = inr (repeat x00 11 ++ [x02; x00; x00; x00; x00]).
Proof.
  destruct (@IncrementIv_adds_to_counter release_build 1
              (repeat x00 11 ++ [x01; xff; xff; xff; xff]))
    as (iv' & E & _).
  - reflexivity.
  - lia.
  - rewrite E. vm_compute in E. injection E as <-. reflexivity.
Defined.

(** X2.  Increments compose: on a 16-byte IV, incrementing by [a] and then
    by [b] is incrementing by [a + b], as long as the sum is a 32-bit
    value. *)
Theorem IncrementIv_compose {B : Build} (a b : Z) (iv : list byte) :
  length iv = 16%nat ->
  0 <= a -> 0 <= b -> a + b < 2 ^ 32 ->
  exists iv1,
    IncrementIv a iv = inr iv1
    /\ IncrementIv b iv1 = IncrementIv (a + b) iv.
Proof.
  intros Hlen Ha Hb Hab.
  destruct (IncrementIv_16 a iv Hlen) as (iv1 & E1 & Hl1 & Hf1 & Hv1); [lia|].
  destruct (IncrementIv_16 b iv1 Hl1) as (iv2 & E2 & Hl2 & Hf2 & Hv2); [lia|].
  destruct (IncrementIv_16 (a + b) iv Hlen) as (iv3 & E3 & Hl3 & Hf3 & Hv3);
    [lia|].
  exists iv1. split; [exact E1|]. rewrite E2, E3. f_equal.
  apply iv_ext; try assumption; [congruence|].
  rewrite Hv2, Hv1, Hv3. rewrite Zplus_mod_idemp_l. f_equal. lia.
Qed.

Lemma IncrementIv_compose_witness :
  let iv := repeat x00 12 ++ [xff; xff; xff; xfe] in
  exists iv1,
    @IncrementIv debug_build 1 iv = inr iv1
    /\ @IncrementIv debug_build 2 iv1 = @IncrementIv debug_build 3 iv
    /\ @IncrementIv debug_build 3 iv
       = inr (repeat x00 11 ++ [x01; x00; x00; x00; x01]).
Proof.
  intros iv.
  destruct (@IncrementIv_compose debug_build 1 2 iv) as (iv1 & E1 & E2).
  - reflexivity.
  - lia.
  - lia.
  - lia.
  - exists iv1. split; [exact E1|]. split; [exact E2|].
    vm_compute. reflexivity.
Defined.

(** X3.  On an IV that does not have 16 bytes [IncrementIv] fails its size
    check when checks are compiled in.  Without checks, [at(8)] throws for
    8 bytes or fewer, 9 to 15 bytes make the counter words reach past the
    end of the vector, and more than 16 bytes are accepted: the bytes from
    16 on are kept and the length does not change. *)
Theorem IncrementIv_other_sizes {B : Build} (count : Z) (iv : list byte) :
  length iv <> 16%nat ->
  (DCHECK_IS_ON = true -> IncrementIv count iv = inl DcheckFailed)
  /\ (DCHECK_IS_ON = false ->
      ((length iv <= 8)%nat -> IncrementIv count iv = inl OutOfRange)
      /\ ((8 < length iv < 16)%nat -> IncrementIv count iv = inl OutOfBounds)
      /\ ((16 < length iv)%nat ->
          exists iv',
            IncrementIv count iv = inr iv'
            /\ length iv' = length iv
            /\ firstn 8 iv' = firstn 8 iv
            /\ skipn 16 iv' = skipn 16 iv)).
Proof.
  intros Hlen. unfold IncrementIv, dcheck_fails.
  destruct (Nat.eqb_spec (length iv) 16) as [E|_]; [contradiction|].
  cbn [negb]. split; intros ->; cbn [andb]; [reflexivity|].
  split; [|split].
  - intros H. apply Nat.leb_le in H. rewrite H. reflexivity.
  - intros [H1 H2].
    destruct (Nat.leb_spec (length iv) 8) as [H|_]; [lia|].
    apply Nat.ltb_lt in H2. rewrite H2. reflexivity.
  - intros H.
    destruct (Nat.leb_spec (length iv) 8) as [H1|_]; [lia|].
    destruct (Nat.ltb_spec (length iv) 16) as [H2|_]; [lia|].
    eexists. split; [reflexivity|].
    assert (Hset : forall (v w : list byte) i,
               (i = 0 \/ i = 1) -> length w = 4%nat -> (16 < length v)%nat ->
               length (set_counter v i w) = length v
               /\ firstn 8 (set_counter v i w) = firstn 8 v
               /\ skipn 16 (set_counter v i w) = skipn 16 v).
    { intros v w i Hi Hw Hv. unfold set_counter.
      assert (Hn : Z.to_nat (8 + 4 * i) = 8%nat \/ Z.to_nat (8 + 4 * i) = 12%nat)
        by (destruct Hi; subst i; [left|right]; reflexivity).
      set (n := Z.to_nat (8 + 4 * i)) in *.
      assert (Hfl : length (firstn n v) = n) by (rewrite length_firstn; lia).
      repeat split.
      - rewrite !length_app, Hfl, length_skipn, Hw. lia.
      - rewrite firstn_app, Hfl, firstn_firstn.
        replace (Nat.min 8 n) with 8%nat by lia.
        replace (8 - n)%nat with 0%nat by lia. cbn. apply app_nil_r.
      - rewrite skipn_app, Hfl.
        rewrite (skipn_all2 (firstn n v)) by lia. cbn [app].
        rewrite skipn_app, Hw.
        rewrite (skipn_all2 w) by lia. cbn [app].
        rewrite skipn_skipn. f_equal. lia. }
    assert (Hh : forall v, length (htonl v) = 4%nat)
      by (intros; apply be_bytes_length).
    destruct (_ <? _).
    + destruct (Hset iv (htonl (u32 (ntohl (counter iv 0) + 1))) 0)
        as (L1 & F1 & S1); auto.
      destruct (Hset (set_counter iv 0 (htonl (u32 (ntohl (counter iv 0) + 1))))
                  (htonl (u32 (ntohl (counter
                     (set_counter iv 0
                        (htonl (u32 (ntohl (counter iv 0) + 1)))) 1) + count)))
                  1) as (L2 & F2 & S2); auto; [lia|].
      repeat split; congruence.
    + destruct (Hset iv (htonl (u32 (ntohl (counter iv 1) + count))) 1)
        as (L1 & F1 & S1); auto.
Qed.

Lemma IncrementIv_other_sizes_witness :
  @IncrementIv release_build 1 (repeat x00 8) = inl OutOfRange
  /\ @IncrementIv debug_build 1 (repeat x00 8) = inl DcheckFailed.
Proof.
  destruct (@IncrementIv_other_sizes release_build 1 (repeat x00 8))
    as [_ Hr]; [cbn; lia|].
  destruct (@IncrementIv_other_sizes debug_build 1 (repeat x00 8))
    as [Hd _]; [cbn; lia|].
  split.
  - apply Hr; [reflexivity|cbn; lia].
  - apply Hd. reflexivity.
Defined.


(** ** What [Decrypt] writes *)

Lemma store_Some (buf : list byte) (pos : Z) (bs d : list byte) :
  store buf pos bs = Some d ->
  0 <= pos /\ pos + Z.of_nat (length bs) <= Z.of_nat (length buf)
  /\ d = firstn (Z.to_nat pos) buf ++ bs
         ++ skipn (Z.to_nat pos + length bs) buf.
Proof.
  unfold store.
  destruct ((0 <=? pos) && (pos + Z.of_nat (length bs) <=? Z.of_nat (length buf)))
    eqn:E; [|discriminate].
  apply andb_prop in E as [E1 E2]. apply Z.leb_le in E1, E2.
  intros [= <-]. auto.
Qed.

(** A store keeps what lies after the stored bytes ... *)
Lemma store_same_from (buf : list byte) (pos : Z) (bs d : list byte) (n : nat) :
  store buf pos bs = Some d ->
  pos + Z.of_nat (length bs) <= Z.of_nat n ->
  same_from n d buf.
Proof.
  intros Hs Hn. pose proof (store_length _ _ _ _ Hs) as Hl.
  apply store_Some in Hs as (Hp & Hb & ->). split; [exact Hl|].
  assert (Hfl : length (firstn (Z.to_nat pos) buf) = Z.to_nat pos)
    by (rewrite length_firstn; lia).
  rewrite skipn_app, Hfl, (skipn_all2 (firstn _ buf)) by lia. cbn [app].
  rewrite skipn_app, (skipn_all2 bs) by lia. cbn [app].
  rewrite skipn_skipn. f_equal. lia.
Qed.

(** ... and extends a prefix by the stored bytes. *)
Lemma store_prefix (buf : list byte) (pos : Z) (bs d : list byte) :
  store buf pos bs = Some d ->
  firstn (Z.to_nat (pos + Z.of_nat (length bs))) d
  = firstn (Z.to_nat pos) buf ++ bs.
Proof.
  intros Hs. apply store_Some in Hs as (Hp & Hb & ->).
  assert (Hfl : length (firstn (Z.to_nat pos) buf) = Z.to_nat pos)
    by (rewrite length_firstn; lia).
  rewrite app_assoc, firstn_app, length_app, Hfl.
  replace (Z.to_nat (pos + Z.of_nat (length bs)) - (Z.to_nat pos + length bs))%nat
    with 0%nat by lia.
  cbn [firstn]. rewrite app_nil_r. apply firstn_all2.
  rewrite length_app, Hfl. lia.
Qed.

Lemma same_from_trans (n : nat) (a b c : list byte) :
  same_from n a b -> same_from n b c -> same_from n a c.
Proof. intros [H1 H2] [H3 H4]. split; congruence. Qed.

Lemma same_from_refl (n : nat) (a : list byte) : same_from n a a.
Proof. split; reflexivity. Qed.

Lemma load_app_next (buf : list byte) (pos len : Z) :
  0 <= pos -> 0 <= len ->
  firstn (Z.to_nat pos) buf ++ load buf pos len
  = firstn (Z.to_nat (pos + len)) buf.
Proof.
  intros Hp Hl. unfold load.
  rewrite <- (firstn_skipn (Z.to_nat pos) buf) at 3.
  rewrite firstn_app, firstn_firstn, length_firstn.
  replace (Nat.min (Z.to_nat (pos + len)) (Z.to_nat pos)) with (Z.to_nat pos)
    by lia.
  f_equal.
  destruct (Nat.le_gt_cases (Z.to_nat pos) (length buf)) as [H|H].
  - rewrite Nat.min_l by lia. f_equal. lia.
  - rewrite (skipn_all2 buf) by lia. destruct (_ - _)%nat, (Z.to_nat len);
      reflexivity.
Qed.

Section DestContent.
Context {C : Type} {B : Build} {I : eme.Implementation C}.
Variables (enc_info : AVEncryptionInfo) (sch : eme.EncryptionScheme).

Let payload (m : Machine C) : list byte := pkt_data (packet_ (this m)).
Let out (m : Machine C) : list byte := pkt_data (dest_packet m).

(** One iteration writes only below the payload size; when it completes,
    and the CDM output (if there was a call) was the data of the call, the
    destination holds the payload up to the new position. *)
Lemma subsample_step_dest (m0 : Machine C)
    (sub : AVSubsampleEncryptionInfo) (l : Locals) (m : Machine C) :
  walk_inv m0 l m ->
  let r := subsample_step enc_info sch sub l m in
  same_from (length (payload m0)) (out (snd r)) (out m)
  /\ (copies_input I \/ bytes_of_protected_data sub = 0%N ->
      forall l', fst r = Next l' ->
      firstn (Z.to_nat (src l)) (out m) = firstn (Z.to_nat (src l)) (payload m0) ->
      firstn (Z.to_nat (src l')) (out (snd r))
      = firstn (Z.to_nat (src l')) (payload m0)).
Proof.
  intros (Ht & Hd & Hds & Hs & Htot & Hsum & Hbo). unfold subsample_step.
  set (clear := Z.of_N (bytes_of_clear_data sub)).
  set (p := Z.of_N (bytes_of_protected_data sub)).
  assert (Hc0 : 0 <= clear) by (subst clear; lia).
  assert (Hp0 : 0 <= p) by (subst p; lia).
  destruct ((total_size l <? clear) || (total_size l - clear <? p)) eqn:Eb.
  { cbn. split; [apply same_from_refl|discriminate]. }
  apply orb_false_iff in Eb as [Eb1 Eb2]. apply Z.ltb_ge in Eb1, Eb2.
  unfold memcpy_dest.
  destruct (store (pkt_data (dest_packet m)) (dest l) _) as [d1|] eqn:Es1.
  2:{ cbn. split; [apply same_from_refl|discriminate]. }
  assert (Hlen1 : Z.of_nat (length (load (pkt_data (packet_ (this m))) (src l) clear))
                  = clear).
  { apply load_length; try lia. rewrite Ht. lia. }
  assert (Hsf1 : same_from (length (payload m0)) d1 (out m)).
  { eapply store_same_from; [exact Es1|]. subst payload. cbn beta. lia. }
  assert (Hpre1 : firstn (Z.to_nat (src l)) (out m)
                  = firstn (Z.to_nat (src l)) (payload m0) ->
                  firstn (Z.to_nat (src l + clear)) d1
                  = firstn (Z.to_nat (src l + clear)) (payload m0)).
  { intros Hpre. pose proof (store_prefix _ _ _ _ Es1) as Hsp.
    rewrite Hlen1, Hds in Hsp. rewrite Hsp. fold (out m). rewrite Hpre.
    rewrite Ht. apply load_app_next; lia. }
  destruct (p =? 0) eqn:Ep.
  { cbn [fst snd]. unfold out at 1. cbn [dest_packet set_dest_data pkt_data].
    split; [exact Hsf1|]. intros _ l' [= <-] Hpre. cbn [src advance].
    apply Hpre1. exact Hpre. }
  apply Z.eqb_neq in Ep.
  unfold cdm_Decrypt. cbn [cdm dest_packet set_dest_data pkt_data this].
  destruct (eme.Decrypt (cdm m) _) as [[c' st] o] eqn:Ecall.
  cbn [eme.call_data make_call src dest advance cur_iv block_offset].
  set (data := load (pkt_data (packet_ (this m))) (src l + clear) p).
  assert (Hlend : Z.of_nat (length data) = p).
  { apply load_length; try lia. rewrite Ht. lia. }
  destruct (store d1 (dest l + clear) (firstn (length data) o)) as [d2|] eqn:Es2.
  2:{ cbn. split; [exact Hsf1|discriminate]. }
  assert (Hsf2 : same_from (length (payload m0)) d2 (out m)).
  { eapply same_from_trans; [|exact Hsf1].
    eapply store_same_from; [exact Es2|]. rewrite length_firstn.
    subst payload. cbn beta. lia. }
  destruct (decrypt_status_error st) as [err|] eqn:Ee; cbn [fst snd];
    unfold out at 1; cbn [dest_packet set_dest_data pkt_data];
    (split; [exact Hsf2|]); [discriminate|].
  intros [Hcopy|Hz] l' Hnext Hpre; [|subst p; lia].
  apply update_iv_Next in Hnext as (Hsrc' & _). cbn [src advance] in Hsrc'.
  rewrite Hsrc'. unfold out. cbn [dest_packet set_dest_data pkt_data].
  match type of Ecall with
  | eme.Decrypt ?c ?call = _ => pose proof (Hcopy c call) as Ho
  end.
  rewrite Ecall in Ho. change (o = data) in Ho. subst o.
  rewrite firstn_all in Es2.
  pose proof (store_prefix _ _ _ _ Es2) as Hsp.
  rewrite Hlend, Hds in Hsp. rewrite Hsp, (Hpre1 Hpre).
  subst data. rewrite Ht. apply load_app_next; lia.
Qed.

(** The same for a whole walk. *)
Lemma walk_dest (m0 : Machine C) (subs : list AVSubsampleEncryptionInfo)
    (l : Locals) (m : Machine C) :
  walk_inv m0 l m ->
  let r := walk enc_info sch subs l m in
  same_from (length (payload m0)) (out (snd r)) (out m)
  /\ (copies_input I
      \/ Forall (fun s => bytes_of_protected_data s = 0%N) subs ->
      forall l', fst r = Next l' ->
      firstn (Z.to_nat (src l)) (out m) = firstn (Z.to_nat (src l)) (payload m0) ->
      firstn (Z.to_nat (src l')) (out (snd r))
      = firstn (Z.to_nat (src l')) (payload m0)).
Proof.
  revert l m. induction subs as [|sub subs IH]; intros l m Hinv.
  - cbn. split; [apply same_from_refl|]. intros _ l' [= <-] H. exact H.
  - cbn [walk].
    destruct (subsample_step_dest m0 sub l m Hinv) as [Hsf Hpre].
    destruct (subsample_step enc_info sch sub l m) as [[l1|o] m1] eqn:Es;
      cbn [fst snd] in Hsf, Hpre.
    + destruct (subsample_step_inv enc_info sch m0 sub l l1 m m1 Hinv Es)
        as [Hinv1 _].
      destruct (IH l1 m1 Hinv1) as [Hsf1 Hpre1]. cbv zeta. split.
      * eapply same_from_trans; eassumption.
      * intros Hc l' Hn H0. apply Hpre1; [| exact Hn |].
        -- destruct Hc as [Hc|Hc]; [left; exact Hc|right].
           inversion Hc; assumption.
        -- apply Hpre; [|reflexivity|exact H0].
           destruct Hc as [Hc|Hc]; [left; exact Hc|right].
           inversion Hc; assumption.
    + cbv zeta. cbn [fst snd]. split; [exact Hsf|discriminate].
Qed.

End DestContent.


Lemma same_from_rebuild (n : nat) (a b p : list byte) :
  same_from n a b -> firstn n a = p -> a = p ++ skipn n b.
Proof.
  intros [_ Hs] Hf. rewrite <- (firstn_skipn n a). congruence.
Qed.

Section DecryptDest.
Context {C : Type} {B : Build} {I : eme.Implementation C}.
Variables (enc_info : AVEncryptionInfo) (sch : eme.EncryptionScheme).

(** What makes the IV update leave defined behaviour on a 16-byte IV. *)
Lemma update_iv_Abort (packet : AVPacket) (p : Z) (l : Locals) (f : Fault) :
  length (cur_iv l) = 16%nat ->
  update_iv enc_info packet p l = Exit (Abort f) ->
  f = DivisionByZero
  /\ scheme enc_info = kCensScheme
  /\ pattern_size enc_info = 0.
Proof.
  intros Hlen. unfold update_iv.
  destruct (N.eqb_spec (scheme enc_info) kCencScheme) as [E1|E1]; cbn [orb].
  { destruct (ctr_increment _ _ _) as [f'|inc] eqn:Ei.
    - unfold ctr_increment in Ei. rewrite E1 in Ei. discriminate.
    - apply ctr_increment_range in Ei.
      destruct (IncrementIv_16 inc (cur_iv l) Hlen Ei) as (iv' & E & _).
      rewrite E. discriminate. }
  destruct (N.eqb_spec (scheme enc_info) kCensScheme) as [E2|E2].
  { destruct (ctr_increment _ _ _) as [f'|inc] eqn:Ei.
    - unfold ctr_increment in Ei.
      apply N.eqb_neq in E1. rewrite E1 in Ei.
      fold (pattern_size enc_info) in Ei.
      destruct (Z.eqb_spec (pattern_size enc_info) 0) as [Hz|Hz];
        [|destruct (_ <=? _); discriminate].
      injection Ei as <-. intros [= <-]. auto.
    - apply ctr_increment_range in Ei.
      destruct (IncrementIv_16 inc (cur_iv l) Hlen Ei) as (iv' & E & _).
      rewrite E. discriminate. }
  destruct (N.eqb _ _); [destruct (_ || _)|]; discriminate.
Qed.

(** On a 16-byte IV and with a destination that is large enough, a walk
    leaves defined behaviour only by dividing by a zero pattern size. *)
Lemma walk_Abort (m0 : Machine C) (subs : list AVSubsampleEncryptionInfo)
    (l : Locals) (m : Machine C) (f : Fault) :
  dest_fits m0 ->
  walk_inv m0 l m ->
  length (cur_iv l) = 16%nat ->
  fst (walk enc_info sch subs l m) = Exit (Abort f) ->
  f = DivisionByZero
  /\ scheme enc_info = kCensScheme
  /\ pattern_size enc_info = 0.
Proof.
  intros Hdest. revert l m.
  induction subs as [|sub subs IH]; intros l m Hinv Hlen; [discriminate|].
  cbn [walk]. first_step V Er; try discriminate.
  - exfalso. destruct Hinv as (Ht & Hd & Hds & Hs & Htot & Hsum & Hbo).
    unfold dest_fits, fits in *.
    match goal with H : ~ _ |- _ => apply H end. lia.
  - destruct (subsample_step_inv enc_info sch m0 sub l _ m m' Hinv Er)
      as [Hinv1 _].
    apply IH; assumption.
  - destruct (update_iv _ _ _ _) as [l1|o] eqn:Eu.
    + destruct (subsample_step_inv enc_info sch m0 sub l l1 m m' Hinv Er)
        as [Hinv1 _].
      apply IH; [exact Hinv1|].
      apply (walk_iv_length enc_info sch m0 [sub] l l1 m m' Hinv Hlen).
      cbn [walk]. rewrite Er. reflexivity.
    + cbn [fst]. intros [= ->].
      apply update_iv_Abort in Eu; assumption.
Qed.

End DecryptDest.

(** X4.  What [Decrypt] can do to a well-formed frame.  For a frame whose
    encryption info decodes and has a 16-byte IV, and a destination at
    least as large as the payload, [Decrypt] returns a status in either
    build, with one exception: it can divide by zero, and only for a 'cens'
    frame whose pattern size is 0.  No check fails, no access is out of
    range or out of bounds. *)
Theorem Decrypt_defined {C : Type} {B : Build} {L : LibAvUtil}
    {I : eme.Implementation C} (m : Machine C) (enc_info : AVEncryptionInfo)
    (f : Fault) :
  dest_fits m ->
  decoded_info (this m) = Some enc_info ->
  length (iv enc_info) = 16%nat ->
  fst (Decrypt m) = Abort f ->
  f = DivisionByZero
  /\ scheme enc_info = kCensScheme
  /\ pattern_size enc_info = 0.
Proof.
  intros Hdest Hdec Hlen.
  rewrite (Decrypt_decoded m enc_info Hdest Hdec). unfold decrypt_info.
  destruct (select_scheme enc_info) as [err|sch]; [discriminate|].
  destruct (subsamples enc_info) as [|sub subs] eqn:Es.
  - destruct (cdm_Decrypt m _ 0) as [[st m']|] eqn:Ed.
    + destruct (decrypt_status_error st); discriminate.
    + exfalso. apply cdm_Decrypt_None in Ed. apply Ed.
      unfold dest_fits in Hdest. cbn. lia.
  - pose proof (walk_Abort enc_info sch m (sub :: subs)
                  (init_locals enc_info (packet_ (this m))) m f Hdest
                  (init_inv enc_info m) Hlen) as Hw.
    destruct (walk enc_info sch (sub :: subs) _ m) as [[l|o] m'].
    + destruct (negb _); discriminate.
    + cbn [fst] in *. intros ->. apply Hw. reflexivity.
Qed.

Lemma Decrypt_defined_witness :
  let enc_info := info_of kCensScheme 0 0 (repeat x00 16) [subsample 0 16] in
  let m := machine_of tt (ramp 16) in
  fst (@Decrypt unit release_build (decoder_of enc_info) identity_cdm m)
  = Abort DivisionByZero
  /\ scheme enc_info = kCensScheme /\ pattern_size enc_info = 0.
Proof.
  intros enc_info m.
  assert (E : fst (@Decrypt unit release_build (decoder_of enc_info)
                     identity_cdm m) = Abort DivisionByZero)
    by (vm_compute; reflexivity).
  split; [exact E|].
  apply (@Decrypt_defined unit release_build (decoder_of enc_info)
           identity_cdm m enc_info DivisionByZero).
  - unfold dest_fits. vm_compute. lia.
  - reflexivity.
  - reflexivity.
  - exact E.
Defined.

Section ClearOnly.
Context {C : Type} {B : Build} {I : eme.Implementation C}.
Variables (enc_info : AVEncryptionInfo) (sch : eme.EncryptionScheme).

(** A walk over subsamples without protected bytes that fit goes through
    without a CDM call. *)
Lemma walk_clear_total (m0 : Machine C)
    (subs : list AVSubsampleEncryptionInfo) (l : Locals) (m : Machine C) :
  dest_fits m0 ->
  walk_inv m0 l m ->
  Forall (fun s => bytes_of_protected_data s = 0%N) subs ->
  subsamples_size subs <= total_size l ->
  exists l' m',
    walk enc_info sch subs l m = (Next l', m')
    /\ cdm_calls m' = cdm_calls m /\ cdm m' = cdm m.
Proof.
  intros Hdest Hinv Hall. revert l m Hinv.
  induction Hall as [|sub subs Hp Hall IH]; intros l m Hinv Hsize.
  - exists l, m. auto.
  - cbn [subsamples_size fold_right] in Hsize. fold (subsamples_size subs) in Hsize.
    assert (H0 : 0 <= subsamples_size subs).
    { clear. induction subs as [|s subs IHs]; cbn; [lia|].
      fold (subsamples_size subs). lia. }
    cbn [walk]. first_step V Er.
    + exfalso. unfold fits in *. lia.
    + exfalso. destruct Hinv as (Ht & Hd & Hds & Hs & Htot & Hsum & Hbo).
      unfold dest_fits, fits in *.
      match goal with H : ~ _ |- _ => apply H end. lia.
    + destruct (subsample_step_inv enc_info sch m0 sub l _ m m' Hinv Er)
        as [Hinv1 _].
      destruct (IH _ m' Hinv1) as (l' & m'' & Hw & Hc & Hcdm);
        [cbn [total_size advance]; lia|].
      exists l', m''. split; [exact Hw|]. split; congruence.
    + lia.
    + lia.
Qed.

End ClearOnly.

(** X5.  Clear-only frames pass through.  For a supported scheme and a
    non-empty subsample table in which no subsample has protected bytes and
    whose clear bytes add up to the payload size, [Decrypt] returns
    Success, never calls the CDM, and leaves the payload at the start of
    the destination, the rest of the destination being as before. *)
Theorem Decrypt_clear_only {C : Type} {B : Build} {L : LibAvUtil}
    {I : eme.Implementation C} (m : Machine C) (enc_info : AVEncryptionInfo)
    (sch : eme.EncryptionScheme) :
  dest_fits m ->
  decoded_info (this m) = Some enc_info ->
  select_scheme enc_info = inr sch ->
  subsamples enc_info <> [] ->
  Forall (fun s => bytes_of_protected_data s = 0%N) (subsamples enc_info) ->
  subsamples_size (subsamples enc_info)
  = Z.of_nat (length (pkt_data (packet_ (this m)))) ->
  let payload := pkt_data (packet_ (this m)) in
  fst (Decrypt m) = Return Status.Success
  /\ cdm_calls (snd (Decrypt m)) = cdm_calls m
  /\ cdm (snd (Decrypt m)) = cdm m
  /\ pkt_data (dest_packet (snd (Decrypt m)))
     = payload ++ skipn (length payload) (pkt_data (dest_packet m)).
Proof.
  intros Hdest Hdec Hsel Hne Hall Hsize payload.
  rewrite (Decrypt_decoded m enc_info Hdest Hdec).
  rewrite (decrypt_info_walk enc_info sch m Hsel Hne).
  destruct (walk_clear_total enc_info sch m (subsamples enc_info)
              (init_locals enc_info (packet_ (this m))) m Hdest
              (init_inv enc_info m) Hall)
    as (l' & m' & Hw & Hc & Hcdm); [cbn; lia|].
  destruct (walk_dest enc_info sch m (subsamples enc_info) _ m
              (init_inv enc_info m)) as [Hsf Hpre].
  destruct (reaches_remaining enc_info sch m _ l' m' Hw) as [Hinv' Hrem].
  rewrite Hw in *. cbn [fst snd] in Hsf, Hpre.
  assert (Hz : total_size l' = 0) by lia.
  rewrite Hz. cbn [Z.eqb negb fst snd].
  repeat split; try assumption.
  apply (same_from_rebuild (length payload)); [exact Hsf|].
  destruct Hinv' as (_ & _ & _ & _ & _ & Hsum & _).
  specialize (Hpre (or_intror Hall) l' eq_refl eq_refl).
  replace (Z.to_nat (src l')) with (length payload) in Hpre
    by (subst payload; lia).
  rewrite Hpre. apply firstn_all.
Qed.

Lemma Decrypt_clear_only_witness :
  let enc_info :=
    info_of kCensScheme 0 0 (repeat x00 8) [subsample 3 0; subsample 5 0] in
  let m := machine_of tt (ramp 8) in
  let r := @Decrypt unit debug_build (decoder_of enc_info) identity_cdm m in
  fst r = Return Status.Success
  /\ cdm_calls (snd r) = []
  /\ pkt_data (dest_packet (snd r)) = ramp 8.
Proof.
  intros enc_info m r.
  destruct (@Decrypt_clear_only unit debug_build (decoder_of enc_info)
              identity_cdm m enc_info eme.AesCtr) as (H1 & H2 & _ & H4).
  - unfold dest_fits. vm_compute. lia.
  - reflexivity.
  - reflexivity.
  - discriminate.
  - repeat constructor.
  - reflexivity.
  - split; [exact H1|]. split; [exact H2|]. unfold r. rewrite H4.
    vm_compute. reflexivity.
Defined.

Lemma select_scheme_inl (enc_info : AVEncryptionInfo) (err : Status.Status) :
  select_scheme enc_info = inl err ->
  err = Status.InvalidContainerData \/ err = Status.NotSupported.
Proof.
  unfold select_scheme.
  repeat match goal with
         | |- context [if ?b then _ else _] => destruct b
         end; intros [= <-]; auto.
Qed.

(** X6.  With a CDM that writes its input to the destination, a [Decrypt]
    that returns Success has produced the payload: the destination starts
    with the payload and is as before from the payload size on. *)
Theorem Decrypt_copying_cdm {C : Type} {B : Build} {L : LibAvUtil}
    {I : eme.Implementation C} (m : Machine C) (enc_info : AVEncryptionInfo) :
  dest_fits m ->
  decoded_info (this m) = Some enc_info ->
  copies_input I ->
  fst (Decrypt m) = Return Status.Success ->
  let payload := pkt_data (packet_ (this m)) in
  pkt_data (dest_packet (snd (Decrypt m)))
  = payload ++ skipn (length payload) (pkt_data (dest_packet m)).
Proof.
  intros Hdest Hdec Hcopy Hs payload. revert Hs.
  rewrite (Decrypt_decoded m enc_info Hdest Hdec).
  unfold decrypt_info.
  destruct (select_scheme enc_info) as [err|sch] eqn:Hsel.
  { apply select_scheme_inl in Hsel. cbn [fst]. intros [= ->].
    destruct Hsel; discriminate. }
  destruct (subsamples enc_info) as [|sub subs] eqn:Es.
  - unfold cdm_Decrypt.
    pose proof (Hcopy (cdm m)
                  (make_call enc_info sch 0 (iv enc_info)
                     (pkt_data (packet_ (this m))))) as Ho.
    destruct (eme.Decrypt (cdm m) _) as [[c' st] o]. cbn in Ho. subst o.
    cbn [eme.call_data make_call]. rewrite firstn_all.
    destruct (store _ 0 _) as [d|] eqn:Est; [|discriminate].
    intros _.
    apply store_Some in Est as (_ & _ & ->).
    destruct (decrypt_status_error st); reflexivity.
  - destruct (walk_dest enc_info sch m (sub :: subs)
                (init_locals enc_info (packet_ (this m))) m
                (init_inv enc_info m)) as [Hsf Hpre].
    destruct (walk enc_info sch (sub :: subs) _ m) as [[l'|o] m'] eqn:Hw;
      cbn [fst snd] in Hsf, Hpre.
    + destruct (walk_Next_inv enc_info sch m (sub :: subs) _ l' m m'
                  (init_inv enc_info m) Hw) as [Hinv' _].
      destruct (Z.eqb_spec (total_size l') 0) as [Hz|Hz]; [|discriminate].
      cbn [negb fst snd]. intros _.
      apply (same_from_rebuild (length payload)); [exact Hsf|].
      destruct Hinv' as (_ & _ & _ & _ & _ & Hsum & _).
      specialize (Hpre (or_introl Hcopy) l' eq_refl eq_refl).
      replace (Z.to_nat (src l')) with (length payload) in Hpre
        by (subst payload; lia).
      rewrite Hpre. apply firstn_all.
    + cbn [fst snd]. intros ->.
      exfalso.
      destruct (walk_Exit enc_info sch _ _ m m' _ Hw)
        as (pre & sub' & post & l1 & m1 & _ & _ & Hstep).
      pose proof (subsample_step_view enc_info sch sub' l1 m1) as V.
      rewrite Hstep in V. inversion V; subst.
      * match goal with
        | H : decrypt_status_error ?s = Some _ |- _ =>
            destruct s; discriminate
        end.
      * match goal with
        | H : update_iv _ _ _ _ = Exit (Return Status.Success) |- _ =>
            apply update_iv_Return in H as (H & _); discriminate
        end.
Qed.

Lemma Decrypt_copying_cdm_witness :
  let enc_info :=
    info_of kCbc1Scheme 0 0 (repeat x00 16) [subsample 3 16; subsample 5 32] in
  let m := machine_with_dest tt (ramp 56) (repeat xff 60) in
  let r := @Decrypt unit debug_build (decoder_of enc_info) identity_cdm m in
  fst r = Return Status.Success
  /\ pkt_data (dest_packet (snd r)) = ramp 56 ++ repeat xff 4.
Proof.
  intros enc_info m r.
  assert (Hs : fst r = Return Status.Success) by (vm_compute; reflexivity).
  split; [exact Hs|].
  unfold r.
  rewrite (@Decrypt_copying_cdm unit debug_build (decoder_of enc_info)
             identity_cdm m enc_info).
  - vm_compute. reflexivity.
  - unfold dest_fits. vm_compute. lia.
  - reflexivity.
  - intros c call. reflexivity.
  - exact Hs.
Defined.

(** X7.  [Decrypt] writes only over the first [packet_.size] bytes of a
    destination that is large enough: whatever the outcome, the destination
    keeps its length and its bytes from that index on. *)
Theorem Decrypt_dest_tail {C : Type} {B : Build} {L : LibAvUtil}
    {I : eme.Implementation C} (m : Machine C) :
  dest_fits m ->
  let size := length (pkt_data (packet_ (this m))) in
  length (pkt_data (dest_packet (snd (Decrypt m))))
  = length (pkt_data (dest_packet m))
  /\ skipn size (pkt_data (dest_packet (snd (Decrypt m))))
     = skipn size (pkt_data (dest_packet m)).
Proof.
  intros _ size. change (same_from size
                           (pkt_data (dest_packet (snd (Decrypt m))))
                           (pkt_data (dest_packet m))).
  unfold Decrypt.
  destruct (dcheck_fails _); [apply same_from_refl|].
  destruct (dcheck_fails _); [apply same_from_refl|].
  destruct (av_packet_get_side_data _ _) as [sd|]; [|apply same_from_refl].
  destruct (av_encryption_info_get_side_data sd) as [enc_info|];
    [|apply same_from_refl].
  unfold decrypt_info.
  destruct (select_scheme enc_info) as [err|sch]; [apply same_from_refl|].
  destruct (subsamples enc_info) as [|sub subs].
  - unfold cdm_Decrypt.
    destruct (eme.Decrypt (cdm m) _) as [[c' st] o].
    destruct (store _ 0 _) as [d|] eqn:Est; [|apply same_from_refl].
    assert (Hsf : same_from size d (pkt_data (dest_packet m))).
    { eapply store_same_from; [exact Est|]. rewrite length_firstn.
      cbn [eme.call_data make_call]. subst size. lia. }
    destruct (decrypt_status_error st); exact Hsf.
  - destruct (walk_dest enc_info sch m (sub :: subs)
                (init_locals enc_info (packet_ (this m))) m
                (init_inv enc_info m)) as [Hsf _].
    destruct (walk enc_info sch (sub :: subs) _ m) as [[l'|o] m'];
      [destruct (negb _)|]; exact Hsf.
Qed.

Lemma Decrypt_dest_tail_witness :
  let enc_info :=
    info_of kCencScheme 0 0 (repeat x00 16) [subsample 4 20; subsample 4 99] in
  let m := machine_with_dest tt (ramp 48) (repeat xff 50) in
  let r := @Decrypt unit debug_build (decoder_of enc_info) identity_cdm m in
  fst r = Return Status.InvalidContainerData
  /\ length (pkt_data (dest_packet (snd r))) = 50%nat
  /\ skipn 48 (pkt_data (dest_packet (snd r))) = [xff; xff].
Proof.
  intros enc_info m r.
  destruct (@Decrypt_dest_tail unit debug_build (decoder_of enc_info)
              identity_cdm m) as [Hl Ht].
  - unfold dest_fits. vm_compute. lia.
  - split; [vm_compute; reflexivity|]. split.
    + unfold r. rewrite Hl. reflexivity.
    + unfold r. change 48%nat with (length (pkt_data (packet_ (this m)))).
      rewrite Ht. reflexivity.
Defined.

(** X8.  Length conservation.  When [Decrypt] returns Success on a frame
    with a non-empty subsample table, the clear and protected byte counts
    of the table add up to the payload size exactly. *)
Theorem Decrypt_length_conservation {C : Type} {B : Build} {L : LibAvUtil}
    {I : eme.Implementation C} (m : Machine C) (enc_info : AVEncryptionInfo) :
  dest_fits m ->
  decoded_info (this m) = Some enc_info ->
  subsamples enc_info <> [] ->
  fst (Decrypt m) = Return Status.Success ->
  subsamples_size (subsamples enc_info)
  = Z.of_nat (length (pkt_data (packet_ (this m)))).
Proof.
  intros Hdest Hdec Hne. rewrite (Decrypt_decoded m enc_info Hdest Hdec).
  destruct (select_scheme enc_info) as [err|sch] eqn:Hsel.
  { unfold decrypt_info. rewrite Hsel. cbn [fst]. intros [= ->].
    apply select_scheme_inl in Hsel. destruct Hsel; discriminate. }
  rewrite (decrypt_info_walk enc_info sch m Hsel Hne).
  destruct (walk enc_info sch (subsamples enc_info) _ m) as [[l'|o] m'] eqn:Hw.
  - destruct (reaches_remaining enc_info sch m _ l' m' Hw) as [_ Hrem].
    destruct (Z.eqb_spec (total_size l') 0) as [Hz|Hz]; [|discriminate].
    intros _. lia.
  - cbn [fst]. intros ->. exfalso.
    destruct (walk_Exit enc_info sch _ _ m m' _ Hw)
      as (pre & sub' & post & l1 & m1 & _ & _ & Hstep).
    pose proof (subsample_step_view enc_info sch sub' l1 m1) as V.
    rewrite Hstep in V. inversion V; subst.
    + match goal with
      | H : decrypt_status_error ?s = Some _ |- _ => destruct s; discriminate
      end.
    + match goal with
      | H : update_iv _ _ _ _ = Exit (Return Status.Success) |- _ =>
          apply update_iv_Return in H as (H & _); discriminate
      end.
Qed.

Lemma Decrypt_length_conservation_witness :
  let enc_info :=
    info_of kCbcsScheme 1 9 (repeat x00 16) [subsample 4 20; subsample 4 20] in
  let m := machine_of tt (ramp 48) in
  fst (@Decrypt unit debug_build (decoder_of enc_info) identity_cdm m)
  = Return Status.Success
  /\ subsamples_size (subsamples enc_info) = 48.
Proof.
  intros enc_info m.
  assert (Hs : fst (@Decrypt unit debug_build (decoder_of enc_info)
                      identity_cdm m) = Return Status.Success)
    by (vm_compute; reflexivity).
  split; [exact Hs|].
  rewrite (@Decrypt_length_conservation unit debug_build (decoder_of enc_info)
             identity_cdm m enc_info).
  - reflexivity.
  - unfold dest_fits. vm_compute. lia.
  - reflexivity.
  - discriminate.
  - exact Hs.
Defined.


(** ** What [Decrypt] presents to the CDM *)

Section CallShape.
Context {C : Type} {B : Build} {I : eme.Implementation C}.
Variables (enc_info : AVEncryptionInfo) (sch : eme.EncryptionScheme).

(** The calls of a walk, for every scheme: the data are the protected
    regions in order (all of them when the walk goes through), and key id,
    pattern and mode are those of the encryption info. *)
Lemma walk_calls_shape (m0 : Machine C)
    (subs : list AVSubsampleEncryptionInfo) (l : Locals) (m : Machine C) :
  walk_inv m0 l m ->
  let regions :=
    protected_regions (pkt_data (packet_ (this m0))) (src l) subs in
  exists trace,
    cdm_calls (snd (walk enc_info sch subs l m)) = cdm_calls m ++ trace
    /\ map eme.call_data trace = firstn (length trace) regions
    /\ ((exists l', fst (walk enc_info sch subs l m) = Next l') ->
        map eme.call_data trace = regions)
    /\ Forall (fun c =>
                 eme.call_scheme c = sch
                 /\ eme.call_key_id c = key_id enc_info
                 /\ eme.call_pattern c
                    = {| eme.pattern_crypt := crypt_byte_block enc_info;
                         eme.pattern_skip := skip_byte_block enc_info |}
                 /\ 0 <= eme.call_block_offset c < 16
                 /\ eme.call_data c <> []) trace.
Proof.
  revert l m. induction subs as [|sub subs IH]; intros l m Hinv regions.
  - exists []. cbn. rewrite app_nil_r. auto.
  - assert (Hthis : this m = this m0) by (destruct Hinv; assumption).
    assert (Hcall : 0 < Z.of_N (bytes_of_protected_data sub) -> fits sub l ->
              (eme.call_scheme (step_call enc_info sch sub l m) = sch
               /\ eme.call_key_id (step_call enc_info sch sub l m)
                  = key_id enc_info
               /\ eme.call_pattern (step_call enc_info sch sub l m)
                  = {| eme.pattern_crypt := crypt_byte_block enc_info;
                       eme.pattern_skip := skip_byte_block enc_info |}
               /\ 0 <= eme.call_block_offset (step_call enc_info sch sub l m)
                  < 16
               /\ eme.call_data (step_call enc_info sch sub l m) <> [])
              /\ regions
                 = eme.call_data (step_call enc_info sch sub l m)
                   :: protected_regions (pkt_data (packet_ (this m0)))
                        (src l + Z.of_N (bytes_of_clear_data sub)
                         + Z.of_N (bytes_of_protected_data sub)) subs).
    { intros Hp Hf. destruct Hinv as (_ & _ & _ & Hs & Htot & Hsum & Hbo).
      split.
      - cbn. repeat split; try lia.
        intros E. apply (f_equal (@length byte)) in E.
        apply (f_equal Z.of_nat) in E. unfold fits in Hf.
        rewrite load_length in E by (rewrite ?Hthis; lia). cbn in E. lia.
      - subst regions. cbn [protected_regions].
        destruct (Z.of_N (bytes_of_protected_data sub) =? 0) eqn:E;
          [apply Z.eqb_eq in E; lia|].
        cbn. rewrite Hthis. reflexivity. }
    cbn [walk]. first_step V Er.
    + exists []. cbn. rewrite app_nil_r.
      split; [auto|]. split; [auto|]. split; [|constructor].
      intros [l' Hn]. discriminate.
    + exists []. cbn. rewrite app_nil_r.
      split; [auto|]. split; [auto|]. split; [|constructor].
      intros [l' Hn]. discriminate.
    + destruct (subsample_step_inv enc_info sch m0 sub l _ m m' Hinv Er)
        as [Hinv1 _].
      destruct (IH _ m' Hinv1) as (trace & Ht & Hd & Hall & Hf).
      exists trace. split; [congruence|].
      subst regions. cbn [protected_regions].
      match goal with H : bytes_of_protected_data sub = 0%N |- _ => rewrite H end.
      cbn [Z.of_N Z.eqb]. cbn [src advance] in Hd, Hall.
      rewrite Z.add_0_r. auto.
    + destruct Hcall as [Hc Hreg]; [assumption|assumption|].
      exists [step_call enc_info sch sub l m]. cbn [snd fst].
      split; [assumption|]. rewrite Hreg.
      split; [reflexivity|]. split; [intros [l' Hn]; discriminate|].
      constructor; [exact Hc|constructor].
    + destruct Hcall as [Hc Hreg]; [assumption|assumption|].
      destruct (update_iv _ _ _ _) as [l1|o] eqn:Eu.
      * destruct (subsample_step_inv enc_info sch m0 sub l l1 m m' Hinv Er)
          as [Hinv1 Hsrc1].
        destruct (IH l1 m' Hinv1) as (trace & Ht & Hd & Hall & Hf).
        exists (step_call enc_info sch sub l m :: trace). split.
        { rewrite Ht.
          match goal with H : cdm_calls m' = _ |- _ => rewrite H end.
          rewrite <- app_assoc. reflexivity. }
        rewrite Hreg. cbn [map length firstn]. rewrite Hsrc1 in Hd, Hall.
        split; [f_equal; exact Hd|].
        split; [intros Hn; f_equal; apply Hall; exact Hn|].
        constructor; assumption.
      * exists [step_call enc_info sch sub l m]. cbn [snd fst].
        split; [assumption|]. rewrite Hreg.
        split; [reflexivity|]. split; [intros [l' Hn]; discriminate|].
        constructor; [exact Hc|constructor].
Qed.

(** Outside the CTR schemes the block offset never moves, and outside
    'cbc1' as well the IV never moves. *)
Lemma walk_cbc_calls (m0 : Machine C)
    (subs : list AVSubsampleEncryptionInfo) (l : Locals) (m : Machine C) :
  scheme enc_info <> kCencScheme ->
  scheme enc_info <> kCensScheme ->
  walk_inv m0 l m ->
  exists trace,
    cdm_calls (snd (walk enc_info sch subs l m)) = cdm_calls m ++ trace
    /\ Forall (fun c => eme.call_block_offset c = block_offset l) trace
    /\ (scheme enc_info <> kCbc1Scheme ->
        Forall (fun c => eme.call_iv c = cur_iv l) trace).
Proof.
  intros H1 H2. revert l m.
  induction subs as [|sub subs IH]; intros l m Hinv.
  - exists []. cbn. rewrite app_nil_r. auto.
  - cbn [walk]. first_step V Er.
    + exists []. cbn. rewrite app_nil_r. auto.
    + exists []. cbn. rewrite app_nil_r. auto.
    + destruct (subsample_step_inv enc_info sch m0 sub l _ m m' Hinv Er)
        as [Hinv1 _].
      destruct (IH _ m' Hinv1) as (trace & Ht & Hb & Hi).
      exists trace. split; [congruence|]. auto.
    + exists [step_call enc_info sch sub l m]. cbn [snd].
      split; [assumption|]. split; [|intros _]; repeat constructor.
    + destruct (update_iv _ _ _ _) as [l1|o] eqn:Eu.
      * destruct (subsample_step_inv enc_info sch m0 sub l l1 m m' Hinv Er)
          as [Hinv1 _].
        destruct (IH l1 m' Hinv1) as (trace & Ht & Hb & Hi).
        assert (Hbo1 : block_offset l1 = block_offset l
                       /\ (scheme enc_info <> kCbc1Scheme ->
                           cur_iv l1 = cur_iv l)).
        { revert Eu. unfold update_iv.
          apply N.eqb_neq in H1, H2. rewrite H1, H2. cbn [orb].
          destruct (N.eqb_spec (scheme enc_info) kCbc1Scheme) as [E3|E3].
          - destruct (_ || _); [discriminate|]. intros [= <-]. cbn.
            split; [reflexivity|]. intros Hn. contradiction.
          - intros [= <-]. cbn. auto. }
        destruct Hbo1 as [Hbo1 Hiv1].
        exists (step_call enc_info sch sub l m :: trace). split.
        { rewrite Ht.
          match goal with H : cdm_calls m' = _ |- _ => rewrite H end.
          rewrite <- app_assoc. reflexivity. }
        split.
        -- constructor; [reflexivity|]. rewrite <- Hbo1. exact Hb.
        -- intros Hn3. constructor; [reflexivity|].
           rewrite <- (Hiv1 Hn3). apply Hi. exact Hn3.
      * exists [step_call enc_info sch sub l m]. cbn [snd].
        split; [assumption|]. split; [|intros _]; repeat constructor.
Qed.

End CallShape.

Lemma select_scheme_inr (enc_info : AVEncryptionInfo)
    (sch : eme.EncryptionScheme) :
  select_scheme enc_info = inr sch -> sch = scheme_mode enc_info.
Proof.
  unfold select_scheme, scheme_mode.
  destruct (N.eqb (scheme enc_info) kCencScheme).
  { destruct (_ || _); [discriminate|]. intros [= <-]. reflexivity. }
  destruct (N.eqb (scheme enc_info) kCensScheme); [intros [= <-]; reflexivity|].
  destruct (N.eqb (scheme enc_info) kCbc1Scheme).
  { destruct (_ || _); [discriminate|]. intros [= <-]. reflexivity. }
  destruct (N.eqb (scheme enc_info) kCbcsScheme); [|discriminate].
  intros [= <-]. reflexivity.
Qed.

(** No iteration returns Success: that is left to the end of [Decrypt]. *)
Lemma walk_not_Success {C : Type} {B : Build} {I : eme.Implementation C}
    (enc_info : AVEncryptionInfo) (sch : eme.EncryptionScheme)
    (subs : list AVSubsampleEncryptionInfo) (l : Locals) (m : Machine C) :
  fst (walk enc_info sch subs l m) <> Exit (Return Status.Success).
Proof.
  destruct (walk enc_info sch subs l m) as [[l'|o] m'] eqn:Hw; [discriminate|].
  cbn [fst]. intros [= ->].
  destruct (walk_Exit enc_info sch _ _ m m' _ Hw)
    as (pre & sub' & post & l1 & m1 & _ & _ & Hstep).
  pose proof (subsample_step_view enc_info sch sub' l1 m1) as V.
  rewrite Hstep in V. inversion V; subst.
  - match goal with
    | H : decrypt_status_error ?s = Some _ |- _ => destruct s; discriminate
    end.
  - match goal with
    | H : update_iv _ _ _ _ = Exit (Return Status.Success) |- _ =>
        apply update_iv_Return in H as (H & _); discriminate
    end.
Qed.

(** X9.  Under the CBC schemes the block offset presented to the CDM is
    always 0, and under 'cbcs' every CDM call is made with the IV of the
    encryption info, whatever its length. *)
Theorem cbc_calls_constant {C : Type} {B : Build} {L : LibAvUtil}
    {I : eme.Implementation C} (m : Machine C) (enc_info : AVEncryptionInfo) :
  decoded_info (this m) = Some enc_info ->
  scheme enc_info = kCbc1Scheme \/ scheme enc_info = kCbcsScheme ->
  let trace := calls_since m (snd (Decrypt m)) in
  Forall (fun c => eme.call_block_offset c = 0) trace
  /\ (scheme enc_info = kCbcsScheme ->
      Forall (fun c => eme.call_iv c = iv enc_info) trace).
Proof.
  intros Hdec Hs.
  assert (H1 : scheme enc_info <> kCencScheme)
    by (destruct Hs as [E|E]; rewrite E; discriminate).
  assert (H2 : scheme enc_info <> kCensScheme)
    by (destruct Hs as [E|E]; rewrite E; discriminate).
  assert (Hnil : forall m', cdm_calls m' = cdm_calls m ->
            Forall (fun c => eme.call_block_offset c = 0) (calls_since m m')
            /\ (scheme enc_info = kCbcsScheme ->
                Forall (fun c => eme.call_iv c = iv enc_info)
                  (calls_since m m'))).
  { intros m' E. rewrite (calls_since_refl _ _ E). auto. }
  unfold Decrypt.
  destruct (dcheck_fails _); [apply Hnil; reflexivity|].
  destruct (dcheck_fails _); [apply Hnil; reflexivity|].
  unfold decoded_info in Hdec.
  destruct (av_packet_get_side_data _ _) as [sd|]; [|discriminate].
  rewrite Hdec. cbv zeta. unfold decrypt_info.
  destruct (select_scheme enc_info) as [err|sch]; [apply Hnil; reflexivity|].
  destruct (subsamples enc_info) as [|sub subs] eqn:Es.
  - destruct (cdm_Decrypt m _ 0) as [[st m']|] eqn:Ed;
      [|apply Hnil; reflexivity].
    apply cdm_Decrypt_Some in Ed as (_ & Hc & _).
    apply calls_since_app in Hc.
    destruct (decrypt_status_error st); cbn [snd]; rewrite Hc;
      (split; [|intros _]; repeat constructor).
  - destruct (walk_cbc_calls enc_info sch m (sub :: subs)
                (init_locals enc_info (packet_ (this m))) m H1 H2
                (init_inv enc_info m)) as (trace & Ht & Hb & Hi).
    cbn [block_offset cur_iv init_locals] in Hb, Hi.
    assert (Hcs : calls_since m
                    (snd (match walk enc_info sch (sub :: subs)
                                  (init_locals enc_info (packet_ (this m))) m
                          with
                          | (Next l, m') =>
                              if negb (total_size l =? 0)
                              then (Return Status.InvalidContainerData, m')
                              else (Return Status.Success, m')
                          | (Exit o, m') => (o, m')
                          end)) = trace).
    { apply calls_since_app.
      destruct (walk enc_info sch (sub :: subs) _ m) as [[l|o] m'];
        [destruct (negb _)|]; exact Ht. }
    rewrite Hcs. split; [exact Hb|].
    intros E. apply Hi. rewrite E. discriminate.
Qed.

Lemma cbc_calls_constant_witness :
  let enc_info :=
    info_of kCbcsScheme 1 9 [x0a; x0b; x0c; x0d; x0e; x0f; x10; x11]
      [subsample 4 20; subsample 4 20] in
  let m := machine_of tt (ramp 48) in
  let trace :=
    calls_since m
      (snd (@Decrypt unit debug_build (decoder_of enc_info) identity_cdm m)) in
  length trace = 2%nat
  /\ Forall (fun c => eme.call_iv c = iv enc_info) trace.
Proof.
  intros enc_info m trace. split; [vm_compute; reflexivity|].
  apply (@cbc_calls_constant unit debug_build (decoder_of enc_info)
           identity_cdm m enc_info).
  - reflexivity.
  - right. reflexivity.
  - reflexivity.
Defined.

(** X10.  Every CDM call of [Decrypt] carries the key id and the pattern of
    the encryption info, the cipher mode of its scheme (AES-CTR for 'cenc'
    and 'cens', AES-CBC for 'cbc1' and 'cbcs') and a block offset below 16.
    With a non-empty subsample table the data of the calls are non-empty
    and are the protected regions of the payload in table order; when
    [Decrypt] returns Success every protected region was presented, once. *)
Theorem Decrypt_calls_shape {C : Type} {B : Build} {L : LibAvUtil}
    {I : eme.Implementation C} (m : Machine C) (enc_info : AVEncryptionInfo) :
  decoded_info (this m) = Some enc_info ->
  let trace := calls_since m (snd (Decrypt m)) in
  let regions :=
    protected_regions (pkt_data (packet_ (this m))) 0 (subsamples enc_info) in
  Forall (fun c =>
            eme.call_scheme c = scheme_mode enc_info
            /\ eme.call_key_id c = key_id enc_info
            /\ eme.call_pattern c
               = {| eme.pattern_crypt := crypt_byte_block enc_info;
                    eme.pattern_skip := skip_byte_block enc_info |}
            /\ 0 <= eme.call_block_offset c < 16) trace
  /\ (subsamples enc_info <> [] ->
      Forall (fun c => eme.call_data c <> []) trace
      /\ map eme.call_data trace = firstn (length trace) regions
      /\ (fst (Decrypt m) = Return Status.Success ->
          map eme.call_data trace = regions)).
Proof.
  intros Hdec.
  assert (Hnil : forall (o : Outcome) m', o <> Return Status.Success ->
            cdm_calls m' = cdm_calls m ->
            let trace := calls_since m m' in
            let regions :=
              protected_regions (pkt_data (packet_ (this m))) 0
                (subsamples enc_info) in
            Forall (fun c =>
                      eme.call_scheme c = scheme_mode enc_info
                      /\ eme.call_key_id c = key_id enc_info
                      /\ eme.call_pattern c
                         = {| eme.pattern_crypt := crypt_byte_block enc_info;
                              eme.pattern_skip := skip_byte_block enc_info |}
                      /\ 0 <= eme.call_block_offset c < 16) trace
            /\ (subsamples enc_info <> [] ->
                Forall (fun c => eme.call_data c <> []) trace
                /\ map eme.call_data trace = firstn (length trace) regions
                /\ (o = Return Status.Success ->
                    map eme.call_data trace = regions))).
  { intros o m' Ho E. cbv zeta. rewrite (calls_since_refl _ _ E).
    split; [constructor|]. intros _. split; [constructor|].
    split; [reflexivity|]. intros H. contradiction. }
  unfold Decrypt.
  destruct (dcheck_fails _); [apply (Hnil (Abort DcheckFailed)); easy|].
  destruct (dcheck_fails _); [apply (Hnil (Abort DcheckFailed)); easy|].
  unfold decoded_info in Hdec.
  destruct (av_packet_get_side_data _ _) as [sd|]; [|discriminate].
  rewrite Hdec. unfold decrypt_info.
  destruct (select_scheme enc_info) as [err|sch] eqn:Hsel.
  { apply (Hnil (Return err)); [|reflexivity].
    apply select_scheme_inl in Hsel. destruct Hsel; subst; discriminate. }
  apply select_scheme_inr in Hsel. subst sch.
  destruct (subsamples enc_info) as [|sub subs] eqn:Es.
  - cbv zeta. split; [|intros H; contradiction].
    destruct (cdm_Decrypt m _ 0) as [[st m']|] eqn:Ed;
      [|rewrite calls_since_refl by reflexivity; constructor].
    apply cdm_Decrypt_Some in Ed as (_ & Hc & _).
    apply calls_since_app in Hc.
    destruct (decrypt_status_error st); cbn [snd]; rewrite Hc;
      (constructor; [cbn; repeat split; lia|constructor]).
  - destruct (walk_calls_shape enc_info (scheme_mode enc_info) m (sub :: subs)
                (init_locals enc_info (packet_ (this m))) m
                (init_inv enc_info m)) as (trace & Ht & Hd & Hall & Hf).
    cbn [src init_locals] in Hd, Hall.
    pose proof (walk_not_Success enc_info (scheme_mode enc_info) (sub :: subs)
                  (init_locals enc_info (packet_ (this m))) m) as Hns.
    destruct (walk enc_info (scheme_mode enc_info) (sub :: subs) _ m)
      as [[l|o] m'] eqn:Hw; cbn [fst snd] in Ht, Hall, Hns.
    + assert (Hcs : forall o : Outcome, calls_since m (snd (o, m')) = trace)
        by (intros; apply calls_since_app; exact Ht).
      destruct (negb _); cbv zeta; rewrite Hcs; cbn [fst];
        (split; [eapply Forall_impl; [|exact Hf]; cbn beta; tauto|]);
        intros _;
        (split; [eapply Forall_impl; [|exact Hf]; cbn beta; tauto|]);
        (split; [exact Hd|]); intros _; apply Hall; eauto.
    + cbv zeta. cbn [fst snd]. rewrite (calls_since_app _ _ _ Ht).
      split; [eapply Forall_impl; [|exact Hf]; cbn beta; tauto|].
      intros _.
      split; [eapply Forall_impl; [|exact Hf]; cbn beta; tauto|].
      split; [exact Hd|]. intros ->. contradiction.
Qed.

Lemma Decrypt_calls_shape_witness :
  let enc_info :=
    info_of kCencScheme 0 0 (repeat x00 16)
      [subsample 4 20; subsample 8 0; subsample 4 12] in
  let m := machine_of tt (ramp 48) in
  let r := @Decrypt unit debug_build (decoder_of enc_info) identity_cdm m in
  fst r = Return Status.Success
  /\ map eme.call_data (calls_since m (snd r))
     = [firstn 20 (skipn 4 (ramp 48)); skipn 36 (ramp 48)].
Proof.
  intros enc_info m r.
  assert (Hs : fst r = Return Status.Success) by (vm_compute; reflexivity).
  split; [exact Hs|].
  destruct (@Decrypt_calls_shape unit debug_build (decoder_of enc_info)
              identity_cdm m enc_info) as [_ H].
  - reflexivity.
  - destruct H as (_ & _ & Hall); [discriminate|].
    unfold r. rewrite (Hall Hs). vm_compute. reflexivity.
Defined.

(** X11.  The first CDM failure ends [Decrypt], under every scheme.  When
    the walk reaches a subsample that fits and has protected bytes, and the
    CDM does not report Success for it, [Decrypt] returns the error for that
    status (NotSupported, KeyNotFound, or UnknownError for anything else)
    and that call is the last one made. *)
Theorem Decrypt_cdm_error {C : Type} {B : Build} {L : LibAvUtil}
    {I : eme.Implementation C}
    (m : Machine C) (enc_info : AVEncryptionInfo) (sch : eme.EncryptionScheme)
    (pre post : list AVSubsampleEncryptionInfo)
    (sub : AVSubsampleEncryptionInfo) (l : Locals) (m1 : Machine C) :
  dest_fits m ->
  decoded_info (this m) = Some enc_info ->
  select_scheme enc_info = inr sch ->
  subsamples enc_info = pre ++ sub :: post ->
  reaches enc_info sch m pre l m1 ->
  fits sub l ->
  0 < Z.of_N (bytes_of_protected_data sub) ->
  let call := step_call enc_info sch sub l m1 in
  cdm_status (cdm m1) call <> eme.DecryptStatus.Success ->
  cdm_calls (snd (Decrypt m)) = cdm_calls m1 ++ [call]
  /\ fst (Decrypt m)
     = Return match cdm_status (cdm m1) call with
              | eme.DecryptStatus.NotSupported => Status.NotSupported
              | eme.DecryptStatus.KeyNotFound => Status.KeyNotFound
              | _ => Status.UnknownError
              end.
Proof.
  intros Hdest Hdec Hsel Hsubs Hw Hfit Hp call Hst.
  rewrite (Decrypt_decoded m enc_info Hdest Hdec).
  destruct (reaches_remaining enc_info sch m pre l m1 Hw) as [Hinv _].
  assert (He : decrypt_status_error (cdm_status (cdm m1) call)
               = Some match cdm_status (cdm m1) call with
                      | eme.DecryptStatus.NotSupported => Status.NotSupported
                      | eme.DecryptStatus.KeyNotFound => Status.KeyNotFound
                      | _ => Status.UnknownError
                      end).
  { destruct (cdm_status (cdm m1) call); [contradiction|reflexivity..]. }
  destruct (subsample_step_error enc_info sch m sub l m1 _ Hdest Hinv Hfit Hp He)
    as (m2 & Es & Hc).
  rewrite (decrypt_info_exit enc_info sch m m1 m2 pre post sub l _ Hsel Hsubs
             Hw Es).
  auto.
Qed.

Lemma Decrypt_cdm_error_witness :
  let enc_info :=
    info_of kCencScheme 0 0 (repeat x00 16)
      [subsample 4 20; subsample 4 20; subsample 0 16] in
  let script := [eme.DecryptStatus.Success; eme.DecryptStatus.OtherError] in
  let m := machine_of script (ramp 64) in
  let r := @Decrypt _ release_build (decoder_of enc_info) scripted_cdm m in
  fst r = Return Status.UnknownError /\ length (cdm_calls (snd r)) = 2%nat.
Proof.
  intros enc_info script m r.
  pose (w := @walk _ release_build scripted_cdm enc_info eme.AesCtr
               [subsample 4 20] (init_locals enc_info (packet_ (this m))) m).
  pose (l := match fst w with
             | Next l => l
             | Exit _ => init_locals enc_info (packet_ (this m))
             end).
  destruct (@Decrypt_cdm_error _ release_build (decoder_of enc_info)
              scripted_cdm m enc_info eme.AesCtr [subsample 4 20]
              [subsample 0 16] (subsample 4 20) l (snd w)) as [Hc Hr].
  - unfold dest_fits. vm_compute. lia.
  - reflexivity.
  - reflexivity.
  - reflexivity.
  - unfold reaches. vm_compute. reflexivity.
  - unfold fits. vm_compute. discriminate.
  - vm_compute. reflexivity.
  - vm_compute. discriminate.
  - split.
    + unfold r. rewrite Hr. vm_compute. reflexivity.
    + unfold r. rewrite Hc. vm_compute. reflexivity.
Defined.


(** ** Frames and their side data *)

Lemma av_packet_get_side_data_none (sd : list AVPacketSideData) :
  Forall (fun e => sd_type e <> AV_PKT_DATA_ENCRYPTION_INFO) sd ->
  av_packet_get_side_data sd AV_PKT_DATA_ENCRYPTION_INFO = None.
Proof.
  induction 1 as [|e sd He Hall IH]; cbn; [reflexivity|].
  destruct (sd_type e); [contradiction|exact IH].
Qed.

(** X12.  A frame without encryption-info side data is not decrypted: with
    checks compiled in [Decrypt] fails its check, without them it returns
    UnknownError; either way the CDM is not called and nothing is written. *)
Theorem Decrypt_not_encrypted {C : Type} {B : Build} {L : LibAvUtil}
    {I : eme.Implementation C} (m : Machine C) :
  Forall (fun e => sd_type e <> AV_PKT_DATA_ENCRYPTION_INFO)
    (pkt_side_data (packet_ (this m))) ->
  is_encrypted (this m) = false
  /\ Decrypt m
     = (if DCHECK_IS_ON then Abort DcheckFailed
        else Return Status.UnknownError, m).
Proof.
  intros Hno. pose proof (av_packet_get_side_data_none _ Hno) as Hg.
  assert (He : is_encrypted (this m) = false)
    by (unfold is_encrypted; rewrite Hg; reflexivity).
  split; [exact He|].
  unfold Decrypt, dcheck_fails. rewrite He, Hg.
  destruct DCHECK_IS_ON; cbn [andb negb]; [|reflexivity].
  destruct (negb _); reflexivity.
Qed.

Lemma Decrypt_not_encrypted_witness :
  let m :=
    {| this := {| pts := zero; dts := zero; duration := zero;
                  is_key_frame := false;
                  packet_ := {| pkt_data := ramp 4;
                                pkt_side_data :=
                                  [ {| sd_data := [x01];
                                       sd_type := AV_PKT_DATA_OTHER 5 |} ];
                                pkt_pts := 0; pkt_dts := 0; pkt_duration := 0;
                                pkt_flags := 0 |};
                  stream_id_ := 0%N; timestamp_offset_ := zero |};
       dest_packet := {| pkt_data := repeat x00 4; pkt_side_data := [];
                         pkt_pts := 0; pkt_dts := 0; pkt_duration := 0;
                         pkt_flags := 0 |};
       cdm := tt; cdm_calls := [] |} in
  @Decrypt unit release_build (decoder_of (info_of kCencScheme 0 0 [] []))
    identity_cdm m = (Return Status.UnknownError, m).
Proof.
  intros m.
  apply (@Decrypt_not_encrypted unit release_build
           (decoder_of (info_of kCencScheme 0 0 [] [])) identity_cdm m).
  repeat constructor. discriminate.
Defined.

(** No iteration returns OutOfMemory. *)
Lemma walk_not_OutOfMemory {C : Type} {B : Build} {I : eme.Implementation C}
    (enc_info : AVEncryptionInfo) (sch : eme.EncryptionScheme)
    (subs : list AVSubsampleEncryptionInfo) (l : Locals) (m : Machine C) :
  fst (walk enc_info sch subs l m) <> Exit (Return Status.OutOfMemory).
Proof.
  destruct (walk enc_info sch subs l m) as [[l'|o] m'] eqn:Hw; [discriminate|].
  cbn [fst]. intros [= ->].
  destruct (walk_Exit enc_info sch _ _ m m' _ Hw)
    as (pre & sub' & post & l1 & m1 & _ & _ & Hstep).
  pose proof (subsample_step_view enc_info sch sub' l1 m1) as V.
  rewrite Hstep in V. inversion V; subst.
  - match goal with
    | H : decrypt_status_error ?s = Some _ |- _ => destruct s; discriminate
    end.
  - match goal with
    | H : update_iv _ _ _ _ = Exit (Return Status.OutOfMemory) |- _ =>
        apply update_iv_Return in H as (H & _); discriminate
    end.
Qed.

(** Once the encryption info is decoded, OutOfMemory is not returned. *)
Lemma decrypt_info_not_OutOfMemory {C : Type} {B : Build}
    {I : eme.Implementation C} (enc_info : AVEncryptionInfo) (m : Machine C) :
  fst (decrypt_info enc_info m) <> Return Status.OutOfMemory.
Proof.
  unfold decrypt_info.
  destruct (select_scheme enc_info) as [err|sch] eqn:Hsel.
  { apply select_scheme_inl in Hsel. cbn. destruct Hsel; subst; discriminate. }
  destruct (subsamples enc_info) as [|sub subs].
  - destruct (cdm_Decrypt m _ 0) as [[st m']|]; [|discriminate].
    destruct st; cbn; discriminate.
  - pose proof (walk_not_OutOfMemory enc_info sch (sub :: subs)
                  (init_locals enc_info (packet_ (this m))) m) as Hw.
    destruct (walk enc_info sch (sub :: subs) _ m) as [[l|o] m'].
    + destruct (negb _); discriminate.
    + cbn [fst] in *. intros ->. apply Hw. reflexivity.
Qed.

(** X13.  [Decrypt] returns OutOfMemory exactly when the frame has
    encryption-info side data, [av_encryption_info_get_side_data] gives
    nothing for it, and the destination passes its check (it is large
    enough, or checks are compiled out).  [Decrypt] has then neither called
    the CDM nor written to the destination. *)
Theorem Decrypt_out_of_memory {C : Type} {B : Build} {L : LibAvUtil}
    {I : eme.Implementation C} (m : Machine C) :
  (fst (Decrypt m) = Return Status.OutOfMemory
   <-> is_encrypted (this m) = true
       /\ decoded_info (this m) = None
       /\ (DCHECK_IS_ON = true -> dest_fits m))
  /\ (fst (Decrypt m) = Return Status.OutOfMemory -> snd (Decrypt m) = m).
Proof.
  unfold Decrypt, is_encrypted, decoded_info, dcheck_fails, dest_fits.
  destruct (Nat.leb_spec (length (pkt_data (packet_ (this m))))
              (length (pkt_data (dest_packet m)))) as [Hle|Hgt];
    destruct DCHECK_IS_ON;
    destruct (av_packet_get_side_data _ _) as [sd|];
    try destruct (av_encryption_info_get_side_data sd) as [enc_info|];
    cbn [andb negb fst snd];
    try (pose proof (decrypt_info_not_OutOfMemory enc_info m) as Hn);
    (split; [split|]);
    try (intros H; discriminate H);
    try (intros H; contradiction);
    try (intros (H1 & H2 & H3); try discriminate;
         try (specialize (H3 eq_refl); lia));
    try (intros _; repeat split; intros; congruence);
    auto.
Qed.

Lemma Decrypt_out_of_memory_witness :
  let f := frame_of (ramp 4) in
  let m :=
    {| this :=
         {| pts := pts f; dts := dts f; duration := duration f;
            is_key_frame := is_key_frame f;
            packet_ :=
              {| pkt_data := ramp 4;
                 pkt_side_data :=
                   [ {| sd_data := [x02]; sd_type := AV_PKT_DATA_OTHER 5 |};
                     {| sd_data := [x01];
                        sd_type := AV_PKT_DATA_ENCRYPTION_INFO |} ];
                 pkt_pts := 0; pkt_dts := 0; pkt_duration := 0;
                 pkt_flags := 1 |};
            stream_id_ := stream_id_ f;
            timestamp_offset_ := timestamp_offset_ f |};
       dest_packet := dest_packet (machine_of tt (ramp 4));
       cdm := tt;
       cdm_calls := [] |} in
  fst (@Decrypt unit debug_build
         {| av_encryption_info_get_side_data := fun _ => None |}
         identity_cdm m)
  = Return Status.OutOfMemory.
Proof.
  intros f m.
  apply (@Decrypt_out_of_memory unit debug_build
           {| av_encryption_info_get_side_data := fun _ => None |}
           identity_cdm m).
  split; [reflexivity|]. split; [reflexivity|].
  intros _. unfold dest_fits. vm_compute. lia.
Defined.

(** X14.  A frame the scheme switch rejects is left alone.  For an unknown
    wire tag [Decrypt] returns NotSupported, and for 'cenc' or 'cbc1' with
    a non-zero pattern field it returns InvalidContainerData; in both cases
    the CDM is not called and the destination is not written, whatever the
    subsample table says. *)
Theorem Decrypt_scheme_rejected {C : Type} {B : Build} {L : LibAvUtil}
    {I : eme.Implementation C} (m : Machine C) (enc_info : AVEncryptionInfo) :
  dest_fits m ->
  decoded_info (this m) = Some enc_info ->
  (scheme enc_info <> kCencScheme /\ scheme enc_info <> kCensScheme
   /\ scheme enc_info <> kCbc1Scheme /\ scheme enc_info <> kCbcsScheme ->
   Decrypt m = (Return Status.NotSupported, m))
  /\ ((scheme enc_info = kCencScheme \/ scheme enc_info = kCbc1Scheme)
      /\ (crypt_byte_block enc_info <> 0%N \/ skip_byte_block enc_info <> 0%N) ->
      Decrypt m = (Return Status.InvalidContainerData, m)).
Proof.
  intros Hdest Hdec. rewrite (Decrypt_decoded m enc_info Hdest Hdec).
  unfold decrypt_info. split.
  - intros (H1 & H2 & H3 & H4). unfold select_scheme.
    apply N.eqb_neq in H1, H2, H3, H4. rewrite H1, H2, H3, H4. reflexivity.
  - intros H. apply select_scheme_invalid in H. rewrite H. reflexivity.
Qed.

Lemma Decrypt_scheme_rejected_witness :
  let enc_info := info_of kCencScheme 1 9 (repeat x00 16) [subsample 0 16] in
  let m := machine_of tt (ramp 16) in
  @Decrypt unit debug_build (decoder_of enc_info) identity_cdm m
  = (Return Status.InvalidContainerData, m).
Proof.
  intros enc_info m.
  apply (@Decrypt_scheme_rejected unit debug_build (decoder_of enc_info)
           identity_cdm m enc_info).
  - unfold dest_fits. vm_compute. lia.
  - reflexivity.
  - split; [left; reflexivity|left; discriminate].
Defined.

(** X15.  [EstimateSize] counts [sizeof *this], the payload and every
    side-data element once: the result is their sum as a [size_t], so it
    does not depend on the order of the side data, and it is the exact sum
    whenever that fits. *)
Theorem EstimateSize_sum (sizeof_this : Z) (f : FFmpegEncodedFrame) :
  0 <= sizeof_this ->
  let total :=
    sizeof_this + Z.of_nat (length (pkt_data (packet_ f)))
    + side_data_size (pkt_side_data (packet_ f)) in
  EstimateSize sizeof_this f = size_t total
  /\ (total < 2 ^ 64 -> EstimateSize sizeof_this f = total).
Proof.
  intros Hs total.
  assert (H : EstimateSize sizeof_this f = size_t total).
  { unfold EstimateSize. subst total.
    generalize (sizeof_this + Z.of_nat (length (pkt_data (packet_ f)))).
    generalize (pkt_side_data (packet_ f)). intros sd.
    intros z.
    pose proof (fold_left_rev_right
                  (fun e size => size_t (size + Z.of_nat (length (sd_data e))))
                  (rev sd) (size_t z)) as E.
    rewrite rev_involutive in E. cbn beta in E. rewrite <- E. clear E.
    revert z.
    induction sd as [|e sd IH]; intros z; cbn [fold_right side_data_size].
    - rewrite Z.add_0_r. reflexivity.
    - fold (side_data_size sd). rewrite IH. unfold size_t.
      rewrite Zplus_mod_idemp_l. f_equal. lia. }
  split; [exact H|]. intros Hlt. rewrite H. apply size_t_small.
  assert (0 <= side_data_size (pkt_side_data (packet_ f))).
  { generalize (pkt_side_data (packet_ f)). intros sd.
    induction sd as [|e sd IH]; cbn; [lia|]. fold (side_data_size sd). lia. }
  subst total. lia.
Qed.

Lemma EstimateSize_sum_witness :
  EstimateSize 200 (frame_of (ramp 48)) = 249.
Proof.
  destruct (EstimateSize_sum 200 (frame_of (ramp 48))) as [_ H]; [lia|].
  rewrite H; vm_compute; reflexivity.
Defined.


(** * MediaSource *)

(** ** RandomUrl *)

Lemma hex_fixed_length (n : nat) (v : Z) :
  String.length (mse.hex_fixed n v) = n.
Proof. induction n as [|n IH]; cbn; [reflexivity|]. rewrite IH. reflexivity. Qed.

Lemma printf_0x_fixed (n : nat) (v : Z) :
  (0 < n)%nat -> 0 <= v < 16 ^ Z.of_nat n ->
  mse.printf_0x n v = mse.hex_fixed n v.
Proof.
  intros Hn Hv. unfold mse.printf_0x. f_equal. apply Nat.max_l.
  unfold mse.hex_length. destruct (Z.eqb_spec v 0) as [E|E]; [lia|].
  assert (Hl : Z.log2 v < 4 * Z.of_nat n).
  { apply Z.log2_lt_pow2; [lia|].
    rewrite Z.pow_mul_r by lia. exact (proj2 Hv). }
  assert (Z.log2 v / 4 < Z.of_nat n) by (apply Z.div_lt_upper_bound; lia).
  pose proof (Z.log2_nonneg v).
  assert (0 <= Z.log2 v / 4) by (apply Z.div_pos; lia).
  lia.
Qed.

Lemma host_word_range (big_endian : bool) (bs : list byte) (n : nat) :
  (length bs <= n)%nat ->
  0 <= mse.host_word big_endian bs < 256 ^ Z.of_nat n.
Proof.
  intros Hn. unfold mse.host_word.
  assert (H : forall l : list byte, (length l <= n)%nat ->
            0 <= be_value l < 256 ^ Z.of_nat n).
  { intros l Hl. pose proof (be_value_range l) as [H1 H2]. split; [exact H1|].
    eapply Z.lt_le_trans; [exact H2|]. apply Z.pow_le_mono_r; lia. }
  destruct big_endian; apply H; [|rewrite length_rev]; exact Hn.
Qed.

Lemma load_length_max (buf : list byte) (pos len : Z) :
  (length (load buf pos len) <= Z.to_nat len)%nat.
Proof. unfold load. rewrite length_firstn. lia. Qed.

(** The version field: [(x & 0xfff) | 0x4000] has hexadecimal digits
    [4 _ _ _]. *)
Lemma version_field (x : Z) :
  0 <= x ->
  let c := Z.lor (Z.land x 0xfff) 0x4000 in
  0 <= c < 16 ^ 4 /\ c / 16 ^ 3 mod 16 = 4.
Proof.
  intros Hx c.
  assert (Hl : 0 <= Z.land x 0xfff < 4096).
  { change 0xfff with (Z.ones 12). rewrite Z.land_ones by lia.
    apply Z.mod_pos_bound. lia. }
  assert (Hs : Z.shiftr c 12 = 4).
  { subst c. rewrite Z.shiftr_lor, Z.shiftr_land.
    change (Z.shiftr 0xfff 12) with 0. rewrite Z.land_0_r. reflexivity. }
  assert (Hc : 0 <= c) by (subst c; apply Z.lor_nonneg; lia).
  rewrite Z.shiftr_div_pow2 in Hs by lia.
  change (16 ^ 3) with (2 ^ 12). rewrite Hs. split; [|reflexivity].
  pose proof (Z.div_mod c (2 ^ 12)) as Hdm.
  pose proof (Z.mod_pos_bound c (2 ^ 12)). lia.
Qed.

(** The variant field: [(x & 0x3fff) | 0x8000] has hexadecimal digits
    [d _ _ _] with [d] one of 8, 9, a, b. *)
Lemma variant_field (x : Z) :
  0 <= x ->
  let c := Z.lor (Z.land x 0x3fff) 0x8000 in
  0 <= c < 16 ^ 4 /\ 8 <= c / 16 ^ 3 mod 16 <= 11.
Proof.
  intros Hx c.
  assert (Hs : 8 <= Z.shiftr c 12 <= 11).
  { subst c. rewrite Z.shiftr_lor, Z.shiftr_land.
    change (Z.shiftr 0x3fff 12) with (Z.ones 2). change (Z.shiftr 0x8000 12) with 8.
    rewrite Z.land_ones by lia.
    assert (Hm : 0 <= Z.shiftr x 12 mod 2 ^ 2 < 4) by (apply Z.mod_pos_bound; lia).
    set (y := Z.shiftr x 12 mod 2 ^ 2) in *.
    assert (Hy : y = 0 \/ y = 1 \/ y = 2 \/ y = 3) by lia.
    destruct Hy as [-> |[-> |[-> | ->]]]; cbn; lia. }
  assert (Hc : 0 <= c)
    by (subst c; apply Z.lor_nonneg; split; [apply Z.land_nonneg|]; lia).
  rewrite Z.shiftr_div_pow2 in Hs by lia.
  change (16 ^ 3) with (2 ^ 12).
  pose proof (Z.div_mod c (2 ^ 12)) as Hdm.
  pose proof (Z.mod_pos_bound c (2 ^ 12)).
  split; [lia|]. rewrite Z.mod_small; lia.
Qed.

(** X16.  [RandomUrl] always yields a string of 41 characters of the form
    [blob:xxxxxxxx-xxxx-4xxx-yxxx-xxxxxxxxxxxx]: the prefix, the four
    dashes, the version digit 4 and a variant digit among 8, 9, a, b are in
    place whatever [rand()] returns and whatever the host byte order. *)
Theorem RandomUrl_format (big_endian : bool) (rand : nat -> Z) :
  let url := mse.RandomUrl big_endian rand in
  String.length url = 41%nat
  /\ String.substring 0 5 url = "blob:"%string
  /\ String.get 13 url = Some "-"%char
  /\ String.get 18 url = Some "-"%char
  /\ String.get 23 url = Some "-"%char
  /\ String.get 28 url = Some "-"%char
  /\ String.get 19 url = Some "4"%char
  /\ (String.get 24 url = Some "8"%char \/ String.get 24 url = Some "9"%char
      \/ String.get 24 url = Some "a"%char \/ String.get 24 url = Some "b"%char).
Proof.
  unfold mse.RandomUrl.
  set (bytes := map (fun i => byte_of (rand i)) (seq 0 16)).
  set (w4 := fun b => mse.host_word big_endian (load bytes b 4)).
  set (w2 := fun b => mse.host_word big_endian (load bytes b 2)).
  assert (H4 : forall b, 0 <= w4 b < 16 ^ Z.of_nat 8).
  { intros b. change (16 ^ Z.of_nat 8) with (256 ^ Z.of_nat 4).
    apply host_word_range. apply (load_length_max bytes b 4). }
  assert (H2 : forall b, 0 <= w2 b < 16 ^ Z.of_nat 4).
  { intros b. change (16 ^ Z.of_nat 4) with (256 ^ Z.of_nat 2).
    apply host_word_range. apply (load_length_max bytes b 2). }
  destruct (version_field (w2 6) (proj1 (H2 6))) as [Hv1 Hv2].
  destruct (variant_field (w2 8) (proj1 (H2 8))) as [Hr1 Hr2].
  subst w2 w4. cbv beta in *.
  rewrite !(printf_0x_fixed 8) by (try lia; apply H4).
  rewrite !(printf_0x_fixed 4) by (try lia; first [apply H2|assumption]).
  cbv zeta. cbn [mse.hex_fixed String.append String.length String.get
                 String.substring Nat.eqb Nat.sub].
  change (Z.of_nat 3) with 3.
  repeat split.
  - rewrite Hv2. reflexivity.
  - match type of Hr2 with _ <= ?t <= _ => set (d := t) in * end.
    assert (Hd : d = 8 \/ d = 9 \/ d = 10 \/ d = 11) by lia.
    destruct Hd as [-> |[-> |[-> | ->]]]; cbn; auto.
Qed.

(** ** The life cycle of a MediaSource *)

Lemma own_events_app {SB V : Type} (a b : list (mse.Effect SB V)) :
  mse.own_events (a ++ b) = mse.own_events a ++ mse.own_events b.
Proof.
  induction a as [|e a IH]; [reflexivity|].
  destruct e; cbn; rewrite IH; reflexivity.
Qed.

Lemma own_events_closes {A SB V : Type} (l : list (A * SB)) :
  mse.own_events
    (map (fun pair => @mse.SourceBufferCloseMediaSource SB V (snd pair)) l)
  = [].
Proof. induction l as [|x l IH]; [reflexivity|exact IH]. Qed.

(** The loops of [EndOfStream] and [SetDuration] ask whether some buffer is
    updating; the answer does not depend on the order of the container. *)
Lemma existsb_Permutation {A : Type} (f : A -> bool) (a b : list A) :
  Permutation a b -> existsb f a = existsb f b.
Proof.
  induction 1 as [|x a b _ IH|x y a|a b c _ IH1 _ IH2]; cbn.
  - reflexivity.
  - rewrite IH. reflexivity.
  - destruct (f x), (f y); reflexivity.
  - congruence.
Qed.

Lemma updating_any_order {SB : Type} {SBC : mse.SourceBufferClass SB}
    {U : mse.UnorderedMap SB} (m : list (mse.SourceType * SB)) :
  existsb (fun pair => mse.updating (snd pair)) (mse.iteration_order m)
  = existsb (fun pair => mse.updating (snd pair)) m.
Proof. apply existsb_Permutation, mse.iteration_order_entries. Qed.

Lemma perform_Transition {K SB V : Type} {VC : mse.VideoController K}
    {SBC : mse.SourceBufferClass SB} {U : mse.UnorderedMap SB}
    {B : Build}
    (c : mse.Call V) (s s' : mse.MediaSource K SB V) :
  mse.perform c s = Some s' -> mse.Transition DCHECK_IS_ON s s'.
Proof.
  destruct c; cbn [mse.perform]; unfold mse.survives.
  - unfold mse.AddSourceBuffer.
    destruct (mse.AddSource (mse.controller_ s) type) as [[k st] ty].
    destruct st; [| | |];
      repeat match goal with
             | |- context [if ?b then _ else _] => destruct b
             end; cbn; intros E; inversion E; subst;
      apply mse.quiet; reflexivity.
  - unfold mse.EndOfStream.
    destruct (mse.ready_state s) eqn:Er; cbn [mse.is_open negb];
      try (cbn; intros [= <-]; apply mse.quiet; reflexivity).
    destruct (existsb _ _);
      try (cbn; intros [= <-]; apply mse.quiet; reflexivity).
    destruct error; cbn; intros [= <-];
      [apply mse.quiet; reflexivity|].
    apply mse.ends; cbn; auto. apply own_events_app.
  - unfold mse.SetDuration.
    repeat match goal with
           | |- context [if ?b then _ else _] => destruct b
           end; cbn; intros [= <-]; apply mse.quiet; reflexivity.
  - unfold mse.OpenMediaSource, dcheck_fails.
    destruct DCHECK_IS_ON eqn:Ed, (mse.ready_state s) eqn:Er; cbn;
      intros E; inversion E; subst;
      apply mse.opens; cbn; auto using own_events_app; congruence.
  - unfold mse.CloseMediaSource, dcheck_fails.
    destruct DCHECK_IS_ON eqn:Ed, (mse.ready_state s) eqn:Er; cbn;
      intros E; inversion E; subst;
      (apply mse.closes; cbn;
       [intros; congruence|reflexivity|reflexivity|
        rewrite !own_events_app, own_events_closes; reflexivity]).
  - unfold mse.OnReadyStateChanged. destruct (mse.video_element_ s) eqn:Ev;
      intros [= <-]; apply mse.quiet; cbn; auto.
    rewrite own_events_app, app_nil_r. reflexivity.
  - unfold mse.OnPipelineStatusChanged. destruct (mse.video_element_ s) eqn:Ev;
      intros [= <-]; apply mse.quiet; cbn; auto.
    rewrite own_events_app, app_nil_r. reflexivity.
  - unfold mse.OnMediaError. destruct (mse.video_element_ s) eqn:Ev;
      intros [= <-]; apply mse.quiet; cbn; auto.
    rewrite own_events_app, app_nil_r. reflexivity.
  - unfold mse.OnWaitingForKey. destruct (mse.video_element_ s) eqn:Ev;
      intros [= <-]; apply mse.quiet; cbn; auto.
    rewrite own_events_app, app_nil_r. reflexivity.
  - unfold mse.OnEncrypted. destruct (mse.video_element_ s) eqn:Ev;
      intros [= <-]; apply mse.quiet; cbn; auto.
    rewrite own_events_app, app_nil_r. reflexivity.
Qed.

Lemma run_calls_invariant {K SB V : Type} {VC : mse.VideoController K}
    {SBC : mse.SourceBufferClass SB} {U : mse.UnorderedMap SB}
    {B : Build}
    (P : mse.MediaSource K SB V -> Prop) :
  (forall s s', P s -> mse.Transition DCHECK_IS_ON s s' -> P s') ->
  forall (cs : list (mse.Call V)) (s s' : mse.MediaSource K SB V),
    P s -> mse.run_calls cs s = Some s' -> P s'.
Proof.
  intros Hstep cs. induction cs as [|c cs IH]; intros s s' Hs; cbn.
  - intros [= <-]. exact Hs.
  - destruct (mse.perform c s) as [s1|] eqn:Ec; [|discriminate].
    apply IH. apply (Hstep s s1 Hs). apply (perform_Transition c). exact Ec.
Qed.

Lemma announced_snoc (es : list mse.EventType) (e : mse.EventType) :
  mse.announced (es ++ [e]) = mse.announce (mse.announced es) e.
Proof. unfold mse.announced. rewrite fold_left_app. reflexivity. Qed.

Lemma in_order_snoc (checked : bool) (es : list mse.EventType)
    (e : mse.EventType) (st : mse.MediaSourceReadyState) :
  mse.in_order checked st (es ++ [e])
  = mse.in_order checked st es
    && mse.follows checked (fold_left mse.announce es st) e.
Proof.
  revert st. induction es as [|x es IH]; intros st; cbn.
  - rewrite andb_true_r. reflexivity.
  - rewrite IH, andb_assoc. reflexivity.
Qed.

Lemma life_cycle_new {K SB V : Type} (checked : bool) (url : string) (k : K) :
  mse.life_cycle checked (@mse.new_MediaSource K SB V url k).
Proof. repeat split. Qed.

Lemma life_cycle_Transition {K SB V : Type} (checked : bool)
    (s s' : mse.MediaSource K SB V) :
  mse.life_cycle checked s -> mse.Transition checked s s' -> mse.life_cycle checked s'.
Proof.
  intros (Ha & Ho & Hv) T. unfold mse.life_cycle.
  destruct T as [E1 E2 E3|Hc E1 E3|E0 E1 E2 E3|Hc E1 E2 E3]; rewrite E3.
  - rewrite E1, E2. auto.
  - rewrite announced_snoc, in_order_snoc, Ho, E1.
    fold (mse.announced (mse.own_events (mse.effects s))). rewrite <- Ha.
    repeat split; [|discriminate].
    destruct checked; [rewrite Hc by reflexivity; reflexivity|].
    destruct (mse.ready_state s); reflexivity.
  - rewrite announced_snoc, in_order_snoc, Ho, E1.
    fold (mse.announced (mse.own_events (mse.effects s))). rewrite <- Ha, E0.
    repeat split. discriminate.
  - rewrite announced_snoc, in_order_snoc, Ho, E1.
    fold (mse.announced (mse.own_events (mse.effects s))). rewrite <- Ha.
    repeat split; [|auto].
    destruct checked; [specialize (Hc eq_refl)|];
      destruct (mse.ready_state s); try reflexivity; congruence.
Qed.

Lemma run_calls_life_cycle {K SB V : Type} {VC : mse.VideoController K}
    {SBC : mse.SourceBufferClass SB} {U : mse.UnorderedMap SB}
    {B : Build}
    (cs : list (mse.Call V)) (url : string) (k : K)
    (s : mse.MediaSource K SB V) :
  mse.run_calls cs (mse.new_MediaSource url k) = Some s ->
  mse.life_cycle DCHECK_IS_ON s.
Proof.
  apply (run_calls_invariant (mse.life_cycle DCHECK_IS_ON)).
  - apply life_cycle_Transition.
  - apply life_cycle_new.
Qed.

(** X17.  Whatever calls a MediaSource has served since it was constructed,
    its ready state is the one announced by the last event it scheduled on
    itself (closed when it has scheduled none): no change of state goes
    without its event, in any build. *)
Theorem MediaSource_state_announced {K SB V : Type}
    {VC : mse.VideoController K} {SBC : mse.SourceBufferClass SB}
    {U : mse.UnorderedMap SB} {B : Build}
    (cs : list (mse.Call V)) (url : string) (k : K)
    (s : mse.MediaSource K SB V) :
  mse.run_calls cs (mse.new_MediaSource url k) = Some s ->
  mse.ready_state s = mse.announced (mse.own_events (mse.effects s)).
Proof. intros H. apply (run_calls_life_cycle cs url k s H). Qed.

Lemma MediaSource_state_announced_witness :
  exists s,
    mse.run_calls (VC := logging_controller) (SBC := flag_buffers)
      (U := listed_order) (B := debug_build) sample_calls fresh_source = Some s
    /\ mse.ready_state s = mse.announced (mse.own_events (mse.effects s)).
Proof.
  eexists. split; [reflexivity|].
  apply (MediaSource_state_announced (VC := logging_controller)
           (SBC := flag_buffers) (U := listed_order) (B := debug_build) sample_calls
           "blob:0"%string []).
  reflexivity.
Defined.

(** X18.  The events a MediaSource schedules on itself come in the order of
    its life cycle.  sourceended only ever follows sourceopen directly; with
    checks compiled in, sourceopen comes only first or after sourceclose, and
    sourceclose only after sourceopen or sourceended. *)
Theorem MediaSource_event_order {K SB V : Type}
    {VC : mse.VideoController K} {SBC : mse.SourceBufferClass SB}
    {U : mse.UnorderedMap SB} {B : Build}
    (cs : list (mse.Call V)) (url : string) (k : K)
    (s : mse.MediaSource K SB V) :
  mse.run_calls cs (mse.new_MediaSource url k) = Some s ->
  mse.in_order DCHECK_IS_ON mse.CLOSED (mse.own_events (mse.effects s)) = true.
Proof. intros H. apply (run_calls_life_cycle cs url k s H). Qed.

Lemma MediaSource_event_order_witness :
  exists s,
    mse.run_calls (VC := logging_controller) (SBC := flag_buffers)
      (U := listed_order) (B := debug_build) sample_calls fresh_source = Some s
    /\ mse.own_events (mse.effects s)
       = [mse.SourceOpen; mse.SourceEnded; mse.SourceClose]
    /\ mse.in_order true mse.CLOSED (mse.own_events (mse.effects s)) = true.
Proof.
  eexists. split; [reflexivity|]. split; [reflexivity|].
  apply (MediaSource_event_order (VC := logging_controller)
           (SBC := flag_buffers) (U := listed_order) (B := debug_build) sample_calls
           "blob:0"%string []).
  reflexivity.
Defined.

(** X19.  A MediaSource that is closed, after any calls, has no video
    element, and every callback of its controller (ready state, pipeline
    status, media error, waiting for key, encrypted) leaves it as it is:
    nothing is forwarded. *)
Theorem MediaSource_closed_is_detached {K SB V : Type}
    {VC : mse.VideoController K} {SBC : mse.SourceBufferClass SB}
    {U : mse.UnorderedMap SB} {B : Build}
    (cs : list (mse.Call V)) (url : string) (k : K)
    (s : mse.MediaSource K SB V) :
  mse.run_calls cs (mse.new_MediaSource url k) = Some s ->
  mse.ready_state s = mse.CLOSED ->
  mse.video_element_ s = None
  /\ (forall n, mse.OnReadyStateChanged n s = s)
  /\ (forall n, mse.OnPipelineStatusChanged n s = s)
  /\ (forall source error, mse.OnMediaError source error s = s)
  /\ mse.OnWaitingForKey s = s
  /\ (forall t d, mse.OnEncrypted t d s = s).
Proof.
  intros H Hc.
  destruct (run_calls_life_cycle cs url k s H) as (_ & _ & Hv).
  specialize (Hv Hc).
  unfold mse.OnReadyStateChanged, mse.OnPipelineStatusChanged,
    mse.OnMediaError, mse.OnWaitingForKey, mse.OnEncrypted.
  rewrite Hv. repeat split.
Qed.

Lemma MediaSource_closed_is_detached_witness :
  exists s,
    mse.run_calls (VC := logging_controller) (SBC := flag_buffers)
      (U := listed_order) (B := debug_build) sample_calls fresh_source = Some s
    /\ mse.ready_state s = mse.CLOSED
    /\ mse.OnWaitingForKey s = s.
Proof.
  eexists. split; [reflexivity|]. split; [reflexivity|].
  apply (MediaSource_closed_is_detached (VC := logging_controller)
           (SBC := flag_buffers) (U := listed_order) (B := debug_build) sample_calls
           "blob:0"%string []); reflexivity.
Defined.

Lemma not_open_throws {K SB V : Type} {VC : mse.VideoController K}
    {SBC : mse.SourceBufferClass SB} (s : mse.MediaSource K SB V) :
  mse.ready_state s <> mse.OPEN ->
  (forall e, exists msg,
      mse.EndOfStream e s
      = (mse.Throws (mse.DOMException mse.InvalidStateError msg), s))
  /\ (forall d, mse.isnan d = false ->
        exists msg,
          mse.SetDuration d s
          = (mse.Throws (mse.DOMException mse.InvalidStateError msg), s)).
Proof.
  intros Hn. split.
  - intros e. unfold mse.EndOfStream.
    destruct (mse.ready_state s); [| congruence |]; cbn; eexists; reflexivity.
  - intros d Hd. unfold mse.SetDuration. rewrite Hd.
    destruct (mse.ready_state s); [| congruence |]; cbn; eexists; reflexivity.
Qed.

(** X20.  endOfStream() works once.  When it succeeds there was no argument,
    the MediaSource was open and is now ended; a second endOfStream(), with
    or without an argument, and any change of the duration then throw
    InvalidStateError and leave the object as it is, and closing the media
    source does not fail its check. *)
Theorem EndOfStream_only_once {K SB V : Type} {VC : mse.VideoController K}
    {SBC : mse.SourceBufferClass SB} {U : mse.UnorderedMap SB}
    {B : Build}
    (error : option string) (s s1 : mse.MediaSource K SB V) :
  mse.EndOfStream error s = (mse.Value tt, s1) ->
  error = None
  /\ mse.ready_state s = mse.OPEN
  /\ mse.ready_state s1 = mse.ENDED
  /\ (forall e, exists msg,
        mse.EndOfStream e s1
        = (mse.Throws (mse.DOMException mse.InvalidStateError msg), s1))
  /\ (forall d, mse.isnan d = false ->
        exists msg,
          mse.SetDuration d s1
          = (mse.Throws (mse.DOMException mse.InvalidStateError msg), s1))
  /\ fst (mse.CloseMediaSource s1) = mse.Value tt.
Proof.
  intros H.
  assert (E : error = None /\ mse.ready_state s = mse.OPEN
              /\ mse.ready_state s1 = mse.ENDED).
  { revert H. unfold mse.EndOfStream.
    destruct (mse.ready_state s); cbn [mse.is_open negb];
      try (cbn; discriminate).
    destruct (existsb _ _); [cbn; discriminate|].
    destruct error; [cbn; discriminate|].
    intros [= <-]. repeat split. }
  destruct E as (E1 & E2 & E3).
  assert (Hn : mse.ready_state s1 <> mse.OPEN) by (rewrite E3; discriminate).
  destruct (not_open_throws s1 Hn) as [T1 T2].
  repeat split; auto.
  unfold mse.CloseMediaSource, dcheck_fails. rewrite E3. cbn.
  rewrite andb_false_r. reflexivity.
Qed.

Lemma EndOfStream_only_once_witness :
  exists s s1,
    mse.run_calls (VC := logging_controller) (SBC := flag_buffers)
      (U := listed_order) (B := debug_build) [mse.VideoOpenMediaSource (Some 7%N)] fresh_source
    = Some s
    /\ mse.EndOfStream None s = (mse.Value tt, s1)
    /\ mse.ready_state s1 = mse.ENDED.
Proof.
  eexists. eexists. split; [reflexivity|]. split; [reflexivity|].
  apply (EndOfStream_only_once (VC := logging_controller)
           (SBC := flag_buffers) (U := listed_order) (B := debug_build) None
           {| mse.ready_state := mse.OPEN; mse.url := "blob:0"%string;
              mse.controller_ := []; mse.source_buffers_ := [];
              mse.video_element_ := Some 7%N;
              mse.effects := [mse.ScheduleEvent mse.SourceOpen] |}).
  reflexivity.
Defined.

(** ** Maps *)

Section AssocMap.
Context {A W : Type} (eqb : A -> A -> bool).
Hypothesis eqb_spec : forall a b, eqb a b = true <-> a = b.

Lemma eqb_same (a : A) : eqb a a = true.
Proof. apply eqb_spec. reflexivity. Qed.

Lemma eqb_other (a b : A) : a <> b -> eqb a b = false.
Proof.
  intros H. destruct (eqb a b) eqn:E; [|reflexivity].
  apply eqb_spec in E. contradiction.
Qed.

Lemma map_count_find (k : A) (m : list (A * W)) :
  mse.map_count eqb k m = 0%nat <-> mse.map_find eqb k m = None.
Proof.
  induction m as [|[k' v] m IH]; cbn; [tauto|].
  destruct (eqb k k'); [split; discriminate|exact IH].
Qed.

Lemma map_find_keys (k : A) (m : list (A * W)) :
  mse.map_find eqb k m = None <-> ~ In k (map fst m).
Proof.
  induction m as [|[k' v] m IH]; cbn; [tauto|].
  destruct (eqb k k') eqn:E.
  - apply eqb_spec in E. subst. split; [discriminate|]. intros H. exfalso. auto.
  - rewrite IH. split.
    + intros H [H1|H1]; [|auto]. subst. rewrite eqb_same in E. discriminate.
    + intros H H1. auto.
Qed.

Lemma map_find_assign (k : A) (v : W) (m : list (A * W)) :
  mse.map_find eqb k (mse.map_assign eqb k v m) = Some v.
Proof.
  induction m as [|[k' v'] m IH]; cbn.
  - rewrite eqb_same. reflexivity.
  - destruct (eqb k k') eqn:E; cbn; [rewrite eqb_same; reflexivity|].
    rewrite E. exact IH.
Qed.

Lemma map_find_assign_other (k u : A) (v : W) (m : list (A * W)) :
  u <> k ->
  mse.map_find eqb u (mse.map_assign eqb k v m) = mse.map_find eqb u m.
Proof.
  intros H. induction m as [|[k' v'] m IH]; cbn.
  - rewrite (eqb_other u k H). reflexivity.
  - destruct (eqb k k') eqn:E; cbn.
    + apply eqb_spec in E. subst k'. rewrite (eqb_other u k H). reflexivity.
    + destruct (eqb u k'); [reflexivity|exact IH].
Qed.

Lemma map_assign_keys (k u : A) (v : W) (m : list (A * W)) :
  In u (map fst (mse.map_assign eqb k v m)) <-> u = k \/ In u (map fst m).
Proof.
  induction m as [|[k' v'] m IH]; cbn.
  - split; [intros [H|[]]; auto|intros [H|[]]; auto].
  - destruct (eqb k k') eqn:E; cbn.
    + apply eqb_spec in E. subst k'. intuition auto.
    + rewrite IH. intuition auto.
Qed.

Lemma map_assign_NoDup (k : A) (v : W) (m : list (A * W)) :
  NoDup (map fst m) -> NoDup (map fst (mse.map_assign eqb k v m)).
Proof.
  induction m as [|[k' v'] m IH]; cbn; intros H.
  - constructor; [intros []|constructor].
  - inversion H as [|? ? Hn Hd]; subst.
    destruct (eqb k k') eqn:E; cbn.
    + apply eqb_spec in E. subst k'. constructor; assumption.
    + constructor; [|auto]. rewrite map_assign_keys. intros [H1|H1]; [|auto].
      subst. rewrite eqb_same in E. discriminate.
Qed.

Lemma map_assign_new (k : A) (v : W) (m : list (A * W)) :
  mse.map_count eqb k m = 0%nat -> mse.map_assign eqb k v m = m ++ [(k, v)].
Proof.
  induction m as [|[k' v'] m IH]; cbn; [reflexivity|].
  destruct (eqb k k'); [discriminate|]. intros H. rewrite IH by exact H.
  reflexivity.
Qed.

Lemma map_erase_new (k : A) (v : W) (m : list (A * W)) :
  mse.map_count eqb k m = 0%nat -> mse.map_erase eqb k (m ++ [(k, v)]) = m.
Proof.
  induction m as [|[k' v'] m IH]; cbn.
  - rewrite eqb_same. reflexivity.
  - destruct (eqb k k'); [discriminate|]. intros H. rewrite IH by exact H.
    reflexivity.
Qed.

Lemma map_erase_keys (k u : A) (m : list (A * W)) :
  In u (map fst (mse.map_erase eqb k m)) -> In u (map fst m).
Proof.
  induction m as [|[k' v'] m IH]; cbn; [tauto|].
  destruct (eqb k k'); cbn; intuition auto.
Qed.

Lemma map_erase_NoDup (k : A) (m : list (A * W)) :
  NoDup (map fst m) -> NoDup (map fst (mse.map_erase eqb k m)).
Proof.
  induction m as [|[k' v'] m IH]; cbn; intros H; [constructor|].
  inversion H as [|? ? Hn Hd]; subst.
  destruct (eqb k k'); cbn; [assumption|].
  constructor; [|auto]. intros H1. apply Hn. eapply map_erase_keys. exact H1.
Qed.

Lemma map_find_erase (k : A) (m : list (A * W)) :
  NoDup (map fst m) -> mse.map_find eqb k (mse.map_erase eqb k m) = None.
Proof.
  induction m as [|[k' v'] m IH]; cbn; intros H; [reflexivity|].
  inversion H as [|? ? Hn Hd]; subst.
  destruct (eqb k k') eqn:E; cbn.
  - apply eqb_spec in E. subst k'. apply map_find_keys. exact Hn.
  - rewrite E. auto.
Qed.

Lemma map_find_erase_other (k u : A) (m : list (A * W)) :
  u <> k -> mse.map_find eqb u (mse.map_erase eqb k m) = mse.map_find eqb u m.
Proof.
  intros H. induction m as [|[k' v'] m IH]; cbn; [reflexivity|].
  destruct (eqb k k') eqn:E; cbn.
  - apply eqb_spec in E. subst k'. rewrite (eqb_other u k H). reflexivity.
  - destruct (eqb u k'); [reflexivity|exact IH].
Qed.

Lemma map_count_assign (k : A) (v : W) (m : list (A * W)) :
  mse.map_count eqb k (mse.map_assign eqb k v m) = 1%nat.
Proof.
  induction m as [|[k' v'] m IH]; cbn.
  - rewrite eqb_same. reflexivity.
  - destruct (eqb k k') eqn:E; cbn; [rewrite eqb_same; reflexivity|].
    rewrite E. exact IH.
Qed.

End AssocMap.

Lemma SourceType_eqb_spec (a b : mse.SourceType) :
  mse.SourceType_eqb a b = true <-> a = b.
Proof.
  destruct a as [|x], b as [|y]; cbn; try (split; [discriminate|congruence]).
  - tauto.
  - rewrite N.eqb_eq. split; congruence.
Qed.

(** ** AddSourceBuffer *)

(** X21.  addSourceBuffer() that returns a buffer has entered it under the
    source type the controller reported: it is the buffer found there, the
    buffers of the other types stay, no type has two buffers, and ready state
    and events are untouched.  With checks compiled in the type is a known
    one that had no buffer, so there is one buffer more. *)
Theorem AddSourceBuffer_registers {K SB V : Type}
    {VC : mse.VideoController K} {SBC : mse.SourceBufferClass SB} {B : Build}
    (type : string) (s s' : mse.MediaSource K SB V) (b : SB) :
  NoDup (map fst (mse.source_buffers_ s)) ->
  mse.AddSourceBuffer type s = (mse.Value b, s') ->
  let ty := snd (mse.AddSource (mse.controller_ s) type) in
  mse.map_find mse.SourceType_eqb ty (mse.source_buffers_ s') = Some b
  /\ (forall t, t <> ty ->
        mse.map_find mse.SourceType_eqb t (mse.source_buffers_ s')
        = mse.map_find mse.SourceType_eqb t (mse.source_buffers_ s))
  /\ NoDup (map fst (mse.source_buffers_ s'))
  /\ mse.ready_state s' = mse.ready_state s
  /\ mse.effects s' = mse.effects s
  /\ (DCHECK_IS_ON = true ->
        ty <> mse.Unknown
        /\ mse.map_find mse.SourceType_eqb ty (mse.source_buffers_ s) = None
        /\ mse.source_buffers_ s' = mse.source_buffers_ s ++ [(ty, b)]).
Proof.
  intros Hd. unfold mse.AddSourceBuffer.
  destruct (mse.AddSource (mse.controller_ s) type) as [[k st] ty].
  cbn [snd]. destruct st; try discriminate.
  destruct (dcheck_fails (Nat.eqb 0 _)) eqn:E1; [discriminate|].
  destruct (dcheck_fails (negb _)) eqn:E2; [discriminate|].
  intros E. inversion E; subst. cbn.
  split; [apply map_find_assign, SourceType_eqb_spec|].
  split; [intros t Ht; apply map_find_assign_other;
          [apply SourceType_eqb_spec|exact Ht]|].
  split; [apply map_assign_NoDup; [apply SourceType_eqb_spec|exact Hd]|].
  split; [reflexivity|]. split; [reflexivity|].
  intros Hon. unfold dcheck_fails in E1, E2. rewrite Hon in E1, E2.
  cbn [andb] in E1, E2. rewrite negb_false_iff in E1, E2.
  apply Nat.eqb_eq in E1. symmetry in E1.
  split; [|split].
  - intros ->. rewrite negb_true_iff in E2. discriminate.
  - apply map_count_find. exact E1.
  - apply map_assign_new. exact E1.
Qed.

Lemma AddSourceBuffer_registers_witness :
  exists b s',
    mse.AddSourceBuffer (VC := logging_controller) (SBC := flag_buffers)
      (B := debug_build) "video/mp4"%string fresh_source = (mse.Value b, s')
    /\ mse.map_find mse.SourceType_eqb (mse.Known 1) (mse.source_buffers_ s')
       = Some b.
Proof.
  eexists. eexists. split; [reflexivity|].
  apply (AddSourceBuffer_registers (VC := logging_controller)
           (SBC := flag_buffers) (B := debug_build) "video/mp4"%string
           fresh_source).
  - constructor.
  - reflexivity.
Defined.

(** X22.  A call from JavaScript that does not succeed schedules no event
    and keeps the ready state, the buffers and the video element.
    endOfStream() and the duration setter then throw and leave the whole
    object as it is; addSourceBuffer() has still asked the controller, and
    what it throws is NotSupportedError, when the controller answered
    NotSupported or NotAllowed; an answer that is none of these and not
    Success fails the CHECK, and a debug check fails only after Success. *)
Theorem MediaSource_failed_call {K SB V : Type}
    {VC : mse.VideoController K} {SBC : mse.SourceBufferClass SB} {B : Build}
    (type : string) (error : option string) (duration : double)
    (s : mse.MediaSource K SB V) :
  (fst (mse.EndOfStream error s) <> mse.Value tt ->
   snd (mse.EndOfStream error s) = s
   /\ exists e, fst (mse.EndOfStream error s) = mse.Throws e)
  /\ (fst (mse.SetDuration duration s) <> mse.Value tt ->
      snd (mse.SetDuration duration s) = s
      /\ exists e, fst (mse.SetDuration duration s) = mse.Throws e)
  /\ ((forall b, fst (mse.AddSourceBuffer type s) <> mse.Value b) ->
      let s' := snd (mse.AddSourceBuffer type s) in
      let answer := mse.AddSource (mse.controller_ s) type in
      mse.ready_state s' = mse.ready_state s
      /\ mse.source_buffers_ s' = mse.source_buffers_ s
      /\ mse.video_element_ s' = mse.video_element_ s
      /\ mse.effects s' = mse.effects s
      /\ mse.url s' = mse.url s
      /\ mse.controller_ s' = fst (fst answer)
      /\ match fst (mse.AddSourceBuffer type s) with
         | mse.Throws e =>
             (snd (fst answer) = mse.StatusNotSupported
              \/ snd (fst answer) = mse.StatusNotAllowed)
             /\ exists msg, e = mse.DOMException mse.NotSupportedError msg
         | mse.Crashes mse.CHECK_failed =>
             exists code, snd (fst answer) = mse.StatusOther code
         | mse.Crashes mse.DCHECK_failed =>
             snd (fst answer) = mse.StatusSuccess /\ DCHECK_IS_ON = true
         | mse.Value _ => False
         end).
Proof.
  split; [|split].
  - unfold mse.EndOfStream.
    destruct (negb _); [cbn; eauto|].
    destruct (existsb _ _); [cbn; eauto|].
    destruct error; [cbn; eauto|]. cbn. congruence.
  - unfold mse.SetDuration.
    destruct (mse.isnan duration); [cbn; eauto|].
    destruct (negb _); [cbn; eauto|].
    destruct (existsb _ _); [cbn; eauto|]. cbn. congruence.
  - unfold mse.AddSourceBuffer.
    destruct (mse.AddSource (mse.controller_ s) type) as [[k st] ty].
    unfold dcheck_fails.
    destruct st; cbn [fst snd];
      try solve [cbn; intros _; repeat split; eauto].
    destruct DCHECK_IS_ON; cbn [andb];
      repeat match goal with
             | |- context [if ?c then _ else _] => destruct c
             end;
      cbn; intros H; repeat split; exfalso; eapply H; reflexivity.
Qed.

Lemma MediaSource_failed_call_witness :
  snd (mse.EndOfStream (VC := logging_controller) (SBC := flag_buffers)
         None fresh_source) = fresh_source
  /\ exists e,
       fst (mse.EndOfStream (VC := logging_controller)
              (SBC := flag_buffers) None fresh_source) = mse.Throws e.
Proof.
  apply (MediaSource_failed_call (VC := logging_controller)
           (SBC := flag_buffers) (B := debug_build) "text/plain"%string None
           (S754_zero false) fresh_source).
  cbn. discriminate.
Defined.

(** ** The registry of MediaSource objects *)

Lemma String_eqb_spec (a b : string) : String.eqb a b = true <-> a = b.
Proof. apply String.eqb_eq. Qed.

Lemma FindMediaSource_registry (url : string) (r : mse.Registry) :
  snd (mse.FindMediaSource url r) = r.
Proof.
  unfold mse.FindMediaSource, mse.map_index.
  destruct (Nat.eqb _ 0) eqn:E; [reflexivity|].
  destruct (mse.map_find String.eqb url r) eqn:F; [reflexivity|].
  apply (map_count_find String.eqb) in F. rewrite F in E. discriminate.
Qed.

(** X23.  FindMediaSource never changes the registry, although
    [media_sources_[url]] alone would add an entry for a URL that is not in
    it; for such a URL it returns null. *)
Theorem FindMediaSource_keeps_registry (url : string) (r : mse.Registry) :
  snd (mse.FindMediaSource url r) = r
  /\ (mse.map_count String.eqb url r = 0%nat ->
      fst (mse.FindMediaSource url r) = None
      /\ snd (mse.map_index url r) = r ++ [(url, None)]).
Proof.
  split; [apply FindMediaSource_registry|].
  unfold mse.FindMediaSource, mse.map_index.
  intros H. rewrite H. cbn. split; [reflexivity|].
  apply (map_count_find String.eqb) in H. rewrite H. cbn.
  apply map_assign_new. apply (map_count_find String.eqb). exact H.
Qed.

(** X24.  Round trip through the registry.  Once the constructor has entered
    the object under its URL, FindMediaSource finds it there and answers as
    before for every other URL; the destructor then passes its check and
    removes the entry, after which the URL is not found and the other URLs
    are found as before.  If the URL was new the registry is back to what
    it was. *)
Theorem registry_round_trip {B : Build} (this : N) (url : string)
    (r r1 : mse.Registry) :
  NoDup (map fst r) ->
  mse.register this url r = (mse.Value tt, r1) ->
  mse.FindMediaSource url r1 = (Some this, r1)
  /\ (forall u, u <> url ->
        fst (mse.FindMediaSource u r1) = fst (mse.FindMediaSource u r))
  /\ exists r2,
       mse.unregister url r1 = (mse.Value tt, r2)
       /\ mse.FindMediaSource url r2 = (None, r2)
       /\ (forall u, u <> url ->
             fst (mse.FindMediaSource u r2) = fst (mse.FindMediaSource u r))
       /\ NoDup (map fst r2)
       /\ (mse.map_count String.eqb url r = 0%nat -> r2 = r).
Proof.
  intros Hd. unfold mse.register.
  destruct (dcheck_fails _); [discriminate|]. intros [= <-].
  assert (Hfind : forall u m,
            fst (mse.FindMediaSource u m)
            = match mse.map_find String.eqb u m with
              | Some v => v
              | None => None
              end).
  { intros u m. unfold mse.FindMediaSource, mse.map_index.
    destruct (Nat.eqb _ 0) eqn:E.
    - apply Nat.eqb_eq in E. apply (map_count_find String.eqb) in E.
      rewrite E. reflexivity.
    - destruct (mse.map_find String.eqb u m); reflexivity. }
  pose proof String_eqb_spec as Hs.
  set (r1 := mse.map_assign String.eqb url (Some this) r).
  assert (Hc : mse.map_count String.eqb url r1 = 1%nat)
    by (apply map_count_assign; exact Hs).
  split; [|split].
  - rewrite (surjective_pairing (mse.FindMediaSource url r1)).
    rewrite Hfind, (FindMediaSource_registry url r1).
    unfold r1. rewrite (map_find_assign _ Hs). reflexivity.
  - intros u Hu. rewrite !Hfind. unfold r1.
    rewrite (map_find_assign_other _ Hs) by exact Hu. reflexivity.
  - exists (mse.map_erase String.eqb url r1).
    assert (Hd1 : NoDup (map fst r1))
      by (apply map_assign_NoDup; [exact Hs|exact Hd]).
    split; [|split; [|split; [|split]]].
    + unfold mse.unregister, dcheck_fails. rewrite Hc. cbn.
      rewrite andb_false_r. reflexivity.
    + rewrite (surjective_pairing (mse.FindMediaSource url _)).
      rewrite Hfind, (FindMediaSource_registry url _).
      rewrite (map_find_erase _ Hs) by exact Hd1. reflexivity.
    + intros u Hu. rewrite !Hfind.
      rewrite (map_find_erase_other _ Hs) by exact Hu. unfold r1.
      rewrite (map_find_assign_other _ Hs) by exact Hu. reflexivity.
    + apply map_erase_NoDup. exact Hd1.
    + intros H0. unfold r1. rewrite (map_assign_new String.eqb) by exact H0.
      apply map_erase_new; [exact Hs|exact H0].
Qed.

Lemma registry_round_trip_witness :
  exists r1,
    mse.register (B := debug_build) 7%N "blob:b"%string
      [("blob:a"%string, Some 3%N)] = (mse.Value tt, r1)
    /\ mse.FindMediaSource "blob:b"%string r1 = (Some 7%N, r1).
Proof.
  eexists. split; [reflexivity|].
  apply (registry_round_trip (B := debug_build) 7%N "blob:b"%string
           [("blob:a"%string, Some 3%N)]).
  - repeat constructor. intros [].
  - reflexivity.
Defined.

(** ** Document *)

(** X25.  DocumentElement returns the first child of the document that is
    an element: it is a child, an element, and every child before it is not
    one.  It returns null exactly when no child is an element. *)
Theorem DocumentElement_first {Node : Type} (is_element : Node -> bool)
    (child_nodes : list Node) :
  match dom.DocumentElement is_element child_nodes with
  | Some e =>
      exists before after,
        child_nodes = before ++ e :: after
        /\ is_element e = true
        /\ Forall (fun c => is_element c = false) before
  | None => Forall (fun c => is_element c = false) child_nodes
  end.
Proof.
  induction child_nodes as [|c l IH]; cbn; [constructor|].
  destruct (is_element c) eqn:E.
  - exists [], l. repeat split; [exact E|constructor].
  - destruct (dom.DocumentElement is_element l) as [e|].
    + destruct IH as (before & after & -> & He & Hb).
      exists (c :: before), after. repeat split; [exact He|].
      constructor; assumption.
    + constructor; assumption.
Qed.
